(** * post-guide.py: a shallow embedding of the text pipeline and the draft
      lifecycle, with the properties of its specification.

    Python strings are sequences of Unicode code points: [str] is a list of
    code points ([N]).  Regular expressions are modelled by a backtracking
    matcher with Python's priorities (leftmost start, alternatives and
    repetitions tried in the order [re] tries them); [re.sub] and
    [re.finditer] are built on one left-to-right scanner. *)

From Stdlib Require Import String Ascii.
From Stdlib Require Import List NArith Arith Bool Lia.
Import ListNotations.
Local Open Scope nat_scope.

Set Implicit Arguments.

(** ** Strings *)

Definition char := N.
Definition str := list char.

(** An ASCII literal as a Python string. *)
Definition lit (s : string) : str := map N_of_ascii (list_ascii_of_string s).
Arguments lit s%_string.

Definition NL : char := 10%N.
Definition QUOTE : char := 34%N.
Definition ESC : char := 27%N.

Definition char_eqb (a b : char) : bool := N.eqb a b.

Fixpoint str_eqb (a b : str) : bool :=
  match a, b with
  | [], [] => true
  | x :: a', y :: b' => char_eqb x y && str_eqb a' b'
  | _, _ => false
  end.

(** [content[a:b]] for [0 <= a], [0 <= b]. *)
Definition slice (s : str) (a b : nat) : str := firstn (b - a) (skipn a s).

(** [s.startswith(l)], returning the rest of [s]. *)
Fixpoint strip_prefix (l s : str) : option str :=
  match l with
  | [] => Some s
  | c :: l' =>
      match s with
      | d :: s' => if char_eqb c d then strip_prefix l' s' else None
      | [] => None
      end
  end.

Fixpoint last_char (prev : option char) (l : str) : option char :=
  match l with
  | [] => prev
  | c :: l' => last_char (Some c) l'
  end.

(** ** The Unicode database of the interpreter

    [\s], [\w], [\d], [str.strip] and [str.lower] consult the interpreter's
    Unicode tables.  The ASCII rows are written out below; the rows of the
    other code points are an interface.  The lower-case form of a character
    may depend on the characters around it (final sigma), so [uni_lower]
    receives the text before and after the character. *)

Class Unicode := {
  uni_isspace : char -> bool;
  uni_isalnum : char -> bool;
  uni_decimal : char -> option N;
  uni_lower : str -> char -> str -> str
}.

Definition is_ascii (c : char) : bool := (c <? 128)%N.

Definition in_range (lo hi c : N) : bool := ((lo <=? c) && (c <=? hi))%N.

(** [_Py_ascii_whitespace]: TAB..CR, FS..US and the space. *)
Definition ascii_isspace (c : char) : bool :=
  in_range 9 13 c || in_range 28 32 c.

Definition ascii_isdigit (c : char) : bool := in_range 48 57 c.
Definition ascii_isupper (c : char) : bool := in_range 65 90 c.
Definition ascii_islower (c : char) : bool := in_range 97 122 c.

Definition ascii_isalnum (c : char) : bool :=
  ascii_isdigit c || ascii_isupper c || ascii_islower c.

Definition ascii_lower (c : char) : char :=
  if ascii_isupper c then (c + 32)%N else c.

Section Tables.
Context {U : Unicode}.

(** [Py_UNICODE_ISSPACE]: the class [\s] and the characters of [strip()]. *)
Definition isspace (c : char) : bool :=
  if is_ascii c then ascii_isspace c else uni_isspace c.

Definition isalnum (c : char) : bool :=
  if is_ascii c then ascii_isalnum c else uni_isalnum c.

(** The class [\w]: alphanumeric or the underscore. *)
Definition is_word (c : char) : bool := isalnum c || char_eqb c 95%N.

Definition decimal (c : char) : option N :=
  if is_ascii c then (if ascii_isdigit c then Some (c - 48)%N else None)
  else uni_decimal c.

(** The class [\d]. *)
Definition isdecimal (c : char) : bool :=
  match decimal c with Some _ => true | None => false end.

Definition lower_char (before : str) (c : char) (after : str) : str :=
  if is_ascii c then [ascii_lower c] else uni_lower before c after.

Fixpoint lower_from (before_rev : str) (s : str) : str :=
  match s with
  | [] => []
  | c :: s' => lower_char (rev before_rev) c s' ++ lower_from (c :: before_rev) s'
  end.

(** [s.lower()] *)
Definition lower (s : str) : str := lower_from [] s.

Fixpoint lstrip (s : str) : str :=
  match s with
  | c :: s' => if isspace c then lstrip s' else s
  | [] => []
  end.

(** [s.strip()] *)
Definition strip (s : str) : str := rev (lstrip (rev (lstrip s))).
End Tables.

(** ** Regular expressions

    The fragment of [re] syntax the program uses: every repetition is over
    a one-character class.  A class is its membership test. *)

Inductive regex : Type :=
| Lit (l : str)                                   (* literal text *)
| Cls (p : char -> bool)                          (* one character of a class *)
| Rep (greedy : bool) (lo : nat) (hi : option nat) (p : char -> bool)
                                                  (* p*, p+, p{n}, p*?, p+? *)
| Seq (r1 r2 : regex)
| Alt (r1 r2 : regex)                             (* r1|r2 *)
| Opt (r : regex)                                 (* r? *)
| Grp (n : nat) (r : regex)                       (* capturing group n *)
| Bol.                                            (* ^ under re.MULTILINE *)

Definition caps := list (nat * str).

Fixpoint group (n : nat) (g : caps) : option str :=
  match g with
  | [] => None
  | (m, t) :: g' => if Nat.eqb n m then Some t else group n g'
  end.

Definition orelse {A} (a b : option A) : option A :=
  match a with Some x => Some x | None => b end.

Definition room (hi : option nat) : bool :=
  match hi with Some 0 => false | _ => true end.

Definition less (hi : option nat) : option nat :=
  match hi with Some n => Some (pred n) | None => None end.

Section Matcher.
Variable R : Type.

(** Repetition of a class, between [lo] and [hi] times.  Greedy: one more
    character first, stop on failure.  Lazy: stop first. *)
Fixpoint rep (greedy : bool) (p : char -> bool) (lo : nat) (hi : option nat)
    (prev : option char) (s : str) (k : option char -> str -> option R)
    {struct s} : option R :=
  let stop := match lo with 0 => k prev s | S _ => None end in
  let more :=
    match s with
    | c :: s' =>
        if p c && room hi
        then rep greedy p (pred lo) (less hi) (Some c) s' k
        else None
    | [] => None
    end in
  if greedy then orelse more stop else orelse stop more.

(** [mtch r prev s g k]: match [r] at the head of [s], where [prev] is the
    character before [s]; on success continue with [k]; when [k] fails,
    backtrack. *)
Fixpoint mtch (r : regex) (prev : option char) (s : str) (g : caps)
    (k : option char -> str -> caps -> option R) : option R :=
  match r with
  | Lit l =>
      match strip_prefix l s with
      | Some s' => k (last_char prev l) s' g
      | None => None
      end
  | Cls p =>
      match s with
      | c :: s' => if p c then k (Some c) s' g else None
      | [] => None
      end
  | Rep greedy lo hi p => rep greedy p lo hi prev s (fun prev' s' => k prev' s' g)
  | Seq r1 r2 => mtch r1 prev s g (fun prev' s' g' => mtch r2 prev' s' g' k)
  | Alt r1 r2 => orelse (mtch r1 prev s g k) (mtch r2 prev s g k)
  | Opt r1 => orelse (mtch r1 prev s g k) (k prev s g)
  | Grp n r1 =>
      mtch r1 prev s g
        (fun prev' s' g' => k prev' s' ((n, firstn (length s - length s') s) :: g'))
  | Bol =>
      match prev with
      | None => k prev s g
      | Some c => if char_eqb c NL then k prev s g else None
      end
  end.
End Matcher.

(** One match attempt at the head of [s]: the length of the match and its
    groups.  With [must_advance] an empty match is refused. *)
Definition match_at (r : regex) (prev : option char) (s : str)
    (must_advance : bool) : option (nat * caps) :=
  mtch r prev s []
    (fun _ s' g =>
       let len := length s - length s' in
       if must_advance && Nat.eqb len 0 then None else Some (len, g)).

(** A match object. *)
Record re_match := mk_match {
  m_start : nat;
  m_end : nat;
  m_text : str;      (* group() *)
  m_groups : caps
}.

Definition m_group (n : nat) (m : re_match) : option str := group n (m_groups m).

(** The scanner behind [sub] and [finditer]: the text as a sequence of
    characters outside every match and of matches. *)
Inductive piece :=
| Copy (c : char)
| Hit (m : re_match).

Definition hit (pos len : nat) (s : str) (g : caps) : piece :=
  Hit (mk_match pos (pos + len) (firstn len s) g).

(** [skip] counts the characters of the last match still to pass.  After an
    empty match the next attempt at the same place must advance. *)
Fixpoint scan (r : regex) (prev : option char) (s : str) (pos skip : nat)
    {struct s} : list piece :=
  let step (k : nat) (copy : bool) : list piece :=
    match s with
    | c :: s' => (if copy then [Copy c] else []) ++ scan r (Some c) s' (S pos) k
    | [] => []
    end in
  match skip with
  | S k => step k false
  | 0 =>
      match match_at r prev s false with
      | Some (S l, g) => hit pos (S l) s g :: step l false
      | Some (0, g) =>
          hit pos 0 s g ::
          match match_at r prev s true with
          | Some (S l, g2) => hit pos (S l) s g2 :: step l false
          | _ => step 0 true
          end
      | None => step 0 true
      end
  end.

Fixpoint hits (ps : list piece) : list re_match :=
  match ps with
  | [] => []
  | Copy _ :: ps' => hits ps'
  | Hit m :: ps' => m :: hits ps'
  end.

(** [pattern.finditer(s)] *)
Definition finditer (r : regex) (s : str) : list re_match :=
  hits (scan r None s 0 0).

Definition render (repl : re_match -> str) (p : piece) : str :=
  match p with
  | Copy c => [c]
  | Hit m => repl m
  end.

(** [re.sub(pattern, repl, s)] with a function [repl]. *)
Definition re_sub (r : regex) (repl : re_match -> str) (s : str) : str :=
  concat (map (render repl) (scan r None s 0 0)).

(** [re.search(pattern, s)] *)
Definition re_search (r : regex) (s : str) : option re_match :=
  match finditer r s with
  | m :: _ => Some m
  | [] => None
  end.

(** A missing group prints as [None] in an f-string. *)
Definition fmt (t : option str) : str :=
  match t with Some x => x | None => lit "None" end.

(** ** avoid_process_code_blocks *)

Definition any_char (c : char) : bool := true.
Definition is_char (a : char) (c : char) : bool := char_eqb c a.
Definition not_char (a : char) (c : char) : bool := negb (char_eqb c a).

Definition TILDE : char := 126%N.
Definition BACKTICK : char := 96%N.

(** [~~~[\s\S]*?~~~] *)
Definition tilde_fence : regex :=
  Seq (Lit [TILDE; TILDE; TILDE])
      (Seq (Rep false 0 None any_char) (Lit [TILDE; TILDE; TILDE])).

(** [```[\s\S]*?```] *)
Definition backtick_fence : regex :=
  Seq (Lit [BACKTICK; BACKTICK; BACKTICK])
      (Seq (Rep false 0 None any_char) (Lit [BACKTICK; BACKTICK; BACKTICK])).

(** [`[^`]*`] *)
Definition inline_code : regex :=
  Seq (Lit [BACKTICK]) (Seq (Rep true 0 None (not_char BACKTICK)) (Lit [BACKTICK])).

Definition code_block_pattern (avoid_inline_code : bool) : regex :=
  if avoid_inline_code
  then Grp 1 (Alt tilde_fence (Alt backtick_fence inline_code))
  else Grp 1 (Alt tilde_fence backtick_fence).

(** The body of the [for] loop: [(parts, last_end)] after one match. *)
Definition avoid_step (content : str) (process_func : str -> str)
    (st : list str * nat) (m : re_match) : list str * nat :=
  let '(parts, last_end) := st in
  let parts :=
    if last_end <? m_start m
    then parts ++ [process_func (slice content last_end (m_start m))]
    else parts in
  (parts ++ [m_text m], m_end m).

Definition avoid_process_code_blocks (content : str) (process_func : str -> str)
    (avoid_inline_code : bool) : str :=
  let '(parts, last_end) :=
    fold_left (avoid_step content process_func)
      (finditer (code_block_pattern avoid_inline_code) content) ([], 0) in
  let parts :=
    if last_end <? length content
    then parts ++ [process_func (skipn last_end content)]
    else parts in
  concat parts.

(** *** The document as spans

    The specification's reading of the rewriter: the document is cut into
    CODE spans (the matches) and PROSE spans (the non-empty text between
    them), and the transform is mapped over the PROSE spans. *)

Inductive span :=
| Prose (t : str)
| Code (t : str).

Definition span_text (x : span) : str :=
  match x with Prose t => t | Code t => t end.

Definition span_out (f : str -> str) (x : span) : str :=
  match x with Prose t => f t | Code t => t end.

Definition is_code (x : span) : bool :=
  match x with Code _ => true | Prose _ => false end.

Fixpoint spans_from (content : str) (last_end : nat) (ms : list re_match)
    : list span :=
  match ms with
  | [] =>
      if last_end <? length content then [Prose (skipn last_end content)] else []
  | m :: ms' =>
      (if last_end <? m_start m
       then [Prose (slice content last_end (m_start m))] else [])
      ++ Code (m_text m) :: spans_from content (m_end m) ms'
  end.

Definition spans (avoid_inline_code : bool) (content : str) : list span :=
  spans_from content 0 (finditer (code_block_pattern avoid_inline_code) content).

(** No two PROSE spans are adjacent: every gap is maximal. *)
Fixpoint gaps_maximal (xs : list span) : Prop :=
  match xs with
  | Prose _ :: ((Prose _ :: _) as xs') => False
  | _ :: xs' => gaps_maximal xs'
  | [] => True
  end.

(** Matches lie in the text, in order, without overlap, and carry the text
    of their span. *)
Fixpoint spans_ok (content : str) (from : nat) (ms : list re_match) : Prop :=
  match ms with
  | [] => from <= length content
  | m :: ms' =>
      from <= m_start m /\ m_start m <= m_end m /\ m_end m <= length content /\
      m_text m = slice content (m_start m) (m_end m) /\
      spans_ok content (m_end m) ms'
  end.

(** ** Console, exceptions and the file system *)

Definition red (text : str) : str := ESC :: lit "[31m" ++ text ++ ESC :: lit "[0m".
Definition green (text : str) : str := ESC :: lit "[32m" ++ text ++ ESC :: lit "[0m".
Definition yellow (text : str) : str := ESC :: lit "[33m" ++ text ++ ESC :: lit "[0m".
Definition blue (text : str) : str := ESC :: lit "[34m" ++ text ++ ESC :: lit "[0m".

Inductive exn_kind :=
| ValueError
| KeyError
| IndexError
| ReError              (* re.error *)
| FileExistsError
| FileNotFoundError
| NotADirectoryError
| IsADirectoryError
| ShutilError.         (* shutil.Error *)

(** An exception: its class and the arguments it was raised with. *)
Record exn := mk_exn { e_kind : exn_kind; e_args : list str }.

Inductive result (A : Type) :=
| Ok (a : A)
| Raise (e : exn).
Arguments Ok {A} a.
Arguments Raise {A} e.

(** Paths are relative to the working directory, one component per
    element; the working directory itself is [[]]. *)
Definition path := list str.

Inductive node :=
| Dir
| File (text : str).

Definition fs := path -> option node.

Fixpoint path_eqb (p q : path) : bool :=
  match p, q with
  | [], [] => true
  | a :: p', b :: q' => str_eqb a b && path_eqb p' q'
  | _, _ => false
  end.

(** [p] is [q] or lies under [q]. *)
Fixpoint under (q p : path) : bool :=
  match q with
  | [] => true
  | a :: q' =>
      match p with
      | b :: p' => str_eqb a b && under q' p'
      | [] => false
      end
  end.

Definition lookup (f : fs) (p : path) : option node :=
  match p with
  | [] => Some Dir
  | _ => f p
  end.

Definition fs_set (p : path) (n : option node) (f : fs) : fs :=
  fun q => if path_eqb q p then n else f q.

(** Everything the program can touch: the files and what was printed
    (one element per [print] call). *)
Record world := mk_world { w_fs : fs; w_out : list str }.

Definition M (A : Type) : Type := world -> world * result A.

Definition ret {A} (a : A) : M A := fun w => (w, Ok a).

Definition bind {A B} (m : M A) (k : A -> M B) : M B :=
  fun w =>
    match m w with
    | (w', Ok a) => k a w'
    | (w', Raise e) => (w', Raise e)
    end.

Definition raise {A} (kind : exn_kind) (args : list str) : M A :=
  fun w => (w, Raise (mk_exn kind args)).

Definition print (line : str) : M unit :=
  fun w => (mk_world (w_fs w) (w_out w ++ [line]), Ok tt).

Definition get_fs : M fs := fun w => (w, Ok (w_fs w)).

Definition put_fs (f : fs) : M unit :=
  fun w => (mk_world f (w_out w), Ok tt).

Notation "x <- m ;; k" := (bind m (fun x => k))
  (at level 61, m at next level, right associativity).
Notation "m ;;; k" := (bind m (fun _ => k))
  (at level 61, right associativity).

(** ** title2filename *)

Section Title.
Context {U : Unicode}.

Definition is_separator (c : char) : bool :=
  isspace c || char_eqb c 45%N || char_eqb c 95%N.

Definition is_special (c : char) : bool :=
  negb (is_word c || char_eqb c 45%N).

(** [[\s\-_]+] *)
Definition separators : regex := Rep true 1 None is_separator.

(** [[^\w\-]] *)
Definition special : regex := Cls is_special.

(** The value of [filename] after the three rewriting steps. *)
Definition converted (title : str) : str :=
  let filename := re_sub separators (fun _ => lit "-") title in
  let filename := re_sub special (fun _ => []) filename in
  lower filename.

Definition length_warning : str :=
  red (lit "Warning:") ++ lit " The converted file name exceeds 64 characters.".

Definition title2filename (title : str) : M str :=
  print (green (NL :: lit "Original:") ++ lit " " ++ title) ;;;
  let filename := converted title in
  (if 255 <? length filename
   then raise ValueError
          [red (lit "The converted file name exceeds the maximum allowed length of 255 characters.")]
   else if 64 <? length filename
   then print length_warning
   else ret tt) ;;;
  print (green (lit "Converted:") ++ lit " " ++ filename) ;;;
  ret filename.
End Title.

(** ** The content transforms *)

(** [.] without [re.DOTALL]: anything but a newline. *)
Definition dot (c : char) : bool := negb (char_eqb c NL).

Definition is_quote (c : char) : bool := char_eqb c QUOTE || char_eqb c 39%N.

(** The characters with a meaning of their own in a regular expression. *)
Definition is_meta (c : char) : bool :=
  existsb (char_eqb c) (lit ".^$*+?{}[]\|()").

(** A directory that stands for itself when it is spliced into a pattern:
    for such a directory [img_insert_pattern] is the pattern of the
    program. *)
Definition literal_dir (d : str) : Prop := Forall (fun c => is_meta c = false) d.

Section Transforms.
Context {U : Unicode}.

(** [\[(.*?)\]\(({img_dir})?([^)]+)\)].  The program splices the directory
    into the pattern as it is, so a directory with regular-expression
    metacharacters gives another pattern, or none.  The directory is read
    here as literal text: this is the pattern of the program for a
    directory without metacharacters ([literal_dir]), such as the
    default [img/], and the statements about this pattern are made for
    such directories only. *)
Definition img_insert_pattern (img_dir : str) : regex :=
  Seq (Lit (lit "["))
 (Seq (Grp 1 (Rep false 0 None dot))
 (Seq (Lit (lit "]("))
 (Seq (Opt (Grp 2 (Lit img_dir)))
 (Seq (Grp 3 (Rep true 1 None (not_char 41%N)))
      (Lit (lit ")")))))).

(** [<img\s+src=Q{re.escape(img_dir)}([^Q]+)Q], where [Q] stands for the
    class of the single and the double quote. *)
Definition html_img_tag_pattern (img_dir : str) : regex :=
  Seq (Lit (lit "<img"))
 (Seq (Rep true 1 None isspace)
 (Seq (Lit (lit "src="))
 (Seq (Cls is_quote)
 (Seq (Lit img_dir)
 (Seq (Grp 1 (Rep true 1 None (fun c => negb (is_quote c))))
      (Cls is_quote)))))).

Definition replace_img_path (m : re_match) : str :=
  lit "[" ++ fmt (m_group 1 m) ++ lit "](" ++ fmt (m_group 3 m) ++ lit ")".

Definition replace_html_img_src (m : re_match) : str :=
  lit "<img src=" ++ QUOTE :: fmt (m_group 1 m) ++ [QUOTE].

(** [process_non_code] of [remove_img_path_in_md] *)
Definition img_process_non_code (img_dir : str) (text : str) : str :=
  let text := re_sub (img_insert_pattern img_dir) replace_img_path text in
  let text := re_sub (html_img_tag_pattern img_dir) replace_html_img_src text in
  text.

Definition default_img_dir : str := lit "img/".

Definition remove_img_path_in_md (content : str) (img_dir : str) : str :=
  avoid_process_code_blocks content (img_process_non_code img_dir) true.

(** [\n^#\s+.+\n] under [re.MULTILINE] *)
Definition first_level_title_pattern : regex :=
  Seq (Lit [NL])
 (Seq Bol
 (Seq (Lit (lit "#"))
 (Seq (Rep true 1 None isspace)
 (Seq (Rep true 1 None dot)
      (Lit [NL]))))).

(** [process_non_code] of [remove_first_level_titles] *)
Definition title_process_non_code (text : str) : str :=
  re_sub first_level_title_pattern (fun _ => []) text.

Definition remove_first_level_titles (content : str) : str :=
  avoid_process_code_blocks content title_process_non_code false.

(** The keys and values of [icon_url_mapping]. *)
Definition zhihu_cn : str := [30693%N; 20046%N].   (* U+77E5 U+4E4E *)

Definition zhihu_icon : str :=
  lit "https://pic1.zhimg.com/v2-4cd83ae3d6ca76dabecf001244a62310.jpg?source=57bbeac9".

Definition github_icon : str :=
  lit "https://github.githubassets.com/assets/apple-touch-icon-144x144-b882e354c005.png".

Definition icon_url_mapping : list (str * str) :=
  [ (zhihu_cn, zhihu_icon);
    (lit "zhihu", zhihu_icon);
    (lit "github", github_icon) ].

(** [d[key]] *)
Fixpoint dict_get (d : list (str * str)) (key : str) : option str :=
  match d with
  | [] => None
  | (k, v) :: d' => if str_eqb k key then Some v else dict_get d' key
  end.

(** [<!--\s([^>]+?)\s-->\n\[(.*?)\]\((.*?)\)] under [re.DOTALL] *)
Definition card_pattern : regex :=
  Seq (Lit (lit "<!--"))
 (Seq (Cls isspace)
 (Seq (Grp 1 (Rep false 1 None (not_char 62%N)))
 (Seq (Cls isspace)
 (Seq (Lit (lit "-->"))
 (Seq (Lit [NL])
 (Seq (Lit (lit "["))
 (Seq (Grp 2 (Rep false 0 None any_char))
 (Seq (Lit (lit "]("))
 (Seq (Grp 3 (Rep false 0 None any_char))
      (Lit (lit ")"))))))))))).

(** The icon after the lookup in [icon_url_mapping]; the lookup is by the
    lower-cased text, and a missing key raises [KeyError]. *)
Definition resolve_icon (icon_url : str) : result str :=
  if existsb (str_eqb (lower icon_url)) (map (fun kv => lower (fst kv)) icon_url_mapping)
  then match dict_get icon_url_mapping (lower icon_url) with
       | Some v => Ok v
       | None => Raise (mk_exn KeyError [lower icon_url])
       end
  else Ok icon_url.

Definition card (title url icon_url : str) : str :=
  lit "{% externalLinkCard " ++ QUOTE :: title ++ QUOTE :: lit " "
    ++ QUOTE :: url ++ QUOTE :: lit " " ++ QUOTE :: icon_url ++ QUOTE :: lit " %}".

Definition replace_with_card (m : re_match) : result str :=
  let icon_url := strip (fmt (m_group 1 m)) in
  let title := strip (fmt (m_group 2 m)) in
  let url := strip (fmt (m_group 3 m)) in
  match resolve_icon icon_url with
  | Ok icon_url => Ok (card title url icon_url)
  | Raise e => Raise e
  end.

(** [pattern.sub(repl, s)] where [repl] may raise. *)
Fixpoint splice (repl : re_match -> result str) (ps : list piece) : result str :=
  match ps with
  | [] => Ok []
  | Copy c :: ps' =>
      match splice repl ps' with
      | Ok t => Ok (c :: t)
      | Raise e => Raise e
      end
  | Hit m :: ps' =>
      match repl m with
      | Ok x =>
          match splice repl ps' with
          | Ok t => Ok (x ++ t)
          | Raise e => Raise e
          end
      | Raise e => Raise e
      end
  end.

Definition re_sub_try (r : regex) (repl : re_match -> result str) (s : str)
    : result str :=
  splice repl (scan r None s 0 0).

Definition replace_url_to_card (content : str) : result str :=
  re_sub_try card_pattern replace_with_card content.
End Transforms.

(** ** An excerpt of the Unicode database

    Rows of the tables for a few blocks, enough to run the program on
    concrete texts: the Unicode white space, the Latin-1 letters, the
    dotted capital I (whose lower-case form is two characters: [i] and the
    combining dot above), the CJK unified ideographs and the full-width
    digits.  Code points of other blocks are treated as symbols without
    case.  The statements about every title or document are made for an
    arbitrary table, not for this one. *)

Definition excerpt_isspace (c : char) : bool :=
  char_eqb c 133%N || char_eqb c 160%N || char_eqb c 5760%N
  || in_range 8192 8202 c || char_eqb c 8232%N || char_eqb c 8233%N
  || char_eqb c 8239%N || char_eqb c 8287%N || char_eqb c 12288%N.

Definition excerpt_isalnum (c : char) : bool :=
  in_range 192 214 c || in_range 216 246 c || in_range 248 255 c
  || char_eqb c 304%N
  || in_range 19968 40959 c
  || in_range 65296 65305 c.

Definition excerpt_decimal (c : char) : option N :=
  if in_range 65296 65305 c then Some (c - 65296)%N else None.

Definition excerpt_lower (before : str) (c : char) (after : str) : str :=
  if in_range 192 214 c || in_range 216 222 c then [(c + 32)%N]
  else if char_eqb c 304%N then [105%N; 775%N]
  else [c].

Definition unicode_excerpt : Unicode :=
  {| uni_isspace := excerpt_isspace;
     uni_isalnum := excerpt_isalnum;
     uni_decimal := excerpt_decimal;
     uni_lower := excerpt_lower |}.

(** ** Replacement templates

    A replacement given as a string is a template: [re.sub] reads its
    backslash escapes before it scans the text.  None of the patterns that
    are used with a string replacement has a group, so the only group
    reference that stands is [\g<0>], the whole match. *)

Inductive tmode :=
| TText
| TEsc                          (* after a backslash *)
| TOct (v : N) (more : nat)     (* after \0: up to two more octal digits *)
| TDig (d : N)                  (* after \d, d from 1 to 9 *)
| TDig2 (d e : N)               (* after \de, both octal *)
| TGroup                        (* after \g *)
| TName (name_rev : str).       (* inside \g<...> *)

Definition BACKSLASH : char := 92%N.

Definition is_octal (c : char) : bool := in_range 48 55 c.

Definition ascii_isalpha (c : char) : bool := ascii_isupper c || ascii_islower c.

(** [ESCAPES] of the template parser: a, b, f, n, r, t, v and the backslash. *)
Definition template_escape (c : char) : option char :=
  if char_eqb c 97%N then Some 7%N
  else if char_eqb c 98%N then Some 8%N
  else if char_eqb c 102%N then Some 12%N
  else if char_eqb c 110%N then Some 10%N
  else if char_eqb c 114%N then Some 13%N
  else if char_eqb c 116%N then Some 9%N
  else if char_eqb c 118%N then Some 11%N
  else if char_eqb c BACKSLASH then Some BACKSLASH
  else None.

Definition re_error {A} : result A := Raise (mk_exn ReError []).

Definition emit (x : str) (r : result str) : result str :=
  match r with
  | Ok t => Ok (x ++ t)
  | Raise e => Raise e
  end.

(** A group name, by the rules of Python 3.12: a run of ASCII digits is a
    group number, and only number 0 exists; an ASCII identifier names a
    group the pattern does not have ([IndexError]); any other name is
    refused.  (Identifiers with letters outside ASCII are refused here with
    [re.error]; the interpreter raises [IndexError] for them.) *)
Definition template_group (name whole : str) : result str :=
  match name with
  | [] => re_error
  | c :: name' =>
      if forallb ascii_isdigit name
      then (if forallb (char_eqb 48%N) name then Ok whole else re_error)
      else if (ascii_isalpha c || char_eqb c 95%N)
              && forallb (fun d => ascii_isalnum d || char_eqb d 95%N) name'
      then Raise (mk_exn IndexError [name])
      else re_error
  end.

Fixpoint template (mode : tmode) (t : str) (whole : str) : result str :=
  match t with
  | [] =>
      match mode with
      | TText => Ok []
      | TOct v _ => Ok [N.land v 255]
      | _ => re_error
      end
  | c :: t' =>
      match mode with
      | TText =>
          if char_eqb c BACKSLASH then template TEsc t' whole
          else emit [c] (template TText t' whole)
      | TEsc =>
          if char_eqb c 103%N then template TGroup t' whole
          else if char_eqb c 48%N then template (TOct 0 2) t' whole
          else if ascii_isdigit c then template (TDig (c - 48)) t' whole
          else match template_escape c with
               | Some x => emit [x] (template TText t' whole)
               | None =>
                   if ascii_isalpha c then re_error
                   else emit [BACKSLASH; c] (template TText t' whole)
               end
      | TOct v more =>
          match more with
          | S more' =>
              if is_octal c then template (TOct (v * 8 + (c - 48)) more') t' whole
              else if char_eqb c BACKSLASH
              then emit [N.land v 255] (template TEsc t' whole)
              else emit [N.land v 255; c] (template TText t' whole)
          | 0 =>
              if char_eqb c BACKSLASH
              then emit [N.land v 255] (template TEsc t' whole)
              else emit [N.land v 255; c] (template TText t' whole)
          end
      | TDig d =>
          if ascii_isdigit c && (d <=? 7)%N && is_octal c
          then template (TDig2 d (c - 48)) t' whole
          else re_error
      | TDig2 d e =>
          if is_octal c
          then (if (255 <? d * 64 + e * 8 + (c - 48))%N then re_error
                else emit [(d * 64 + e * 8 + (c - 48))%N] (template TText t' whole))
          else re_error
      | TGroup =>
          if char_eqb c 60%N then template (TName []) t' whole else re_error
      | TName name_rev =>
          if char_eqb c 62%N
          then match template_group (rev name_rev) whole with
               | Ok x => emit x (template TText t' whole)
               | Raise e => Raise e
               end
          else template (TName (c :: name_rev)) t' whole
      end
  end.

(** [re.sub(pattern, repl, s)] with a string [repl], for a pattern without
    groups. *)
Definition re_sub_template (r : regex) (repl : str) (s : str) : result str :=
  match template TText repl [] with
  | Raise e => Raise e
  | Ok _ =>
      Ok (re_sub r (fun m => match template TText repl (m_text m) with
                             | Ok x => x
                             | Raise _ => []
                             end) s)
  end.

(** ** Files and directories *)

Definition try_except {A} (m : M A) (handler : exn -> M A) : M A :=
  fun w =>
    match m w with
    | (w', Raise e) => handler e w'
    | r => r
    end.

Definition reraise {A} (e : exn) : M A := fun w => (w, Raise e).

Definition kind_eqb (a b : exn_kind) : bool :=
  match a, b with
  | ValueError, ValueError | KeyError, KeyError | IndexError, IndexError
  | ReError, ReError | FileExistsError, FileExistsError
  | FileNotFoundError, FileNotFoundError
  | NotADirectoryError, NotADirectoryError
  | IsADirectoryError, IsADirectoryError | ShutilError, ShutilError => true
  | _, _ => false
  end.

Fixpoint join (sep : str) (l : list str) : str :=
  match l with
  | [] => []
  | [x] => x
  | x :: l' => x ++ sep ++ join sep l'
  end.

(** The text of a path below the working directory.  The program builds
    its paths from [Path.cwd()], so what it shows is this text with the
    working directory in front; the statements below leave the shown form
    of a path open. *)
Definition show_path (p : path) : str := join (lit "/") p.

Definition parent (p : path) : path := removelast p.

Definition basename (p : path) : str := last p [].

(** [Path.exists] *)
Definition exists_ (f : fs) (p : path) : bool :=
  match lookup f p with Some _ => true | None => false end.

(** [Path.is_dir] *)
Definition is_dir (f : fs) (p : path) : bool :=
  match lookup f p with Some Dir => true | _ => false end.

(** [os.mkdir] *)
Definition os_mkdir (p : path) : M unit :=
  f <- get_fs ;;
  match lookup f p with
  | Some _ => raise FileExistsError [show_path p]
  | None =>
      match lookup f (parent p) with
      | Some Dir => put_fs (fs_set p (Some Dir) f)
      | Some (File _) => raise NotADirectoryError [show_path p]
      | None => raise FileNotFoundError [show_path p]
      end
  end.

(** [Path.mkdir(parents=False, exist_ok)] *)
Definition mkdir_flat (exist_ok : bool) (p : path) : M unit :=
  try_except (os_mkdir p)
    (fun e =>
       if kind_eqb (e_kind e) FileNotFoundError then reraise e
       else
         f <- get_fs ;;
         if exist_ok && is_dir f p then ret tt else reraise e).

(** [Path.mkdir(parents, exist_ok)]; the path is given leaf first. *)
Fixpoint mkdir_rev (parents exist_ok : bool) (leaf_first : path) : M unit :=
  let p := rev leaf_first in
  try_except (os_mkdir p)
    (fun e =>
       if kind_eqb (e_kind e) FileNotFoundError
       then match leaf_first with
            | _ :: up =>
                if parents
                then mkdir_rev true true up ;;; mkdir_flat exist_ok p
                else reraise e
            | [] => reraise e
            end
       else
         f <- get_fs ;;
         if exist_ok && is_dir f p then ret tt else reraise e).

Definition mkdir (parents exist_ok : bool) (p : path) : M unit :=
  mkdir_rev parents exist_ok (rev p).

(** [shutil.rmtree] *)
Definition rmtree (p : path) : M unit :=
  f <- get_fs ;;
  match lookup f p with
  | Some Dir => put_fs (fun q => if under p q then None else f q)
  | Some (File _) => raise NotADirectoryError [show_path p]
  | None => raise FileNotFoundError [show_path p]
  end.

(** [os.rename] onto a free name or onto a file (the POSIX behaviour):
    [src] and everything under it reappears at [dst]. *)
Definition rename_tree (src dst : path) (f : fs) : fs :=
  fun q =>
    if under dst q then f (src ++ skipn (length dst) q)
    else if under src q then None
    else f q.

(** [shutil.move] on one file system *)
Definition shutil_move (src dst : path) : M unit :=
  f <- get_fs ;;
  if is_dir f dst
  then
    let real_dst := dst ++ [basename src] in
    if exists_ f real_dst
    then raise ShutilError [show_path real_dst]
    else put_fs (rename_tree src real_dst f)
  else put_fs (rename_tree src dst f).

(** [path / name]: joining the empty name gives the path back. *)
Definition child (p : path) (name : str) : path :=
  match name with
  | [] => p
  | _ => p ++ [name]
  end.

Definition CR : char := 13%N.

(** What a file opened in text mode gives to the reader (universal
    newlines, the default of [open]): [\r\n] and a lone [\r] are read as
    [\n].  Writing leaves the text as it is, as on POSIX systems. *)
Fixpoint universal_newlines (s : str) : str :=
  match s with
  | [] => []
  | c :: s' =>
      if char_eqb c CR
      then NL :: match s' with
                 | d :: s'' =>
                     if char_eqb d NL then universal_newlines s''
                     else universal_newlines s'
                 | [] => []
                 end
      else c :: universal_newlines s'
  end.

(** The lines of a text, each with its newline. *)
Fixpoint readlines_from (line_rev : str) (s : str) : list str :=
  match s with
  | [] =>
      match line_rev with
      | [] => []
      | _ => [rev line_rev]
      end
  | c :: s' =>
      if char_eqb c NL
      then rev (c :: line_rev) :: readlines_from [] s'
      else readlines_from (c :: line_rev) s'
  end.

(** [f.readlines()] on a file opened in text mode whose content is [s]. *)
Definition readlines (s : str) : list str :=
  readlines_from [] (universal_newlines s).

(** [l.index(x)] *)
Fixpoint index_of (x : str) (l : list str) : option nat :=
  match l with
  | [] => None
  | y :: l' => if str_eqb y x then Some 0 else option_map S (index_of x l')
  end.

(** [lines.index('---\n', 1) if '---\n' in lines[1:] else None] *)
Definition front_matter_end (lines : list str) : option nat :=
  option_map S (index_of (lit "---" ++ [NL]) (tl lines)).

(** ** Dates *)

Record date := mk_date { year : N; month : N; day : N }.

Definition is_leap (y : N) : bool :=
  ((y mod 4 =? 0) && (negb (y mod 100 =? 0) || (y mod 400 =? 0)))%N.

Definition days_in_month (y m : N) : N :=
  if (m =? 2)%N then (if is_leap y then 29 else 28)%N
  else if ((m =? 4) || (m =? 6) || (m =? 9) || (m =? 11))%N then 30%N
  else 31%N.

Definition digit_char (n : N) : char := (48 + n mod 10)%N.

Definition pad2 (n : N) : str := [digit_char (n / 10); digit_char n].

Definition pad4 (n : N) : str :=
  [digit_char (n / 1000); digit_char (n / 100); digit_char (n / 10); digit_char n].

(** [%Y] as the C library of Linux prints it: the year in decimal, without
    leading zeros (a [datetime] year lies between 1 and 9999). *)
Definition year_digits (y : N) : str :=
  if (y <? 10)%N then [digit_char y]
  else if (y <? 100)%N then [digit_char (y / 10); digit_char y]
  else if (y <? 1000)%N then [digit_char (y / 100); digit_char (y / 10); digit_char y]
  else pad4 y.

(** [date_obj.strftime('%Y/%m')] *)
Definition strftime_Y_m (d : date) : str :=
  year_digits (year d) ++ lit "/" ++ pad2 (month d).

Section Lifecycle.
Context {U : Unicode}.

(** The effect of a shell command on the files: the generator is
    outside the program. *)
Variable os_system : str -> fs -> fs.

(** [datetime.strptime(s, '%Y-%m-%d')] on a text of the shape the date
    pattern captures.  The year is any four decimal digits; the month is
    01..12 in ASCII digits; the day is 01..31, where the second digit
    after 1 or 2 may be any decimal digit; then the date must exist. *)
Definition strptime_Y_m_d (s : str) : result date :=
  let bad := Raise (mk_exn ValueError [s]) in
  match s with
  | [y1; y2; y3; y4; h1; m1; m2; h2; d1; d2] =>
      match decimal y1, decimal y2, decimal y3, decimal y4 with
      | Some a, Some b, Some c, Some d =>
          let y := (a * 1000 + b * 100 + c * 10 + d)%N in
          let month_ok :=
            (char_eqb m1 49%N && in_range 48 50 m2)
            || (char_eqb m1 48%N && in_range 49 57 m2) in
          let day_ok :=
            (char_eqb d1 51%N && in_range 48 49 d2)
            || (in_range 49 50 d1 && isdecimal d2)
            || (char_eqb d1 48%N && in_range 49 57 d2) in
          match decimal d2 with
          | Some e =>
              let m := ((m1 - 48) * 10 + (m2 - 48))%N in
              let dd := ((d1 - 48) * 10 + e)%N in
              if char_eqb h1 45%N && char_eqb h2 45%N && month_ok && day_ok
                 && (1 <=? y)%N && (dd <=? days_in_month y m)%N
              then Ok (mk_date y m dd)
              else bad
          | None => bad
          end
      | _, _, _, _ => bad
      end
  | _ => bad
  end.

(** [date:\s*(\d{4}-\d{2}-\d{2})] *)
Definition date_pattern : regex :=
  Seq (Lit (lit "date:"))
 (Seq (Rep true 0 None isspace)
      (Grp 1
        (Seq (Rep true 4 (Some 4) isdecimal)
        (Seq (Lit (lit "-"))
        (Seq (Rep true 2 (Some 2) isdecimal)
        (Seq (Lit (lit "-"))
             (Rep true 2 (Some 2) isdecimal))))))).

(** [title:\s*.*] *)
Definition title_pattern : regex :=
  Seq (Lit (lit "title:")) (Seq (Rep true 0 None isspace) (Rep true 0 None dot)).

(** [cover:\s*.*] *)
Definition cover_pattern : regex :=
  Seq (Lit (lit "cover:")) (Seq (Rep true 0 None isspace) (Rep true 0 None dot)).

Definition lift {A} (r : result A) : M A := fun w => (w, r).

Definition exec_hexo_cmds (cmds : list str) : M unit :=
  fold_right
    (fun cmd rest =>
       let full_cmd := lit "hexo " ++ cmd in
       print (blue (NL :: lit "Executing:") ++ lit " " ++ full_cmd) ;;;
       f <- get_fs ;;
       put_fs (os_system full_cmd f) ;;;
       rest)
    (ret tt) cmds.

Definition source_posts : path := [lit "source"; lit "_posts"].

Definition check_get_make_dirs : M (path * path * path * path) :=
  let hexo_root : path := [] in
  let source_posts_dir := hexo_root ++ source_posts in
  f <- get_fs ;;
  if negb (exists_ f source_posts_dir)
  then raise FileNotFoundError [red (lit "Error:"); lit "Hexo root directory not found."]
  else
    let draft_dir := hexo_root ++ [lit "_draft"] in
    let hidden_dir := hexo_root ++ [lit "_hidden"] in
    let archived_dir := hexo_root ++ [lit "_archived"] in
    mkdir false true draft_dir ;;;
    mkdir false true hidden_dir ;;;
    mkdir false true archived_dir ;;;
    ret (source_posts_dir, draft_dir, hidden_dir, archived_dir).

Definition change_front_matter (target_dir : path) (filename title : str)
    : M unit :=
  let file := child target_dir (filename ++ lit ".md") in
  f <- get_fs ;;
  match lookup f file with
  | None => raise FileNotFoundError [show_path file]
  | Some Dir => raise IsADirectoryError [show_path file]
  | Some (File text) =>
      let lines := readlines text in
      match front_matter_end lines with
      | None => raise ValueError [lit "Invalid Front-matter format."]
      | Some front_matter_end_index =>
          let front_matter := concat (firstn (front_matter_end_index + 1) lines) in
          let content := concat (skipn (front_matter_end_index + 1) lines) in
          match re_search date_pattern front_matter with
          | None => raise ValueError [lit "Date field not found in Front-matter."]
          | Some date_match =>
              let date_str := fmt (m_group 1 date_match) in
              date_obj <- lift (strptime_Y_m_d date_str) ;;
              let yyyy_mm := strftime_Y_m date_obj in
              front_matter <-
                lift (re_sub_template title_pattern (lit "title: " ++ title)
                        front_matter) ;;
              front_matter <-
                lift (re_sub_template cover_pattern
                        (lit "cover: " ++ yyyy_mm ++ lit "/" ++ filename
                           ++ lit "/cover.jpg")
                        front_matter) ;;
              put_fs (fs_set file (Some (File (front_matter ++ content))) f)
          end
      end
  end.

Definition new_draft (title : str) : M unit :=
  dirs <- check_get_make_dirs ;;
  let '(source_posts_dir, draft_dir, _, _) := dirs in
  filename <- title2filename title ;;
  let target_dir := child draft_dir filename in
  f <- get_fs ;;
  if exists_ f target_dir
  then raise FileExistsError
         [red (lit "Draft '" ++ show_path target_dir ++ lit "' already exists.")]
  else
    exec_hexo_cmds [lit "new post " ++ QUOTE :: filename ++ [QUOTE]] ;;;
    f <- get_fs ;;
    let post_md := child source_posts_dir (filename ++ lit ".md") in
    if negb (exists_ f post_md)
    then raise FileNotFoundError
           [red (lit "Post file for '" ++ filename ++ lit "' not found.")]
    else
      mkdir true true target_dir ;;;
      shutil_move post_md (child target_dir (filename ++ lit ".md")) ;;;
      let post_dir := child source_posts_dir filename in
      f <- get_fs ;;
      (if exists_ f post_dir then rmtree post_dir else ret tt) ;;;
      change_front_matter target_dir filename title ;;;
      print (lit "Draft '" ++ blue title ++ lit "' has been created and moved to "
               ++ green (show_path target_dir) ++ lit ".").

Fixpoint new_drafts (titles : list str) : M unit :=
  match titles with
  | [] => ret tt
  | title :: rest => new_draft title ;;; new_drafts rest
  end.
End Lifecycle.

(** ** Reading the console *)

(** A line is a warning when it opens with the red [Warning:] label. *)
Definition is_warning (line : str) : bool :=
  match strip_prefix (red (lit "Warning:")) line with
  | Some _ => true
  | None => false
  end.

Definition warnings (out : list str) : nat := length (filter is_warning out).

(** What a computation printed, and what it returned, from world [w]. *)
Definition printed {A} (m : M A) (w : world) : list str :=
  skipn (length (w_out w)) (w_out (fst (m w))).

Definition returned {A} (m : M A) (w : world) : result A := snd (m w).

(** ** The normalizer as list functions

    What the two substitutions of [title2filename] compute, written as
    recursions over the title. *)

Section Normal.
Context {U : Unicode}.

(** Runs of separators become one hyphen; [in_run] tells that the
    hyphen of the current run is already out. *)
Fixpoint collapse (in_run : bool) (s : str) : str :=
  match s with
  | [] => []
  | c :: s' =>
      if is_separator c
      then (if in_run then collapse true s' else 45%N :: collapse true s')
      else c :: collapse false s'
  end.

(** The length of the run of [p] at the head of [s]. *)
Fixpoint run (p : char -> bool) (s : str) : nat :=
  match s with
  | c :: s' => if p c then S (run p s') else 0
  | [] => 0
  end.

Fixpoint no_adjacent_hyphens (s : str) : Prop :=
  match s with
  | a :: ((b :: _) as s') => ~ (a = 45%N /\ b = 45%N) /\ no_adjacent_hyphens s'
  | _ => True
  end.

(** A character that stays as it is under the normalizer: a word
    character other than the underscore, not white space, and its own
    lower-case form in every context. *)
Definition settled (d : char) : Prop :=
  is_word d = true /\ d <> 95%N /\ isspace d = false
  /\ forall before after, lower_char before d after = [d].

(** A character whose lower-case form consists of settled characters. *)
Definition tame (c : char) : Prop :=
  forall before after, Forall settled (lower_char before c after).

(** The letters and digits of the title outside ASCII are tame. *)
Definition tame_title (title : str) : Prop :=
  forall c, In c title -> is_ascii c = false -> isalnum c = true -> tame c.
End Normal.

(** A world without files, where nothing has been printed. *)
Definition empty_world : world := mk_world (fun _ => None) [].

(** The text a list of pieces stands for, under a replacement. *)
Definition out (repl : re_match -> str) (ps : list piece) : str :=
  concat (map (render repl) ps).

(** ** Texts that hold no occurrence of a text *)

(** [lacks p s]: the text [p] occurs nowhere in [s]. *)
Fixpoint lacks (p s : str) : bool :=
  match s with
  | [] => true
  | _ :: s' =>
      match strip_prefix p s with
      | Some _ => false
      | None => lacks p s'
      end
  end.

(** ** Documents made of annotated links

    The shape of the texts the card converter is specified on: annotated
    links (a comment whose text stands between two white-space characters,
    a newline and a link) and the other text between them.  The other text
    may hold [<] and comments of its own, as long as no comment in it is
    left open and none is directly followed by a newline and [[]: such a
    comment would take part of the text, or the link after it, into a
    match. *)

Inductive card_item :=
| CText (t : str)
| CLink (sp1 : char) (icon : str) (sp2 : char) (title url : str).

Section CardItems.
Context {U : Unicode}.

Definition card_source (sp1 : char) (icon : str) (sp2 : char) (title url : str)
    : str :=
  lit "<!--" ++ sp1 :: icon ++ sp2 :: lit "-->" ++ NL :: lit "[" ++ title
    ++ lit "](" ++ url ++ lit ")".

(** The icon of the specification: the canonical URL when the text
    matches an alias without regard to case, the text otherwise. *)
Definition canonical_icon (icon : str) : str :=
  if str_eqb (lower icon) (lower zhihu_cn) || str_eqb (lower icon) (lower (lit "zhihu"))
  then zhihu_icon
  else if str_eqb (lower icon) (lower (lit "github"))
  then github_icon
  else icon.

(** Every [<!--] of [t] that is followed by a white-space character is
    followed, later in [t], by [>]. *)
Fixpoint comments_closed (t : str) : bool :=
  match t with
  | [] => true
  | _ :: t' =>
      match strip_prefix (lit "<!--") t with
      | Some (c :: rest) => negb (isspace c) || existsb (char_eqb 62%N) rest
      | _ => true
      end && comments_closed t'
  end.

(** Nowhere in [t] a white-space character is followed by [-->], a
    newline and [[]. *)
Fixpoint no_link_after_comment (t : str) : bool :=
  match t with
  | [] => true
  | c :: t' =>
      negb (isspace c
            && match strip_prefix (lit "-->" ++ NL :: lit "[") t' with
               | Some _ => true
               | None => false
               end)
      && no_link_after_comment t'
  end.

(** An annotated link: white space on both sides of a non-empty comment
    text without [>]; the title ends at the first [](] and the URL at the
    first [)]. *)
Definition card_item_ok (x : card_item) : Prop :=
  match x with
  | CText t => comments_closed t = true /\ no_link_after_comment t = true
  | CLink sp1 icon sp2 title url =>
      isspace sp1 = true /\ isspace sp2 = true
      /\ icon <> [] /\ Forall (fun c => c <> 62%N) icon
      /\ lacks (lit "](") title = true
      /\ Forall (fun c => c <> 41%N) url
  end.

Definition card_item_source (x : card_item) : str :=
  match x with
  | CText t => t
  | CLink sp1 icon sp2 title url => card_source sp1 icon sp2 title url
  end.

Definition card_item_target (x : card_item) : str :=
  match x with
  | CText t => t
  | CLink _ icon _ title url =>
      card (strip title) (strip url) (canonical_icon (strip icon))
  end.
End CardItems.

Definition is_card_text (x : card_item) : bool :=
  match x with CText _ => true | _ => false end.

(** No two texts in a row: a text is all the text between two annotated
    links. *)
Fixpoint card_separated (items : list card_item) : Prop :=
  match items with
  | x :: ((y :: _) as rest) =>
      is_card_text x && is_card_text y = false /\ card_separated rest
  | _ => True
  end.

(** What can follow a text: nothing, or an annotated link. *)
Definition after_text (tail : str) : Prop :=
  tail = [] \/ exists r, tail = 60%N :: r.

(** ** Prose made of links

    The shape of the prose the image-path stripper is specified on: links
    whose path begins with the image directory, links whose path does not,
    and the other text between them, which holds no [](].  A label stays
    on one line and ends at the first [](]; a path is not empty and ends at
    the first [)]. *)

Inductive img_item :=
| IText (t : str)
| ILink (label rest : str)        (* [label](img_dir rest) *)
| IOther (label path : str).      (* [label](path) *)

Definition link_source (label path : str) : str :=
  lit "[" ++ label ++ lit "](" ++ path ++ lit ")".

Definition label_ok (label : str) : Prop :=
  Forall (fun c => c <> NL) label /\ lacks (lit "](") label = true.

Definition path_ok (p : str) : Prop :=
  p <> [] /\ Forall (fun c => c <> 41%N) p.

Definition img_item_ok (img_dir : str) (x : img_item) : Prop :=
  match x with
  | IText t => lacks (lit "](") t = true
  | ILink label rest => label_ok label /\ path_ok rest
  | IOther label path =>
      label_ok label /\ path_ok path /\ strip_prefix img_dir path = None
  end.

Definition img_item_source (img_dir : str) (x : img_item) : str :=
  match x with
  | IText t => t
  | ILink label rest => link_source label (img_dir ++ rest)
  | IOther label path => link_source label path
  end.

Definition img_item_target (x : img_item) : str :=
  match x with
  | IText t => t
  | ILink label rest => link_source label rest
  | IOther label path => link_source label path
  end.

Definition is_text (x : img_item) : bool :=
  match x with IText _ => true | _ => false end.

(** No two texts in a row: a text is all the text between two links. *)
Fixpoint separated (items : list img_item) : Prop :=
  match items with
  | x :: ((y :: _) as rest) => is_text x && is_text y = false /\ separated rest
  | _ => True
  end.

(** A text in which every [[] is followed by a newline: no label can
    begin in it. *)
Definition closed_text (a : str) : Prop :=
  forall x y, a = x ++ 91%N :: y -> In NL y.

(** The open end of a text: from the first [[] of its last line. *)
Definition open_tail (b : str) : Prop :=
  b = [] \/ exists b', b = 91%N :: b' /\ Forall (fun c => c <> NL) b'.

(** The label of a link seen from the open end of the text before it: the
    pattern takes the open end into the label. *)
Definition with_open_tail (pre label : str) : str :=
  match pre with
  | [] => label
  | _ :: b => b ++ 91%N :: label
  end.

(** ** Comparing file systems *)

(** From [f] to [f']: every entry of [f] is as it was, and the only entries
    that may be new are directly under the working directory. *)
Definition preserved (f f' : fs) : Prop :=
  forall p, f p <> None \/ length p <> 1 -> f' p = f p.

Definition draft_dir_of (filename : str) : path := child [lit "_draft"] filename.

(** ** Sample documents *)

(** Lines of ASCII text, each followed by its newline. *)
Definition text_lines (ls : list string) : str :=
  concat (map (fun l => lit l ++ [NL]) ls).
Arguments text_lines ls%_list.

(** Two first-level titles in a row. *)
Definition two_titles : str :=
  text_lines ["intro"; "# A"; "# B"; "text"]%string.

(** A post whose [cover] field is empty and stands last in the
    front-matter, as a template leaves it. *)
Definition post_with_empty_cover : str :=
  text_lines ["---"; "title: tom-jerry"; "date: 2024-01-02 10:00:00"; "tags:";
              "cover:"; "---"; "body"]%string.

Definition post_after_change : str :=
  text_lines ["---"; "title: Tom & Jerry"; "date: 2024-01-02 10:00:00"; "tags:";
              "cover: 2024/01/tom--jerry/cover.jpg"; "body"]%string.

Definition draft_file : path :=
  [lit "_draft"; lit "tom--jerry"; lit "tom--jerry.md"].

(** A blog root with the draft of [Tom & Jerry]. *)
Definition blog_with_draft : fs :=
  fun p =>
    if path_eqb p [lit "source"] || path_eqb p source_posts
       || path_eqb p [lit "_draft"] || path_eqb p [lit "_draft"; lit "tom--jerry"]
    then Some Dir
    else if path_eqb p draft_file then Some (File post_with_empty_cover)
    else None.

(** ** finalize_all_drafts *)

(** [Path.unlink] *)
Definition unlink (p : path) : M unit :=
  f <- get_fs ;;
  match lookup f p with
  | Some (File _) => put_fs (fs_set p None f)
  | Some Dir => raise IsADirectoryError [show_path p]
  | None => raise FileNotFoundError [show_path p]
  end.

(** The content of a file as it is stored. *)
Definition read_file (p : path) : M str :=
  f <- get_fs ;;
  match lookup f p with
  | Some (File text) => ret text
  | Some Dir => raise IsADirectoryError [show_path p]
  | None => raise FileNotFoundError [show_path p]
  end.

(** [open(p, 'r').read()]: the file is read in text mode. *)
Definition read_text (p : path) : M str :=
  text <- read_file p ;;
  ret (universal_newlines text).

(** [open(p, 'w').write(text)] *)
Definition write_text (p : path) (text : str) : M unit :=
  f <- get_fs ;;
  match lookup f p with
  | Some Dir => raise IsADirectoryError [show_path p]
  | _ =>
      match lookup f (parent p) with
      | Some Dir => put_fs (fs_set p (Some (File text)) f)
      | Some (File _) => raise NotADirectoryError [show_path p]
      | None => raise FileNotFoundError [show_path p]
      end
  end.

(** [shutil.copy]: the content of a file as it is stored, to [dst] or into
    the directory [dst]. *)
Definition shutil_copy (src dst : path) : M unit :=
  f <- get_fs ;;
  let dst := if is_dir f dst then dst ++ [basename src] else dst in
  text <- read_file src ;;
  write_text dst text.

(** A [for] loop over a list. *)
Definition for_each {A} (xs : list A) (body : A -> M unit) : M unit :=
  fold_right (fun x rest => body x ;;; rest) (ret tt) xs.

Section Finalize.
Context {U : Unicode}.

(** [os.listdir]: the names in a directory, in the order the system gives
    them. *)
Variable listdir : fs -> path -> list str.

(** [Path.iterdir]: the listing is taken when the loop starts. *)
Definition iterdir (p : path) : M (list path) :=
  f <- get_fs ;;
  match lookup f p with
  | Some Dir => ret (map (fun name => p ++ [name]) (listdir f p))
  | Some (File _) => raise NotADirectoryError [show_path p]
  | None => raise FileNotFoundError [show_path p]
  end.

(** The three content transforms in the order of the loop body. *)
Definition finalize_content (content : str) : result str :=
  let content := remove_img_path_in_md content default_img_dir in
  let content := remove_first_level_titles content in
  replace_url_to_card content.

(** The body of the loop over the draft directories. *)
Definition finalize_draft (source_posts_dir article_dir : path) : M unit :=
  f <- get_fs ;;
  if negb (is_dir f article_dir) then ret tt
  else
    let article_name := basename article_dir in
    let article_md := child article_dir (article_name ++ lit ".md") in
    let img_src_dir := child article_dir (lit "img") in
    if negb (exists_ f article_md) then ret tt
    else
      let post_md_dest := child source_posts_dir (article_name ++ lit ".md") in
      let img_dest_dir := child source_posts_dir article_name in
      print (lit "Finalizing draft '" ++ blue article_name ++ lit "' to "
               ++ green (show_path post_md_dest) ++ lit "...") ;;;
      (if exists_ f post_md_dest then unlink post_md_dest else ret tt) ;;;
      f <- get_fs ;;
      (if exists_ f img_dest_dir then rmtree img_dest_dir else ret tt) ;;;
      mkdir true true img_dest_dir ;;;
      f <- get_fs ;;
      (if exists_ f img_src_dir
       then
         imgs <- iterdir img_src_dir ;;
         for_each imgs
           (fun img => shutil_copy img (child img_dest_dir (basename img)))
       else ret tt) ;;;
      content <- read_text article_md ;;
      content <- lift (finalize_content content) ;;
      write_text post_md_dest content ;;;
      print (lit "Draft '" ++ blue article_name ++ lit "' has been finalized"
               ++ lit " and copied to " ++ green (show_path post_md_dest) ++ lit ".").

Definition finalize_all_drafts : M unit :=
  dirs <- check_get_make_dirs ;;
  let '(source_posts_dir, draft_dir, _, _) := dirs in
  articles <- iterdir draft_dir ;;
  for_each articles (finalize_draft source_posts_dir).
End Finalize.

(** ** Documents with one code block *)

Definition plain (s : str) : Prop := Forall (fun c => c <> 96%N /\ c <> 126%N) s.

(** The transform on a gap: an empty gap is not passed to it. *)
Definition on_gap (f : str -> str) (t : str) : str :=
  match t with
  | [] => []
  | _ => f t
  end.

Definition backtick_block (body : str) : str :=
  [BACKTICK; BACKTICK; BACKTICK] ++ body ++ [BACKTICK; BACKTICK; BACKTICK].

Definition tilde_block (body : str) : str :=
  [TILDE; TILDE; TILDE] ++ body ++ [TILDE; TILDE; TILDE].

Definition inline_block (body : str) : str := [BACKTICK] ++ body ++ [BACKTICK].


(** ** Documents and first-level titles *)

(** [s] begins like a first-level title: a newline, [#] and a white-space
    character. *)
Definition starts_title {U : Unicode} (s : str) : Prop :=
  match s with
  | a :: b :: c :: _ => a = NL /\ b = 35%N /\ isspace c = true
  | _ => False
  end.

(** No place of [s] begins like a first-level title. *)
Fixpoint no_title_start {U : Unicode} (s : str) : Prop :=
  match s with
  | [] => True
  | _ :: s' => ~ starts_title s /\ no_title_start s'
  end.

(** A title line with the newline before it and the newline after it: [#],
    white space, and a text on one line that does not begin with white
    space. *)
Definition title_line (ws body : str) : str :=
  NL :: 35%N :: ws ++ body ++ [NL].

Definition title_line_ok {U : Unicode} (ws body : str) : Prop :=
  ws <> [] /\ Forall (fun c => isspace c = true) ws
  /\ match body with c :: _ => isspace c = false | [] => False end
  /\ Forall (fun c => c <> NL) body.

(** ** HTML image tags *)

(** [<img], white space, [src=], a quote, the path, a quote. *)
Definition img_tag (ws : str) (q1 : char) (path : str) (q2 : char) : str :=
  lit "<img" ++ ws ++ lit "src=" ++ q1 :: path ++ [q2].

Definition img_tag_ok {U : Unicode} (ws : str) (q1 : char) (rest : str) (q2 : char)
    : Prop :=
  ws <> [] /\ Forall (fun c => isspace c = true) ws
  /\ is_quote q1 = true /\ is_quote q2 = true
  /\ rest <> [] /\ Forall (fun c => is_quote c = false) rest.

Definition img_tag_out (rest : str) : str :=
  lit "<img src=" ++ QUOTE :: rest ++ [QUOTE].

(** ** The file of a draft *)

(** [target_dir / f'{filename}.md'] *)
Definition md_file (target_dir : path) (filename : str) : path :=
  child target_dir (filename ++ lit ".md").

(** A world with one file, which has no front-matter. *)
Definition world_without_front_matter : world :=
  mk_world (fun p => if path_eqb p [lit "d"; lit "f.md"]
                     then Some (File (text_lines ["just"; "text"]%string))
                     else None) [].

(** ** Frames *)

(** A computation that, whatever it returns, leaves the entries outside
    the region [R] as they were. *)
Definition touches_only {A} (R : path -> bool) (m : M A) : Prop :=
  forall w p, R p = false -> w_fs (fst (m w)) p = w_fs w p.

(** The region [source] and everything below. *)
Definition in_source : path -> bool := under [lit "source"].

(** A computation that, whatever it returns, leaves the directories in
    place. *)
Definition keeps_dirs {A} (m : M A) : Prop :=
  forall w p, is_dir (w_fs w) p = true -> is_dir (w_fs (fst (m w))) p = true.

(** The listing of the sample blog: one draft, without images. *)
Definition listdir_sample (f : fs) (p : path) : list str :=
  if path_eqb p [lit "_draft"] then [lit "tom--jerry"] else [].

(** ** A sample generator *)

(** A blog root without drafts. *)
Definition blog_without_drafts : fs :=
  fun p =>
    if path_eqb p [lit "source"] || path_eqb p source_posts
    then Some Dir
    else None.

(** A generator that answers every command by writing the post
    [tom--jerry.md] from its template. *)
Definition hexo_sample (cmd : str) (f : fs) : fs :=
  fs_set (source_posts ++ [lit "tom--jerry.md"]) (Some (File post_with_empty_cover)) f.

(** The three working directories of the tool, beside [source]. *)
Definition working_dirs : list str := [lit "_draft"; lit "_hidden"; lit "_archived"].

Definition root_not_found : exn :=
  mk_exn FileNotFoundError [red (lit "Error:"); lit "Hexo root directory not found."].

(** ** Copying the images *)

(** Where the loop over the images puts [img]. *)
Definition image_target (img_dest_dir img : path) : path :=
  img_dest_dir ++ [basename img].

(** A draft with two images, and the directory they are copied to. *)
Definition blog_with_images : fs :=
  fun p =>
    if path_eqb p [lit "source"] || path_eqb p source_posts
       || path_eqb p (source_posts ++ [lit "a"])
       || path_eqb p [lit "_draft"] || path_eqb p [lit "_draft"; lit "a"]
       || path_eqb p [lit "_draft"; lit "a"; lit "img"]
    then Some Dir
    else if path_eqb p [lit "_draft"; lit "a"; lit "img"; lit "cover.jpg"]
    then Some (File (lit "JFIF1"))
    else if path_eqb p [lit "_draft"; lit "a"; lit "img"; lit "1.png"]
    then Some (File (lit "PNG1"))
    else None.

(** * Properties *)

(** ** The matcher and the scanner *)

Lemma orelse_some A (a b : option A) x :
  orelse a b = Some x -> a = Some x \/ (a = None /\ b = Some x).
Proof. destruct a; simpl; intros H; [left|right]; auto. Qed.

Lemma rep_eq R greedy p lo hi prev s (k : option char -> str -> option R) :
  rep greedy p lo hi prev s k =
  let stop := match lo with 0 => k prev s | S _ => None end in
  let more :=
    match s with
    | c :: s' =>
        if p c && room hi
        then rep greedy p (pred lo) (less hi) (Some c) s' k
        else None
    | [] => None
    end in
  if greedy then orelse more stop else orelse stop more.
Proof. destruct s; reflexivity. Qed.

Lemma rep_from_k R greedy p s : forall lo hi prev (k : option char -> str -> option R) x,
  rep greedy p lo hi prev s k = Some x ->
  exists prev' s', k prev' s' = Some x.
Proof.
  induction s as [|c s IH]; intros lo hi prev k x H; rewrite rep_eq in H; cbv zeta in H.
  - destruct greedy; apply orelse_some in H; destruct H as [H|[_ H]];
      try discriminate; destruct lo; try discriminate; eauto.
  - assert (Hstop : match lo with 0 => k prev (c :: s) | S _ => None end = Some x ->
                    exists prev' s', k prev' s' = Some x).
    { destruct lo; [eauto|discriminate]. }
    assert (Hmore : (if p c && room hi then rep greedy p (pred lo) (less hi) (Some c) s k else None) = Some x ->
                    exists prev' s', k prev' s' = Some x).
    { destruct (p c && room hi); [apply IH|discriminate]. }
    destruct greedy; apply orelse_some in H; destruct H as [H|[_ H]]; auto.
Qed.

Lemma mtch_from_k R r : forall prev s g (k : option char -> str -> caps -> option R) x,
  mtch r prev s g k = Some x ->
  exists prev' s' g', k prev' s' g' = Some x.
Proof.
  induction r; intros prev s g k x H; simpl in H.
  - destruct (strip_prefix l s); [eauto|discriminate].
  - destruct s as [|c s]; [discriminate|]. destruct (p c); [eauto|discriminate].
  - apply rep_from_k in H. destruct H as (p' & s' & H). eauto.
  - apply IHr1 in H. destruct H as (p' & s' & g' & H). eapply IHr2; eauto.
  - apply orelse_some in H. destruct H as [H|[_ H]]; eauto.
  - apply orelse_some in H. destruct H as [H|[_ H]]; eauto.
  - apply IHr in H. destruct H as (p' & s' & g' & H). eauto.
  - destruct prev as [c|]; [destruct (char_eqb c NL)|]; try discriminate; eauto.
Qed.

Lemma match_at_len r prev s adv len g :
  match_at r prev s adv = Some (len, g) -> len <= length s.
Proof.
  unfold match_at. intros H. apply mtch_from_k in H.
  destruct H as (_ & s' & g' & H).
  destruct (adv && Nat.eqb (length s - length s') 0); [discriminate|].
  inversion H; subst. lia.
Qed.

Lemma match_at_adv r prev s len g :
  match_at r prev s true = Some (len, g) -> 0 < len.
Proof.
  unfold match_at. intros H. apply mtch_from_k in H.
  destruct H as (_ & s' & g' & H). simpl in H.
  destruct (Nat.eqb (length s - length s') 0) eqn:E; [discriminate|].
  inversion H; subst. apply Nat.eqb_neq in E. lia.
Qed.

(* hits of scan are well spanned *)
Lemma slice_app_firstn (pre s : str) len :
  len <= length s ->
  slice (pre ++ s) (length pre) (length pre + len) = firstn len s.
Proof.
  intros H. unfold slice. rewrite skipn_app, skipn_all, Nat.sub_diag. simpl.
  f_equal. lia.
Qed.

Lemma scan_spans_ok r s : forall pre prev skip,
  skip <= length s ->
  spans_ok (pre ++ s) (length pre + skip) (hits (scan r prev s (length pre) skip)).
Proof.
  induction s as [|c s IH]; intros pre prev skip Hskip.
  - simpl in Hskip. assert (skip = 0) by lia. subst skip. simpl.
    rewrite Nat.add_0_r, app_nil_r.
    destruct (match_at r prev [] false) as [[[|l] g]|] eqn:E.
    + destruct (match_at r prev [] true) as [[[|l] g2]|] eqn:E2.
      * simpl. rewrite Nat.add_0_r. unfold slice. rewrite Nat.sub_diag. simpl. repeat split; lia.
      * apply match_at_len in E2. simpl in E2. lia.
      * simpl. rewrite Nat.add_0_r. unfold slice. rewrite Nat.sub_diag. simpl. repeat split; lia.
    + apply match_at_len in E. simpl in E. lia.
    + simpl. lia.
  - assert (Hstep : forall k (copy : bool), k <= length s ->
       spans_ok (pre ++ c :: s) (length pre + S k)
         (hits ((if copy then [Copy c] else @nil piece) ++ scan r (Some c) s (S (length pre)) k))).
    { intros k copy Hk.
      replace (pre ++ c :: s) with ((pre ++ [c]) ++ s) by (rewrite <- app_assoc; reflexivity).
      replace (S (length pre)) with (length (pre ++ [c])) by (rewrite length_app; simpl; lia).
      replace (length pre + S k) with (length (pre ++ [c]) + k) by (rewrite length_app; simpl; lia).
      destruct copy; simpl; apply IH; exact Hk. }
    assert (Hweak : forall from from' ms, from' <= from ->
       spans_ok (pre ++ c :: s) from ms -> spans_ok (pre ++ c :: s) from' ms).
    { intros from from' ms Hle. destruct ms; simpl; intuition lia. }
    destruct skip as [|k].
    + simpl scan.
      destruct (match_at r prev (c :: s) false) as [[[|l] g]|] eqn:E.
      * cbn [hits hit]. simpl spans_ok. rewrite !Nat.add_0_r.
        split; [lia|]. split; [lia|]. split; [rewrite length_app; lia|].
        split; [unfold slice; rewrite Nat.sub_diag; reflexivity|].
        destruct (match_at r prev (c :: s) true) as [[[|l] g2]|] eqn:E2.
        -- eapply Hweak; [|apply (Hstep 0 true); lia]. lia.
        -- cbn [hits hit]. simpl spans_ok.
           pose proof E2 as Hl; apply match_at_len in Hl. simpl in Hl.
           split; [lia|]. split; [lia|]. split; [rewrite length_app; simpl; lia|].
           split; [symmetry; apply slice_app_firstn; simpl; lia|].
           apply (Hstep l false). lia.
        -- eapply Hweak; [|apply (Hstep 0 true); lia]. lia.
      * cbn [hits hit]. simpl spans_ok.
        pose proof E as Hl; apply match_at_len in Hl. simpl in Hl.
        rewrite Nat.add_0_r.
        split; [lia|]. split; [lia|]. split; [rewrite length_app; simpl; lia|].
        split; [symmetry; apply slice_app_firstn; simpl; lia|].
        apply (Hstep l false). lia.
      * eapply Hweak; [|apply (Hstep 0 true); lia]. lia.
    + simpl scan. simpl in Hskip. apply (Hstep k false). lia.
Qed.

Lemma finditer_spans_ok r s : spans_ok s 0 (finditer r s).
Proof. apply (scan_spans_ok r s [] None (skip := 0)). lia. Qed.

Lemma slice_skipn (s : str) a b :
  a <= b -> b <= length s -> slice s a b ++ skipn b s = skipn a s.
Proof.
  intros Hab Hb. unfold slice.
  replace (skipn b s) with (skipn (b - a) (skipn a s)).
  - apply firstn_skipn.
  - rewrite skipn_skipn. f_equal. lia.
Qed.

Lemma spans_text content ms : forall from,
  spans_ok content from ms ->
  concat (map span_text (spans_from content from ms)) = skipn from content.
Proof.
  induction ms as [|m ms IH]; intros from H; simpl in *.
  - destruct (from <? length content) eqn:E; simpl.
    + apply app_nil_r.
    + apply Nat.ltb_ge in E. symmetry. apply skipn_all2. exact E.
  - destruct H as (H1 & H2 & H3 & H4 & H5).
    rewrite map_app, concat_app. simpl. rewrite (IH _ H5), H4.
    rewrite (slice_skipn content H2 H3).
    destruct (from <? m_start m) eqn:E; simpl.
    + rewrite app_nil_r. apply slice_skipn; lia.
    + apply Nat.ltb_ge in E. f_equal. lia.
Qed.

Lemma avoid_fold content f ms : forall parts last_end,
  (let '(parts', last') := fold_left (avoid_step content f) ms (parts, last_end) in
   concat (if last' <? length content
           then parts' ++ [f (skipn last' content)] else parts'))
  = concat parts ++ concat (map (span_out f) (spans_from content last_end ms)).
Proof.
  induction ms as [|m ms IH]; intros parts last_end; simpl.
  - destruct (last_end <? length content); simpl.
    + rewrite concat_app. reflexivity.
    + rewrite app_nil_r. reflexivity.
  - rewrite IH. rewrite map_app, !concat_app. simpl.
    destruct (last_end <? m_start m); simpl;
      rewrite ?concat_app; simpl; rewrite ?app_nil_r, <- ?app_assoc; reflexivity.
Qed.

Lemma avoid_as_spans content f flag :
  avoid_process_code_blocks content f flag
  = concat (map (span_out f) (spans flag content)).
Proof.
  unfold avoid_process_code_blocks, spans.
  apply (avoid_fold content f _ [] 0).
Qed.

Lemma spans_codes content ms : forall from,
  map span_text (filter is_code (spans_from content from ms)) = map m_text ms.
Proof.
  induction ms as [|m ms IH]; intros from; simpl.
  - destruct (from <? length content); reflexivity.
  - destruct (from <? m_start m); simpl; rewrite IH; reflexivity.
Qed.

Lemma spans_gaps_maximal content ms : forall from,
  gaps_maximal (spans_from content from ms).
Proof.
  induction ms as [|m ms IH]; intros from; simpl.
  - destruct (from <? length content); simpl; exact I.
  - destruct (from <? m_start m); simpl; apply IH.
Qed.

Lemma slice_nonempty (s : str) a b :
  a < b -> b <= length s -> slice s a b <> [].
Proof.
  intros Hab Hb E. apply (f_equal (@length char)) in E.
  unfold slice in E. rewrite length_firstn, length_skipn in E. simpl in E. lia.
Qed.

Lemma spans_prose_nonempty content ms : forall from,
  spans_ok content from ms ->
  Forall (fun x => is_code x = false -> span_text x <> [])
    (spans_from content from ms).
Proof.
  induction ms as [|m ms IH]; intros from H; simpl in *.
  - destruct (from <? length content) eqn:E; constructor; [|constructor].
    intros _ E'. apply Nat.ltb_lt in E.
    apply (f_equal (@length char)) in E'. simpl in E'.
    rewrite length_skipn in E'. lia.
  - destruct H as (H1 & H2 & H3 & H4 & H5).
    apply Forall_app. split.
    + destruct (from <? m_start m) eqn:E; constructor; [|constructor].
      intros _. apply Nat.ltb_lt in E. apply slice_nonempty; lia.
    + constructor; [discriminate|]. apply IH. exact H5.
Qed.

(** ** The code-block-aware rewriter *)

(** C1: with the identity transform the rewriter returns the document
    unchanged, whatever the document (empty, all code, mixed) and for both
    values of [avoid_inline_code]. *)
Theorem identity_round_trip (s : str) (avoid_inline_code : bool) :
  avoid_process_code_blocks s (fun t => t) avoid_inline_code = s.
Proof.
  rewrite avoid_as_spans. unfold spans.
  rewrite (map_ext (span_out (fun t => t)) span_text).
  - apply (spans_text s _ 0). apply finditer_spans_ok.
  - intros [t|t]; reflexivity.
Qed.

(** C2: the output is the concatenation, in the original order, of the
    transform applied to each gap and of the code-block matches copied as
    they are.  The spans cut the document in order ([concat] of their texts
    is the document), the CODE spans are exactly the matches of the
    code-block pattern in order, every gap is non-empty and maximal, and the
    output maps the transform over the gaps only. *)
Theorem output_is_gaps_and_blocks (s : str) (f : str -> str) (flag : bool) :
  let xs := spans flag s in
  avoid_process_code_blocks s f flag = concat (map (span_out f) xs)
  /\ concat (map span_text xs) = s
  /\ map span_text (filter is_code xs)
     = map m_text (finditer (code_block_pattern flag) s)
  /\ Forall (fun x => is_code x = false -> span_text x <> []) xs
  /\ gaps_maximal xs.
Proof.
  cbv zeta. unfold spans.
  pose proof (finditer_spans_ok (code_block_pattern flag) s) as Hok.
  split; [apply avoid_as_spans|].
  split; [apply (spans_text s _ 0 Hok)|].
  split; [apply spans_codes|].
  split; [apply (spans_prose_nonempty s _ 0 Hok)|].
  apply spans_gaps_maximal.
Qed.

(** ** The filename normalizer *)

Lemma rep_greedy_run0 R p (h : str -> R) s : forall prev,
  rep true p 0 None prev s (fun _ s' => Some (h s')) = Some (h (skipn (run p s) s)).
Proof.
  induction s as [|c s IH]; intros prev; rewrite rep_eq; cbv zeta.
  - reflexivity.
  - simpl. destruct (p c); simpl.
    + rewrite IH. reflexivity.
    + reflexivity.
Qed.

Lemma rep_greedy_run1 R p (h : str -> R) s prev :
  rep true p 1 None prev s (fun _ s' => Some (h s'))
  = match run p s with
    | 0 => None
    | S _ => Some (h (skipn (run p s) s))
    end.
Proof.
  rewrite rep_eq; cbv zeta. destruct s as [|c s]; simpl.
  - reflexivity.
  - destruct (p c); simpl.
    + rewrite rep_greedy_run0. reflexivity.
    + reflexivity.
Qed.

Lemma run_le p s : run p s <= length s.
Proof. induction s as [|c s IH]; simpl; [lia|]. destruct (p c); simpl; lia. Qed.


Section NormalizerFacts.
Context {U : Unicode}.

Lemma match_at_separators prev s :
  match_at separators prev s false
  = match run is_separator s with
    | 0 => None
    | S l => Some (S l, [])
    end.
Proof.
  unfold match_at, separators. simpl mtch.
  rewrite (rep_greedy_run1 is_separator (fun s' => (length s - length s', @nil (nat * str)))).
  pose proof (run_le is_separator s) as Hle.
  destruct (run is_separator s) as [|l] eqn:E; [reflexivity|].
  rewrite length_skipn. do 2 f_equal. lia.
Qed.

Lemma sub_separators s : forall prev pos,
  out (fun _ => lit "-") (scan separators prev s pos 0) = collapse false s
  /\ out (fun _ => lit "-") (scan separators prev s pos (run is_separator s))
     = collapse true s.
Proof.
  induction s as [|c s IH]; intros prev pos.
  - cbn [scan run]. rewrite match_at_separators. simpl. split; reflexivity.
  - assert (Ha : out (fun _ => lit "-") (scan separators prev (c :: s) pos 0)
                 = collapse false (c :: s)).
    { cbn [scan]. rewrite match_at_separators. simpl run. simpl collapse.
      destruct (is_separator c) eqn:E.
      - unfold out. cbn [map concat render hit]. 
        destruct (IH (Some c) (S pos)) as [_ Hb]. unfold out in Hb.
        simpl app. rewrite Hb. reflexivity.
      - unfold out. cbn [map concat render app].
        destruct (IH (Some c) (S pos)) as [Ha _]. unfold out in Ha.
        simpl. rewrite Ha. reflexivity. }
    split; [exact Ha|].
    simpl run. destruct (is_separator c) eqn:E.
    + cbn [scan]. simpl app. simpl collapse. rewrite E.
      apply (IH (Some c) (S pos)).
    + rewrite Ha. simpl. rewrite E. reflexivity.
Qed.

Lemma re_sub_separators s :
  re_sub separators (fun _ => lit "-") s = collapse false s.
Proof. apply (sub_separators s None 0). Qed.

Lemma match_at_special prev s :
  match_at special prev s false
  = match s with
    | c :: _ => if is_special c then Some (1, []) else None
    | [] => None
    end.
Proof.
  unfold match_at, special. cbn [mtch]. destruct s as [|c s]; [reflexivity|].
  destruct (is_special c); [|reflexivity].
  cbn [andb]. do 2 f_equal. simpl length. lia.
Qed.

Lemma sub_special s : forall prev pos,
  out (fun _ => []) (scan special prev s pos 0)
  = filter (fun c => negb (is_special c)) s.
Proof.
  induction s as [|c s IH]; intros prev pos.
  - cbn [scan]. rewrite match_at_special. reflexivity.
  - cbn [scan]. rewrite match_at_special. simpl filter.
    destruct (is_special c); simpl.
    + apply IH.
    + unfold out in *. simpl. rewrite IH. reflexivity.
Qed.

Lemma re_sub_special s :
  re_sub special (fun _ => []) s = filter (fun c => negb (is_special c)) s.
Proof. apply (sub_special s None 0). Qed.

Lemma converted_eq title :
  converted title
  = lower (filter (fun c => negb (is_special c)) (collapse false title)).
Proof. unfold converted. rewrite re_sub_separators, re_sub_special. reflexivity. Qed.

Ltac crunch :=
  repeat match goal with
  | |- context [(?a <=? ?b)%N] => destruct (N.leb_spec a b)
  | |- context [(?a <? ?b)%N] => destruct (N.ltb_spec a b)
  | |- context [(?a =? ?b)%N] => destruct (N.eqb_spec a b)
  | H : context [(?a <=? ?b)%N] |- _ => destruct (N.leb_spec a b)
  | H : context [(?a <? ?b)%N] |- _ => destruct (N.ltb_spec a b)
  | H : context [(?a =? ?b)%N] |- _ => destruct (N.eqb_spec a b)
  end; simpl in *; try discriminate; try reflexivity; try lia.

Lemma hyphen_lower before after : lower_char before 45%N after = [45%N].
Proof. reflexivity. Qed.

Lemma hyphen_not_special : is_special 45%N = false.
Proof. unfold is_special. rewrite orb_true_r. reflexivity. Qed.

Lemma ascii_settled c :
  is_ascii c = true -> isalnum c = true -> settled (ascii_lower c).
Proof.
  intros Ha Hn. unfold isalnum in Hn. rewrite Ha in Hn.
  assert (Hl : is_ascii (ascii_lower c) = true).
  { revert Ha Hn. unfold is_ascii, ascii_lower, ascii_isalnum, ascii_isdigit,
      ascii_isupper, ascii_islower, in_range. intros. crunch. }
  unfold settled, is_word, isalnum, isspace, lower_char. rewrite Hl.
  revert Ha Hn. unfold is_ascii, ascii_lower, ascii_isalnum, ascii_isspace, ascii_isdigit,
      ascii_isupper, ascii_islower, in_range, char_eqb. intros Ha Hn.
  repeat split.
  - crunch.
  - crunch.
  - crunch.
  - intros _ _. f_equal. crunch.
Qed.

Lemma settled_not_separator d : settled d -> is_separator d = false.
Proof.
  intros (Hw & Hu & Hs & _). unfold is_separator. rewrite Hs. simpl.
  unfold char_eqb. destruct (N.eqb_spec d 95); [contradiction|].
  destruct (N.eqb_spec d 45); [|reflexivity].
  subst d. discriminate Hw.
Qed.

Lemma settled_not_special d : settled d -> is_special d = false.
Proof. intros (Hw & _). unfold is_special. rewrite Hw. reflexivity. Qed.

Lemma collapse_chars s : forall in_run d,
  In d (collapse in_run s) -> d = 45%N \/ (In d s /\ is_separator d = false).
Proof.
  induction s as [|c s IH]; intros in_run d H; simpl in H; [contradiction|].
  destruct (is_separator c) eqn:E.
  - destruct in_run.
    + apply IH in H. destruct H as [H|[H1 H2]]; [left|right; split]; auto. right; auto.
    + destruct H as [H|H]; [left; auto|].
      apply IH in H. destruct H as [H|[H1 H2]]; [left|right; split]; auto. right; auto.
  - destruct H as [H|H].
    + subst d. right. split; [left; reflexivity|exact E].
    + apply IH in H. destruct H as [H|[H1 H2]]; [left|right; split]; auto. right; auto.
Qed.

Lemma lower_from_in s : forall before_rev e,
  In e (lower_from before_rev s) ->
  exists c before after, In c s /\ In e (lower_char before c after).
Proof.
  induction s as [|c s IH]; intros br e H; simpl in H; [contradiction|].
  apply in_app_or in H. destruct H as [H|H].
  - exists c, (rev br), s. split; [left; reflexivity|exact H].
  - apply IH in H. destruct H as (c' & b & a & H1 & H2).
    exists c', b, a. split; [right; exact H1|exact H2].
Qed.

Lemma lower_from_fixed s : forall before_rev,
  (forall c, In c s -> forall before after, lower_char before c after = [c]) ->
  lower_from before_rev s = s.
Proof.
  induction s as [|c s IH]; intros br H; simpl; [reflexivity|].
  rewrite (H c (or_introl eq_refl)). simpl. f_equal.
  apply IH. intros d Hd. apply H. right. exact Hd.
Qed.

Lemma not_separator_special_alnum d :
  is_separator d = false -> is_special d = false -> isalnum d = true.
Proof.
  unfold is_separator, is_special, is_word. intros H1 H2.
  apply orb_false_iff in H1. destruct H1 as [H1 H1u].
  apply orb_false_iff in H1. destruct H1 as [_ H1h].
  rewrite H1u, H1h in H2. rewrite !orb_false_r in H2.
  apply negb_false_iff in H2. exact H2.
Qed.

(** The characters of a normalized title. *)
Lemma converted_chars title :
  tame_title title ->
  Forall (fun d => d = 45%N \/ settled d) (converted title).
Proof.
  intros Ht. rewrite converted_eq. apply Forall_forall. intros e He.
  apply lower_from_in in He. destruct He as (c & b & a & Hc & He).
  apply filter_In in Hc. destruct Hc as [Hc Hk].
  apply negb_true_iff in Hk.
  apply collapse_chars in Hc. destruct Hc as [Hc|[Hc Hsep]].
  - subst c. rewrite hyphen_lower in He. destruct He as [He|[]]. left. auto.
  - right. pose proof (not_separator_special_alnum _ Hsep Hk) as Hn.
    unfold lower_char in He. destruct (is_ascii c) eqn:Ea.
    + destruct He as [He|[]]. subst e. apply ascii_settled; assumption.
    + pose proof (Ht c Hc Ea Hn b a) as Hf. unfold lower_char in Hf.
      rewrite Ea in Hf. rewrite Forall_forall in Hf. apply Hf. exact He.
Qed.

Lemma collapse_fixed s :
  Forall (fun d => d = 45%N \/ is_separator d = false) s ->
  no_adjacent_hyphens s ->
  collapse false s = s
  /\ (match s with d :: _ => d <> 45%N | [] => True end -> collapse true s = s).
Proof.
  induction s as [|c s IH]; intros Hf Hn; [split; reflexivity|].
  inversion Hf as [|? ? Hc Hf']; subst.
  assert (Hn' : no_adjacent_hyphens s).
  { destruct s; [exact I|]. simpl in Hn. apply Hn. }
  destruct (IH Hf' Hn') as [IHa IHb].
  simpl. destruct (is_separator c) eqn:E.
  - destruct Hc as [Hc|Hc]; [|congruence]. subst c. split.
    + f_equal. apply IHb. destruct s as [|d s]; [exact I|].
      simpl in Hn. intros Hd. apply (proj1 Hn). split; [reflexivity|exact Hd].
    + intros Hd. exfalso. apply Hd. reflexivity.
  - split; [|intros _]; f_equal; exact IHa.
Qed.

Lemma filter_fixed (p : char -> bool) s :
  Forall (fun d => p d = true) s -> filter p s = s.
Proof.
  induction 1 as [|c s Hc _ IH]; simpl; [reflexivity|]. rewrite Hc, IH. reflexivity.
Qed.

(** A normalized name without two hyphens in a row is normalized to itself. *)
Lemma converted_fixed name :
  Forall (fun d => d = 45%N \/ settled d) name ->
  no_adjacent_hyphens name ->
  converted name = name.
Proof.
  intros Hf Hn. rewrite converted_eq.
  assert (H1 : collapse false name = name).
  { apply collapse_fixed; [|exact Hn].
    eapply Forall_impl; [|exact Hf]. intros d [Hd|Hd]; [left; exact Hd|right].
    apply settled_not_separator. exact Hd. }
  rewrite H1.
  assert (H2 : filter (fun c => negb (is_special c)) name = name).
  { apply filter_fixed. eapply Forall_impl; [|exact Hf].
    intros d [Hd|Hd]; apply negb_true_iff.
    - subst d. apply hyphen_not_special.
    - apply settled_not_special. exact Hd. }
  rewrite H2. unfold lower. apply lower_from_fixed.
  intros c Hc b a. rewrite Forall_forall in Hf. destruct (Hf c Hc) as [Hd|Hd].
  - subst c. apply hyphen_lower.
  - apply Hd.
Qed.

Lemma title2filename_returned title w name :
  returned (title2filename title) w = Ok name <->
  name = converted title /\ length (converted title) <= 255.
Proof.
  unfold returned, title2filename, bind, print, ret, raise. simpl.
  destruct (255 <? length (converted title)) eqn:E1; simpl.
  - apply Nat.ltb_lt in E1. split; [discriminate|]. intros [_ H]. lia.
  - apply Nat.ltb_ge in E1.
    destruct (64 <? length (converted title)); simpl;
      (split; [intros H; inversion H; auto|intros [H _]; subst; reflexivity]).
Qed.

Lemma collapse_length s : forall in_run, length (collapse in_run s) <= length s.
Proof.
  induction s as [|c s IH]; intros in_run; simpl; [lia|].
  destruct (is_separator c).
  - destruct in_run; simpl; specialize (IH true); lia.
  - simpl. specialize (IH false). lia.
Qed.

Lemma hyphen_separator : is_separator 45%N = true.
Proof. reflexivity. Qed.

Lemma collapse_shrinks s : forall in_run,
  ~ no_adjacent_hyphens s -> length (collapse in_run s) < length s.
Proof.
  induction s as [|a s IH]; intros in_run H; [exfalso; apply H; exact I|].
  destruct s as [|b s]; [exfalso; apply H; exact I|].
  destruct (N.eq_dec a 45) as [Ea|Ea]; [destruct (N.eq_dec b 45) as [Eb|Eb]|].
  - subst a b. cbn [collapse]. rewrite hyphen_separator.
    pose proof (collapse_length s true) as Hl.
    destruct in_run; simpl length; lia.
  - assert (H' : ~ no_adjacent_hyphens (b :: s)).
    { intros Hn. apply H. split; [|exact Hn]. intros [_ Hb]. contradiction. }
    change (collapse in_run (a :: b :: s))
      with (if is_separator a
            then (if in_run then collapse true (b :: s) else 45%N :: collapse true (b :: s))
            else a :: collapse false (b :: s)).
    pose proof (IH true H'). pose proof (IH false H').
    destruct (is_separator a); [destruct in_run|]; simpl length in *; lia.
  - assert (H' : ~ no_adjacent_hyphens (b :: s)).
    { intros Hn. apply H. split; [|exact Hn]. intros [Ha _]. contradiction. }
    change (collapse in_run (a :: b :: s))
      with (if is_separator a
            then (if in_run then collapse true (b :: s) else 45%N :: collapse true (b :: s))
            else a :: collapse false (b :: s)).
    pose proof (IH true H'). pose proof (IH false H').
    destruct (is_separator a); [destruct in_run|]; simpl length in *; lia.
Qed.

Lemma filter_length_le (p : char -> bool) s : length (filter p s) <= length s.
Proof. induction s as [|c s IH]; simpl; [lia|]. destruct (p c); simpl; lia. Qed.

(** A normalized name with two hyphens in a row is normalized to a shorter
    name. *)
Lemma converted_shorter (name : str) :
  Forall (fun d => d = 45%N \/ settled d) name ->
  ~ no_adjacent_hyphens name ->
  length (converted name) < length name.
Proof.
  intros Hf Hn. rewrite converted_eq. unfold lower.
  rewrite lower_from_fixed.
  - pose proof (filter_length_le (fun c => negb (is_special c)) (collapse false name)).
    pose proof (@collapse_shrinks name false Hn). lia.
  - intros c Hc b a. apply filter_In in Hc. destruct Hc as [Hc _].
    apply collapse_chars in Hc. rewrite Forall_forall in Hf.
    destruct Hc as [Hc|[Hc _]].
    + subst c. apply hyphen_lower.
    + destruct (Hf c Hc) as [Hd|Hd]; [subst c; apply hyphen_lower|apply Hd].
Qed.

(** C3, amended: when the letters of the title outside ASCII have settled
    lower-case forms, running the normalizer on its own output gives the
    same output exactly when that output has no two hyphens in a row. *)
Theorem title2filename_idempotent_iff_no_double_hyphen
    (title name : str) (w w' : world) :
  tame_title title ->
  returned (title2filename title) w = Ok name ->
  (returned (title2filename name) w' = Ok name <-> no_adjacent_hyphens name).
Proof.
  intros Ht Hr. apply title2filename_returned in Hr. destruct Hr as [-> Hlen].
  pose proof (converted_chars Ht) as Hc. split.
  - intros H. apply title2filename_returned in H. destruct H as [H _].
    assert (Hdec : forall s, no_adjacent_hyphens s \/ ~ no_adjacent_hyphens s).
    { clear. induction s as [|a s IH]; [left; exact I|].
      destruct s as [|b s]; [left; exact I|].
      destruct IH as [IH|IH].
      - destruct (N.eq_dec a 45) as [Ea|Ea]; [destruct (N.eq_dec b 45) as [Eb|Eb]|].
        + right. intros [Hn _]. apply Hn. split; assumption.
        + left. split; [intros [_ Hb]; contradiction|exact IH].
        + left. split; [intros [Ha _]; contradiction|exact IH].
      - right. intros [_ Hn]. contradiction. }
    destruct (Hdec (converted title)) as [Hn|Hn]; [exact Hn|].
    pose proof (converted_shorter Hc Hn) as Hs. rewrite <- H in Hs. lia.
  - intros Hn. apply title2filename_returned.
    rewrite (converted_fixed Hc Hn). split; [reflexivity|exact Hlen].
Qed.

Lemma printed_app A (m : M A) w lines r :
  m w = (mk_world (w_fs w) (w_out w ++ lines), r) -> printed m w = lines.
Proof.
  intros H. unfold printed. rewrite H. simpl.
  rewrite skipn_app, skipn_all, Nat.sub_diag. reflexivity.
Qed.

(** C4: a normalized form of at most 64 characters is returned without a
  warning; one of 65 to 255 characters is returned after exactly one
  warning; one of more than 255 characters raises the length error
  ([ValueError]) and nothing is returned. *)
Theorem title2filename_length_cases (title : str) (w : world) :
  let filename := converted title in
  let run := title2filename title in
  (length filename <= 64 ->
     returned run w = Ok filename /\ warnings (printed run w) = 0)
  /\ (64 < length filename <= 255 ->
     returned run w = Ok filename /\ warnings (printed run w) = 1)
  /\ (255 < length filename ->
     (exists args, returned run w = Raise (mk_exn ValueError args))
     /\ warnings (printed run w) = 0).
Proof.
  cbv zeta. unfold returned.
  split; [|split]; intros H.
  - assert (E1 : (255 <? length (converted title)) = false) by (apply Nat.ltb_ge; lia).
    assert (E2 : (64 <? length (converted title)) = false) by (apply Nat.ltb_ge; lia).
    erewrite printed_app.
    2:{ unfold title2filename, bind, print, ret. rewrite E1, E2. simpl.
        rewrite <- app_assoc. reflexivity. }
    unfold title2filename, bind, print, ret. rewrite E1, E2. simpl. split; reflexivity.
  - assert (E1 : (255 <? length (converted title)) = false) by (apply Nat.ltb_ge; lia).
    assert (E2 : (64 <? length (converted title)) = true) by (apply Nat.ltb_lt; lia).
    erewrite printed_app.
    2:{ unfold title2filename, bind, print, ret. rewrite E1, E2. simpl.
        rewrite <- !app_assoc. reflexivity. }
    unfold title2filename, bind, print, ret. rewrite E1, E2. simpl. split; reflexivity.
  - assert (E1 : (255 <? length (converted title)) = true) by (apply Nat.ltb_lt; lia).
    erewrite printed_app.
    2:{ unfold title2filename, bind, print, ret, raise. rewrite E1. simpl. reflexivity. }
    unfold title2filename, bind, print, ret, raise. rewrite E1. simpl. split; [eauto|reflexivity].
Qed.

End NormalizerFacts.

(** C3: the claim fails at the title [Tom & Jerry]: it is normalized to
    [tom--jerry], and [tom--jerry] is normalized to [tom-jerry]. *)
Lemma title2filename_not_idempotent :
  returned (title2filename (U := unicode_excerpt) (lit "Tom & Jerry")) empty_world
    = Ok (lit "tom--jerry")
  /\ returned (title2filename (U := unicode_excerpt) (lit "tom--jerry")) empty_world
    = Ok (lit "tom-jerry").
Proof. split; vm_compute; reflexivity. Qed.

Lemma ascii_title_tame {U : Unicode} (title : str) :
  forallb is_ascii title = true -> tame_title title.
Proof.
  intros H c Hc Ha. rewrite forallb_forall in H. rewrite (H c Hc) in Ha. discriminate.
Qed.

Lemma sample_title_tame :
  tame_title (U := unicode_excerpt) (lit "Hello World " ++ [20320%N; 22909%N]).
Proof.
  intros c Hc Ha _ before after.
  simpl in Hc.
  repeat (destruct Hc as [Hc|Hc];
          [subst c; first [discriminate Ha
                          |repeat constructor; try reflexivity; discriminate]|]).
  contradiction.
Qed.

Lemma title2filename_idempotent_witness :
  returned (title2filename (U := unicode_excerpt)
              (lit "hello-world-" ++ [20320%N; 22909%N])) empty_world
  = Ok (lit "hello-world-" ++ [20320%N; 22909%N]).
Proof.
  apply (proj2 (@title2filename_idempotent_iff_no_double_hyphen unicode_excerpt
                  (lit "Hello World " ++ [20320%N; 22909%N])
                  (lit "hello-world-" ++ [20320%N; 22909%N]) empty_world empty_world
                  sample_title_tame eq_refl)).
  simpl. repeat split; intros [H1 H2]; discriminate.
Defined.

Lemma title2filename_length_cases_witness :
  (returned (title2filename (U := unicode_excerpt) (lit "Hello World")) empty_world
     = Ok (converted (U := unicode_excerpt) (lit "Hello World"))
   /\ warnings (printed (title2filename (U := unicode_excerpt) (lit "Hello World")) empty_world) = 0)
  /\ (returned (title2filename (U := unicode_excerpt) (repeat 97%N 65)) empty_world
     = Ok (converted (U := unicode_excerpt) (repeat 97%N 65))
   /\ warnings (printed (title2filename (U := unicode_excerpt) (repeat 97%N 65)) empty_world) = 1)
  /\ ((exists args, returned (title2filename (U := unicode_excerpt) (repeat 97%N 256)) empty_world
         = Raise (mk_exn ValueError args))
   /\ warnings (printed (title2filename (U := unicode_excerpt) (repeat 97%N 256)) empty_world) = 0).
Proof.
  split; [|split].
  - apply (proj1 (title2filename_length_cases (U := unicode_excerpt) (lit "Hello World") empty_world)).
    vm_compute. lia.
  - apply (proj1 (proj2 (title2filename_length_cases (U := unicode_excerpt) (repeat 97%N 65) empty_world))).
    vm_compute. lia.
  - apply (proj2 (proj2 (title2filename_length_cases (U := unicode_excerpt) (repeat 97%N 256) empty_world))).
    vm_compute. lia.
Defined.

Section FilenameCharacters.
Context {U : Unicode}.

Lemma settled_not_upper d : settled d -> ascii_isupper d = false.
Proof.
  intros (_ & _ & _ & Hl). specialize (Hl [] []). unfold lower_char in Hl.
  destruct (is_ascii d) eqn:Ea.
  - assert (H : ascii_lower d = d) by congruence. unfold ascii_lower in H.
    destruct (ascii_isupper d); [|reflexivity]. lia.
  - unfold is_ascii in Ea. apply N.ltb_ge in Ea.
    unfold ascii_isupper, in_range. 
    destruct (N.leb_spec d 90); [lia|]. apply andb_false_r.
Qed.

(** C10, amended: when the letters of the title outside ASCII have settled
  lower-case forms (every ASCII title qualifies), the filename returned
  consists of word characters other than the underscore and of hyphens;
  it holds no white space and no upper-case ASCII letter. *)
Theorem filename_characters (title name : str) (w : world) :
  tame_title title ->
  returned (title2filename title) w = Ok name ->
  Forall (fun d => (is_word d = true /\ d <> 95%N \/ d = 45%N)
                   /\ isspace d = false
                   /\ ascii_isupper d = false) name.
Proof.
  intros Ht Hr. apply title2filename_returned in Hr. destruct Hr as [-> _].
  eapply Forall_impl; [|apply (converted_chars Ht)].
  intros d [Hd|Hd].
  - subst d. repeat split; try reflexivity. right. reflexivity.
  - split; [left; split; apply Hd|]. split; [apply Hd|].
    apply settled_not_upper. exact Hd.
Qed.
End FilenameCharacters.

(** C10: the claim fails at the title made of the dotted capital I
    (U+0130): it is a letter, so it is kept, and its lower-case form is [i]
    followed by the combining dot above (U+0307), which is not a word
    character. *)
Lemma filename_with_combining_dot :
  returned (title2filename (U := unicode_excerpt) [304%N]) empty_world
    = Ok [105%N; 775%N]
  /\ is_word (U := unicode_excerpt) 775%N = false
  /\ 775%N <> 45%N.
Proof. split; [|split]; [vm_compute; reflexivity|vm_compute; reflexivity|discriminate]. Qed.

Lemma filename_characters_witness :
  Forall (fun d => (is_word (U := unicode_excerpt) d = true /\ d <> 95%N \/ d = 45%N)
                   /\ isspace (U := unicode_excerpt) d = false
                   /\ ascii_isupper d = false)
    (lit "hello-world-" ++ [20320%N; 22909%N]).
Proof.
  apply (@filename_characters unicode_excerpt
           (lit "Hello World " ++ [20320%N; 22909%N])
           (lit "hello-world-" ++ [20320%N; 22909%N]) empty_world).
  - exact sample_title_tame.
  - vm_compute. reflexivity.
Defined.

(** ** Stepping the matcher through a text *)

Lemma strip_prefix_app l s : strip_prefix l (l ++ s) = Some s.
Proof.
  induction l as [|c l IH]; simpl; [reflexivity|].
  unfold char_eqb. rewrite N.eqb_refl. exact IH.
Qed.

Lemma firstn_captured (l rest : str) :
  firstn (length (l ++ rest) - length rest) (l ++ rest) = l.
Proof.
  rewrite length_app. replace (length l + length rest - length rest) with (length l) by lia.
  rewrite firstn_app, Nat.sub_diag, firstn_all. simpl. apply app_nil_r.
Qed.

(** A lazy repetition stops at the first place where the rest of the
    pattern matches. *)
Lemma rep_lazy_found R p (k : option char -> str -> option R) l : forall prev rest x,
  Forall (fun c => p c = true) l ->
  (forall pv l1 c l2, l = l1 ++ c :: l2 -> k pv (c :: l2 ++ rest) = None) ->
  (forall pv, k pv rest = Some x) ->
  rep false p 0 None prev (l ++ rest) k = Some x.
Proof.
  induction l as [|c l IH]; intros prev rest x Hp Hfail Hk; rewrite rep_eq; cbv zeta.
  - simpl app. rewrite Hk. reflexivity.
  - simpl app. rewrite (Hfail prev [] c l eq_refl). simpl orelse.
    inversion Hp as [|? ? Hc Hp']; subst. rewrite Hc. simpl.
    apply IH; [exact Hp'| |exact Hk].
    intros pv l1 d l2 E. apply (Hfail pv (c :: l1) d l2). rewrite E. reflexivity.
Qed.

(** A greedy repetition takes the whole run when the rest of the pattern
    matches after it. *)
Lemma rep_greedy_found R p (k : option char -> str -> option R) l : forall prev lo rest x,
  Forall (fun c => p c = true) l ->
  lo <= length l ->
  match rest with c :: _ => p c = false | [] => True end ->
  (forall pv, k pv rest = Some x) ->
  rep true p lo None prev (l ++ rest) k = Some x.
Proof.
  induction l as [|c l IH]; intros prev lo rest x Hp Hlo Hrest Hk; rewrite rep_eq; cbv zeta.
  - simpl in Hlo. assert (lo = 0) by lia. subst lo. simpl app.
    destruct rest as [|c rest]; simpl.
    + apply Hk.
    + rewrite Hrest. simpl. apply Hk.
  - simpl app. inversion Hp as [|? ? Hc Hp']; subst. rewrite Hc. cbn [andb room less].
    rewrite (IH (Some c) (pred lo) rest x Hp'); [reflexivity| |exact Hrest|exact Hk].
    simpl in Hlo. lia.
Qed.

(** ** Stepping the scanner through a text *)

(** Every match of [r] begins with the character [a]. *)
Definition begins_with (r : regex) (a : char) : Prop :=
  forall prev s adv, match_at r prev s adv <> None -> exists s', s = a :: s'.

Lemma begins_with_lit a l r : begins_with (Seq (Lit (a :: l)) r) a.
Proof.
  intros prev s adv H. unfold match_at in H. simpl in H.
  destruct s as [|d s]; [congruence|].
  unfold char_eqb in H. destruct (N.eqb_spec a d); [subst; eauto|congruence].
Qed.

Lemma begins_with_none r a prev s adv :
  begins_with r a ->
  match s with c :: _ => c <> a | [] => True end ->
  match_at r prev s adv = None.
Proof.
  intros Hb Hs. destruct (match_at r prev s adv) eqn:E; [|reflexivity].
  destruct (Hb prev s adv) as [s' ->]; [congruence|]. contradiction.
Qed.

Lemma scan_nil r a prev pos : begins_with r a -> scan r prev [] pos 0 = [].
Proof.
  intros Hb. cbn [scan]. rewrite (begins_with_none prev [] false Hb I). reflexivity.
Qed.

Lemma scan_copy r a gap : forall prev pos s,
  begins_with r a ->
  Forall (fun c => c <> a) gap ->
  exists prev' pos',
    scan r prev (gap ++ s) pos 0 = map Copy gap ++ scan r prev' s pos' 0.
Proof.
  induction gap as [|c gap IH]; intros prev pos s Hb Hg.
  - exists prev, pos. reflexivity.
  - inversion Hg as [|? ? Hc Hg']; subst.
    destruct (IH (Some c) (S pos) s Hb Hg') as (prev' & pos' & E).
    exists prev', pos'. simpl app. cbn [scan].
    rewrite (begins_with_none prev (c :: gap ++ s) false Hb Hc).
    simpl. rewrite E. reflexivity.
Qed.

Lemma scan_skip r s : forall prev pos skip,
  skip <= length s ->
  exists prev', scan r prev s pos skip = scan r prev' (skipn skip s) (pos + skip) 0.
Proof.
  induction s as [|c s IH]; intros prev pos skip H.
  - simpl in H. assert (skip = 0) by lia. subst. exists prev. rewrite Nat.add_0_r. reflexivity.
  - destruct skip as [|k].
    + exists prev. rewrite Nat.add_0_r. reflexivity.
    + simpl in H. destruct (IH (Some c) (S pos) k) as (prev' & E); [lia|].
      exists prev'. cbn [scan]. simpl app. rewrite E. simpl skipn. f_equal. lia.
Qed.

Lemma scan_hit r prev pos (m rest : str) g :
  m <> [] ->
  match_at r prev (m ++ rest) false = Some (length m, g) ->
  exists prev' pos',
    scan r prev (m ++ rest) pos 0
    = Hit (mk_match pos (pos + length m) m g) :: scan r prev' rest pos' 0.
Proof.
  intros Hm E. destruct m as [|c m]; [congruence|].
  simpl length in *. simpl app in *. cbn [scan]. rewrite E.
  destruct (@scan_skip r (m ++ rest) (Some c) (S pos) (length m)) as (prev' & Es).
  { rewrite length_app. lia. }
  exists prev', (S pos + length m). simpl app. rewrite Es.
  unfold hit. rewrite skipn_app, skipn_all, Nat.sub_diag. simpl skipn. simpl app.
  do 3 f_equal. change (c :: m ++ rest) with ((c :: m) ++ rest).
  change (S (length m)) with (length (c :: m)).
  rewrite firstn_app, Nat.sub_diag, firstn_all. simpl. rewrite app_nil_r. reflexivity.
Qed.


Lemma mtch_lit R l r prev s g (k : option char -> str -> caps -> option R) :
  mtch (Seq (Lit l) r) prev (l ++ s) g k = mtch r (last_char prev l) s g k.
Proof. cbn [mtch]. rewrite strip_prefix_app. reflexivity. Qed.

Lemma mtch_lit_end R l prev s g (k : option char -> str -> caps -> option R) :
  mtch (Lit l) prev (l ++ s) g k = k (last_char prev l) s g.
Proof. cbn [mtch]. rewrite strip_prefix_app. reflexivity. Qed.

Lemma mtch_lit_other R a l r prev s g (k : option char -> str -> caps -> option R) :
  match s with c :: _ => c <> a | [] => True end ->
  mtch (Seq (Lit (a :: l)) r) prev s g k = None.
Proof.
  intros H. cbn [mtch strip_prefix]. destruct s as [|c s]; [reflexivity|].
  unfold char_eqb. destruct (N.eqb_spec a c); [congruence|reflexivity].
Qed.

Lemma mtch_cls R (p : char -> bool) r prev c s g
    (k : option char -> str -> caps -> option R) :
  p c = true ->
  mtch (Seq (Cls p) r) prev (c :: s) g k = mtch r (Some c) s g k.
Proof. intros H. cbn [mtch]. rewrite H. reflexivity. Qed.

(** A lazy group stops at the first place where the rest of the pattern
    matches. *)
Lemma mtch_lazy_group R n p r l rest prev g x
    (k : option char -> str -> caps -> option R) :
  Forall (fun c => p c = true) l ->
  (forall pv l1 c l2 g', l = l1 ++ c :: l2 -> mtch r pv (c :: l2 ++ rest) g' k = None) ->
  (forall pv, mtch r pv rest ((n, l) :: g) k = Some x) ->
  mtch (Seq (Grp n (Rep false 0 None p)) r) prev (l ++ rest) g k = Some x.
Proof.
  intros Hp Hfail Hk. cbn [mtch].
  apply rep_lazy_found; [exact Hp| |].
  - intros pv l1 c l2 E. apply (Hfail pv l1 c l2 _ E).
  - intros pv. rewrite firstn_captured. apply Hk.
Qed.

(** The same for a lazy group of one character or more. *)
Lemma mtch_lazy_group1 R n p r c l rest prev g x
    (k : option char -> str -> caps -> option R) :
  Forall (fun c => p c = true) (c :: l) ->
  (forall pv l1 d l2 g', l = l1 ++ d :: l2 -> mtch r pv (d :: l2 ++ rest) g' k = None) ->
  (forall pv, mtch r pv rest ((n, c :: l) :: g) k = Some x) ->
  mtch (Seq (Grp n (Rep false 1 None p)) r) prev (c :: l ++ rest) g k = Some x.
Proof.
  intros Hp Hfail Hk. cbn [mtch]. rewrite rep_eq. cbv zeta. cbn [orelse].
  inversion Hp as [|? ? Hc Hp']; subst. rewrite Hc. cbn [andb room less pred].
  apply rep_lazy_found; [exact Hp'| |].
  - intros pv l1 d l2 E. apply (Hfail pv l1 d l2 _ E).
  - intros pv. change (c :: l ++ rest) with ((c :: l) ++ rest).
    rewrite firstn_captured. apply Hk.
Qed.

(** A greedy group takes the whole run when the rest of the pattern matches
    after it. *)
Lemma mtch_greedy_group R n p lo r l rest prev g x
    (k : option char -> str -> caps -> option R) :
  Forall (fun c => p c = true) l ->
  lo <= length l ->
  match rest with c :: _ => p c = false | [] => True end ->
  (forall pv, mtch r pv rest ((n, l) :: g) k = Some x) ->
  mtch (Seq (Grp n (Rep true lo None p)) r) prev (l ++ rest) g k = Some x.
Proof.
  intros Hp Hlo Hrest Hk. cbn [mtch].
  apply rep_greedy_found; [exact Hp|exact Hlo|exact Hrest|].
  intros pv. rewrite firstn_captured. apply Hk.
Qed.

Lemma Forall_not_char a (l : str) :
  Forall (fun c => c <> a) l -> Forall (fun c => not_char a c = true) l.
Proof.
  intros H. eapply Forall_impl; [|exact H]. intros c Hc. unfold not_char, char_eqb.
  destruct (N.eqb_spec c a); [congruence|reflexivity].
Qed.

Lemma Forall_any (l : str) : Forall (fun c => any_char c = true) l.
Proof. apply Forall_forall. reflexivity. Qed.

Lemma Forall_split (P : char -> Prop) l l1 c l2 :
  Forall P l -> l = l1 ++ c :: l2 -> P c /\ Forall P l2.
Proof.
  intros H E. subst l. apply Forall_app in H. destruct H as [_ H].
  inversion H; auto.
Qed.

Ltac norm_app := repeat (progress (rewrite <- ?app_assoc; cbn [app])).

(** ** Texts in which no match begins *)

Lemma lacks_cons p c s :
  lacks p (c :: s) = true -> strip_prefix p (c :: s) = None /\ lacks p s = true.
Proof.
  cbn [lacks]. destruct (strip_prefix p (c :: s)); [discriminate|]. auto.
Qed.

Lemma lacks_suffix p (x y : str) : lacks p (x ++ y) = true -> lacks p y = true.
Proof.
  induction x as [|c x IH]; intros H; [exact H|].
  apply IH. apply (lacks_cons p c (x ++ y) H).
Qed.

Lemma strip_prefix_app_some p : forall (s r t : str),
  strip_prefix p s = Some r -> strip_prefix p (s ++ t) = Some (r ++ t).
Proof.
  induction p as [|a p IH]; intros s r t H; cbn [strip_prefix] in *.
  - inversion H. reflexivity.
  - destruct s as [|c s]; [discriminate|]. cbn [app].
    destruct (char_eqb a c); [|discriminate]. apply IH. exact H.
Qed.

Lemma lacks_prefix p (x y : str) : lacks p (x ++ y) = true -> lacks p x = true.
Proof.
  induction x as [|c x IH]; intros H; [reflexivity|].
  cbn [app] in H. apply lacks_cons in H. destruct H as [H1 H2].
  cbn [lacks]. destruct (strip_prefix p (c :: x)) as [r|] eqn:E.
  - apply (strip_prefix_app_some _ _ y) in E. cbn [app] in E. congruence.
  - apply IH. exact H2.
Qed.

(** A block that ends with a character outside [p] separates what comes
    before it from what comes after. *)
Lemma strip_prefix_block p : forall (b : str) c (y y' : str),
  ~ In c p ->
  strip_prefix p (b ++ c :: y) = None -> strip_prefix p (b ++ c :: y') = None.
Proof.
  induction p as [|a p IH]; intros b c y y' Hc H; [discriminate|].
  destruct b as [|e b]; cbn [app strip_prefix] in *.
  - unfold char_eqb. destruct (N.eqb_spec a c) as [E|E]; [|reflexivity].
    exfalso. apply Hc. left. exact E.
  - destruct (char_eqb a e); [|reflexivity].
    apply (IH b c y y'); [|exact H]. intros Hin. apply Hc. right. exact Hin.
Qed.

Lemma lacks_block p (b : str) c (y y' : str) :
  ~ In c p ->
  lacks p (b ++ c :: y) = true -> lacks p y' = true -> lacks p (b ++ c :: y') = true.
Proof.
  intros Hc. induction b as [|e b IH]; intros H Hy'.
  - cbn [app] in *. apply lacks_cons in H. destruct H as [H _].
    pose proof (@strip_prefix_block p [] c y y' Hc H) as E. cbn [app] in E.
    cbn [lacks]. rewrite E. exact Hy'.
  - cbn [app] in *. apply lacks_cons in H. destruct H as [H1 H2].
    pose proof (@strip_prefix_block p (e :: b) c y y' Hc H1) as E. cbn [app] in E.
    cbn [lacks]. rewrite E. apply IH; assumption.
Qed.

Lemma strip_two_more (a b c e : char) (s t : str) :
  strip_prefix [a; b] (c :: e :: s) = None ->
  strip_prefix [a; b] (c :: e :: s ++ t) = None.
Proof.
  cbn [strip_prefix]. destruct (char_eqb a c), (char_eqb b e); intros H;
    try reflexivity; discriminate H.
Qed.

Lemma strip_two_other (a b c e : char) (t : str) :
  char_eqb b e = false -> strip_prefix [a; b] (c :: e :: t) = None.
Proof.
  intros H. cbn [strip_prefix]. rewrite H. destruct (char_eqb a c); reflexivity.
Qed.

Lemma strip_prefix_snoc p : forall (s : str) c,
  ~ In c p -> strip_prefix p s = None -> strip_prefix p (s ++ [c]) = None.
Proof.
  induction p as [|a p IH]; intros s c Hc H; [discriminate|].
  destruct s as [|e s]; cbn [app strip_prefix] in *.
  - unfold char_eqb. destruct (N.eqb_spec a c) as [E|E]; [|reflexivity].
    exfalso. apply Hc. left. exact E.
  - destruct (char_eqb a e); [|reflexivity].
    apply IH; [|exact H]. intros Hin. apply Hc. right. exact Hin.
Qed.

Lemma lacks_snoc p (b : str) c :
  p <> [] -> ~ In c p -> lacks p b = true -> lacks p (b ++ [c]) = true.
Proof.
  intros Hp Hc. induction b as [|e b IH]; intros H.
  - cbn [app lacks]. destruct p as [|a p]; [congruence|]. cbn [strip_prefix].
    unfold char_eqb. destruct (N.eqb_spec a c) as [E|E]; [|reflexivity].
    exfalso. apply Hc. left. exact E.
  - apply lacks_cons in H. destruct H as [H1 H2].
    pose proof (@strip_prefix_snoc p (e :: b) c Hc H1) as E. cbn [app] in E |- *.
    cbn [lacks]. rewrite E. apply IH. exact H2.
Qed.

Lemma split_line (s : str) :
  exists l rest, s = l ++ rest /\ Forall (fun c => c <> NL) l
                 /\ (rest = [] \/ exists r, rest = NL :: r).
Proof.
  induction s as [|c s IH].
  - exists [], []. repeat split; auto.
  - destruct (N.eq_dec c NL) as [->|Hc].
    + exists [], (NL :: s). repeat split; eauto.
    + destruct IH as (l & rest & -> & Hl & Hrest).
      exists (c :: l), rest. repeat split; auto.
Qed.

(** A lazy repetition fails when the rest of the pattern fails at every
    place it can stop. *)
Lemma rep_lazy_fails R p (k : option char -> str -> option R) (l : str) :
  forall prev (rest : str),
  Forall (fun c => p c = true) l ->
  match rest with c :: _ => p c = false | [] => True end ->
  (forall pv l1 l2, l = l1 ++ l2 -> k pv (l2 ++ rest) = None) ->
  rep false p 0 None prev (l ++ rest) k = None.
Proof.
  induction l as [|c l IH]; intros prev rest Hp Hrest Hk; rewrite rep_eq; cbv zeta.
  - pose proof (Hk prev [] [] eq_refl) as E. cbn [app] in *. rewrite E. cbn [orelse].
    destruct rest as [|c rest]; [reflexivity|]. rewrite Hrest. reflexivity.
  - pose proof (Hk prev [] (c :: l) eq_refl) as E. cbn [app] in E |- *.
    rewrite E. cbn [orelse].
    inversion Hp as [|? ? Hc Hp']; subst. rewrite Hc. cbn [andb room less pred].
    apply IH; [exact Hp'|exact Hrest|].
    intros pv l1 l2 E'. apply (Hk pv (c :: l1) l2). rewrite E'. reflexivity.
Qed.

Lemma dot_newline : dot NL = false.
Proof. reflexivity. Qed.

Lemma Forall_dot_line (l : str) :
  Forall (fun c => c <> NL) l -> Forall (fun c => dot c = true) l.
Proof.
  intros H. eapply Forall_impl; [|exact H]. intros c Hc.
  unfold dot, char_eqb. destruct (N.eqb_spec c NL); [congruence|reflexivity].
Qed.

Lemma label_split_fails (label : str) l1 c l2 (tail : str) :
  lacks (lit "](") label = true -> label = l1 ++ c :: l2 ->
  strip_prefix (lit "](") (c :: l2 ++ lit "](" ++ tail) = None.
Proof.
  intros H E. subst label. apply lacks_suffix in H. apply lacks_cons in H.
  destruct H as [H _]. change (lit "](") with [93%N; 40%N] in *.
  destruct l2 as [|e l2]; cbn [app] in *.
  - apply strip_two_other. reflexivity.
  - apply (strip_two_more _ _ _ _ l2 (93%N :: 40%N :: tail)) in H. exact H.
Qed.

(** Stepping the scanner through a text in which no match begins. *)
Lemma scan_copy_inert r (gap : str) : forall prev pos (s : str),
  (forall l1 c l2 pv adv, gap = l1 ++ c :: l2 ->
     match_at r pv (c :: l2 ++ s) adv = None) ->
  exists prev' pos',
    scan r prev (gap ++ s) pos 0 = map Copy gap ++ scan r prev' s pos' 0.
Proof.
  induction gap as [|c gap IH]; intros prev pos s H.
  - exists prev, pos. reflexivity.
  - destruct (IH (Some c) (S pos) s) as (prev' & pos' & E).
    { intros l1 e l2 pv adv Eg. apply (H (c :: l1) e l2 pv adv). rewrite Eg. reflexivity. }
    exists prev', pos'. simpl app. cbn [scan].
    rewrite (H [] c gap prev false eq_refl). simpl. rewrite E. reflexivity.
Qed.

Lemma first_occurrence (a : char) (r : str) :
  existsb (char_eqb a) r = true ->
  exists l r2, r = l ++ a :: r2 /\ Forall (fun c => c <> a) l.
Proof.
  induction r as [|c r IH]; intros H; [discriminate|].
  cbn [existsb] in H. destruct (N.eq_dec c a) as [->|Hc].
  - exists [], r. split; [reflexivity|constructor].
  - assert (E : char_eqb a c = false).
    { unfold char_eqb. destruct (N.eqb_spec a c); [congruence|reflexivity]. }
    rewrite E in H. cbn [orb] in H. destruct (IH H) as (l & r2 & -> & Hl).
    exists (c :: l), r2. split; [reflexivity|]. constructor; assumption.
Qed.

(** Where a text without [>] is followed by [>], the text [-->] begins
    two characters before that [>] and nowhere else. *)
Lemma arrow_in_run (m rest : str) x :
  Forall (fun c => c <> 62%N) m ->
  strip_prefix (lit "-->") (m ++ 62%N :: rest) = Some x ->
  m = [45%N; 45%N] /\ x = rest.
Proof.
  intros Hm H. change (lit "-->") with [45%N; 45%N; 62%N] in H.
  destruct m as [|a [|b [|c m]]]; cbn [app strip_prefix] in H.
  - discriminate H.
  - destruct (char_eqb 45%N a); discriminate H.
  - unfold char_eqb in H.
    destruct (N.eqb_spec 45 a); [|discriminate H].
    destruct (N.eqb_spec 45 b); [|discriminate H].
    rewrite N.eqb_refl in H. inversion H. subst. auto.
  - unfold char_eqb in H.
    destruct (N.eqb_spec 45 a); [|discriminate H].
    destruct (N.eqb_spec 45 b); [|discriminate H].
    destruct (N.eqb_spec 62 c) as [E|E]; [|discriminate H].
    inversion Hm as [|? ? _ Hm1]; subst. inversion Hm1 as [|? ? _ Hm2]; subst.
    inversion Hm2 as [|? ? Hc _]; subst. congruence.
Qed.

(** ** The link-to-card converter *)

Section Card.
Context {U : Unicode}.

Lemma no_arrow (l : str) (sp : char) (t : str) :
  Forall (fun c => c <> 62%N) l -> isspace sp = true ->
  strip_prefix (lit "-->") (l ++ sp :: t) = None.
Proof.
  intros Hl Hsp.
  assert (H45 : sp <> 45%N) by (intros ->; discriminate Hsp).
  assert (H62 : sp <> 62%N) by (intros ->; discriminate Hsp).
  change (lit "-->") with [45%N; 45%N; 62%N].
  destruct l as [|a [|b [|c l]]]; cbn [app strip_prefix]; unfold char_eqb.
  - destruct (N.eqb_spec 45 sp); [congruence|reflexivity].
  - destruct (N.eqb_spec 45 a); [|reflexivity].
    destruct (N.eqb_spec 45 sp); [congruence|reflexivity].
  - destruct (N.eqb_spec 45 a); [|reflexivity].
    destruct (N.eqb_spec 45 b); [|reflexivity].
    destruct (N.eqb_spec 62 sp); [congruence|reflexivity].
  - destruct (N.eqb_spec 45 a); [|reflexivity].
    destruct (N.eqb_spec 45 b); [|reflexivity].
    destruct (N.eqb_spec 62 c); [|reflexivity].
    inversion Hl as [|? ? _ Hl1]; subst. inversion Hl1 as [|? ? _ Hl2]; subst.
    inversion Hl2 as [|? ? Hc _]; subst. congruence.
Qed.

Lemma card_match sp1 (icon : str) sp2 (title url tail : str) prev :
  isspace sp1 = true -> isspace sp2 = true ->
  icon <> [] -> Forall (fun c => c <> 62%N) icon ->
  lacks (lit "](") title = true ->
  Forall (fun c => c <> 41%N) url ->
  match_at card_pattern prev (card_source sp1 icon sp2 title url ++ tail) false
  = Some (length (card_source sp1 icon sp2 title url),
          [(3, url); (2, title); (1, icon)]).
Proof.
  intros H1 H2 Hi Hgt Ht Hu.
  destruct icon as [|i0 icon]; [congruence|].
  unfold match_at, card_pattern.
  assert (Hlen : forall g : caps, (if false && Nat.eqb (length (card_source sp1 (i0 :: icon) sp2 title url ++ tail) - length tail) 0
           then None
           else Some (length (card_source sp1 (i0 :: icon) sp2 title url ++ tail) - length tail, g))
          = Some (length (card_source sp1 (i0 :: icon) sp2 title url), g)).
  { intros g. cbn [andb]. rewrite length_app. do 2 f_equal. lia. }
  remember (length (card_source sp1 (i0 :: icon) sp2 title url)) as n eqn:En.
  set (K := fun (_ : option char) (s' : str) (g : caps) => _).
  unfold card_source. norm_app.
  rewrite mtch_lit. rewrite mtch_cls by exact H1.
  apply mtch_lazy_group1.
  - apply Forall_not_char. exact Hgt.
  - intros pv l1 d l2 g' E. cbn [mtch].
    destruct (isspace d); [|reflexivity].
    rewrite (@no_arrow l2 sp2); [reflexivity| |exact H2].
    pose proof (Forall_inv_tail Hgt) as Hgt'.
    destruct (@Forall_split _ _ _ _ _ Hgt' E) as [_ Hl2]. exact Hl2.
  - intros pv. rewrite mtch_cls by exact H2.
    rewrite mtch_lit.
    change (NL :: lit "[" ++ title ++ lit "](" ++ url ++ lit ")" ++ tail)
      with ([NL] ++ lit "[" ++ title ++ lit "](" ++ url ++ lit ")" ++ tail).
    rewrite mtch_lit. rewrite mtch_lit.
    apply mtch_lazy_group.
    + apply Forall_any.
    + intros pv' l1 c l2 g' E. cbn [mtch].
      rewrite (@label_split_fails title l1 c l2 _ Ht E). reflexivity.
    + intros pv'. rewrite mtch_lit.
      apply mtch_lazy_group.
      * apply Forall_any.
      * intros pv'' l1 c l2 g' E. cbn [mtch strip_prefix app]. change (lit ")") with [41%N].
        cbn [strip_prefix]. unfold char_eqb.
        destruct (N.eqb_spec 41 c) as [Ec|Ec]; [|reflexivity].
        destruct (@Forall_split _ _ _ _ _ Hu E) as [Hc _]. congruence.
      * intros pv''. rewrite mtch_lit_end. unfold K. apply Hlen.
Qed.

Lemma begins_with_card : begins_with card_pattern 60%N.
Proof. apply (begins_with_lit 60%N (lit "!--")). Qed.

Lemma splice_copies repl (t : str) ps :
  splice repl (map Copy t ++ ps) = emit t (splice repl ps).
Proof.
  induction t as [|c t IH]; simpl.
  - destruct (splice repl ps); reflexivity.
  - rewrite IH. destruct (splice repl ps); reflexivity.
Qed.

Lemma str_eqb_eq a : forall b, str_eqb a b = true <-> a = b.
Proof.
  induction a as [|x a IH]; intros [|y b]; simpl; split; intros H;
    try reflexivity; try discriminate.
  - apply andb_true_iff in H. destruct H as [H1 H2].
    apply N.eqb_eq in H1. apply IH in H2. congruence.
  - inversion H; subst. apply andb_true_iff. split.
    + apply N.eqb_refl.
    + apply IH. reflexivity.
Qed.

Lemma str_eqb_sym a b : str_eqb a b = str_eqb b a.
Proof.
  destruct (str_eqb a b) eqn:E1, (str_eqb b a) eqn:E2; try reflexivity.
  - apply str_eqb_eq in E1. subst. rewrite (proj2 (str_eqb_eq b b) eq_refl) in E2. discriminate.
  - apply str_eqb_eq in E2. subst. rewrite (proj2 (str_eqb_eq a a) eq_refl) in E1. discriminate.
Qed.

(** The lookup of the code is the resolution of the specification, and
  never raises, when the ideographs of the first alias have no case. *)
Lemma resolve_icon_canonical icon :
  lower zhihu_cn = zhihu_cn ->
  resolve_icon icon = Ok (canonical_icon icon).
Proof.
  intros Hzh. unfold resolve_icon, canonical_icon, icon_url_mapping.
  cbn [map fst existsb dict_get]. rewrite Hzh.
  change (lower (lit "zhihu")) with (lit "zhihu").
  change (lower (lit "github")) with (lit "github").
  rewrite (str_eqb_sym zhihu_cn), (str_eqb_sym (lit "zhihu")), (str_eqb_sym (lit "github")).
  destruct (str_eqb (lower icon) zhihu_cn); [reflexivity|].
  destruct (str_eqb (lower icon) (lit "zhihu")); [reflexivity|].
  destruct (str_eqb (lower icon) (lit "github")); reflexivity.
Qed.

Lemma card_source_nonempty sp1 icon sp2 title url :
  card_source sp1 icon sp2 title url <> [].
Proof. discriminate. Qed.

Lemma comments_closed_suffix (x y : str) :
  comments_closed (x ++ y) = true -> comments_closed y = true.
Proof.
  induction x as [|c x IH]; intros H; [exact H|].
  cbn [app comments_closed] in H. apply andb_true_iff in H. apply IH. apply H.
Qed.

Lemma no_link_after_comment_suffix (x y : str) :
  no_link_after_comment (x ++ y) = true -> no_link_after_comment y = true.
Proof.
  induction x as [|c x IH]; intros H; [exact H|].
  cbn [app no_link_after_comment] in H. apply andb_true_iff in H. apply IH. apply H.
Qed.

Lemma isspace_lt : isspace 60%N = false.
Proof. reflexivity. Qed.

Lemma isspace_gt : isspace 62%N = false.
Proof. reflexivity. Qed.

(** After [-->]: no newline and [[] follow, in a text that has none of
    them after a comment, whatever comes after the text. *)
Lemma no_link_start R (r2 tail : str) prev g rest_pattern
    (k : option char -> str -> caps -> option R) :
  after_text tail ->
  strip_prefix (NL :: lit "[") r2 = None ->
  mtch (Seq (Lit [NL]) (Seq (Lit (lit "[")) rest_pattern)) prev (r2 ++ tail) g k = None.
Proof.
  intros Ht H. cbn [mtch]. change (lit "[") with [91%N] in *.
  destruct r2 as [|e r2]; cbn [app].
  - destruct Ht as [->|[r ->]]; reflexivity.
  - cbn [strip_prefix] in *. destruct (char_eqb NL e); [|reflexivity].
    destruct r2 as [|f r2]; cbn [app].
    + destruct Ht as [->|[r ->]]; reflexivity.
    + cbn [strip_prefix] in *. destruct (char_eqb 91%N f); [discriminate H|reflexivity].
Qed.

(** The rest of the pattern after the icon fails at every place of a
    comment that no link follows. *)
Lemma card_rest_fails R (x l2 r2 tail : str) prev g rest_pattern
    (k : option char -> str -> caps -> option R) :
  after_text tail ->
  Forall (fun c => c <> 62%N) l2 ->
  no_link_after_comment (x ++ l2 ++ 62%N :: r2) = true ->
  mtch (Seq (Cls isspace)
         (Seq (Lit (lit "-->"))
           (Seq (Lit [NL]) (Seq (Lit (lit "[")) rest_pattern))))
    prev (l2 ++ 62%N :: r2 ++ tail) g k = None.
Proof.
  intros Ht Hl H. destruct l2 as [|d m].
  - cbn [app mtch]. rewrite isspace_gt. reflexivity.
  - cbn [app]. cbn [mtch]. destruct (isspace d) eqn:Ed; [|reflexivity].
    destruct (strip_prefix (lit "-->") (m ++ 62%N :: r2 ++ tail)) as [y|] eqn:E;
      [|reflexivity].
    inversion Hl as [|? ? _ Hm]; subst.
    apply (arrow_in_run _ Hm) in E. destruct E as [-> ->].
    apply no_link_after_comment_suffix in H. cbn [app no_link_after_comment] in H.
    rewrite Ed in H. cbn [andb] in H. apply andb_true_iff in H. destruct H as [H _].
    change (lit "-->" ++ NL :: lit "[") with [45%N; 45%N; 62%N; NL; 91%N] in H.
    cbn [strip_prefix] in H.
    change (char_eqb 45%N 45%N) with true in H. change (char_eqb 62%N 62%N) with true in H.
    cbv iota in H.
    apply (@no_link_start R r2 tail _ _ rest_pattern k Ht).
    change (lit "[") with [91%N]. cbn [strip_prefix].
    destruct r2 as [|e r2]; [reflexivity|].
    destruct (char_eqb NL e); [|reflexivity].
    destruct r2 as [|f r2]; [reflexivity|].
    destruct (char_eqb 91%N f); [discriminate H|reflexivity].
Qed.

Lemma card_text_no_match (t tail : str) :
  comments_closed t = true -> no_link_after_comment t = true ->
  after_text tail ->
  forall l1 c l2 pv adv, t = l1 ++ c :: l2 ->
    match_at card_pattern pv (c :: l2 ++ tail) adv = None.
Proof.
  intros Hc Hn Ht l1 c l2 pv adv E.
  destruct (N.eq_dec c 60) as [->|Hlt].
  2:{ apply (begins_with_none pv _ adv begins_with_card). exact Hlt. }
  subst t. apply comments_closed_suffix in Hc.
  cbn [comments_closed] in Hc. apply andb_true_iff in Hc. destruct Hc as [Hc _].
  unfold match_at, card_pattern.
  match goal with
  | |- context [Seq (Grp 1 ?icon) ?after] => remember after as after_icon eqn:Eafter
  end.
  cbn [mtch].
  change (lit "<!--") with [60%N; 33%N; 45%N; 45%N] in *.
  destruct l2 as [|a [|b [|e l3]]]; cbn [app strip_prefix] in *;
    change (char_eqb 60%N 60%N) with true in *; cbv iota in *.
  - destruct Ht as [->|[r ->]]; reflexivity.
  - destruct (char_eqb 33%N a); [|reflexivity].
    destruct Ht as [->|[r ->]]; reflexivity.
  - destruct (char_eqb 33%N a); [|reflexivity].
    destruct (char_eqb 45%N b); [|reflexivity].
    destruct Ht as [->|[r ->]]; reflexivity.
  - destruct (char_eqb 33%N a) eqn:Ea; [|reflexivity].
    destruct (char_eqb 45%N b) eqn:Eb; [|reflexivity].
    destruct (char_eqb 45%N e) eqn:Ee; [|reflexivity].
    destruct l3 as [|sp r]; cbn [app].
    + destruct Ht as [->|[r ->]]; [reflexivity|]. rewrite isspace_lt. reflexivity.
    + destruct (isspace sp) eqn:Esp; [|reflexivity].
      cbn [negb orb] in Hc. destruct (first_occurrence _ _ Hc) as (l & r2 & -> & Hl).
      rewrite rep_eq. cbv zeta. cbn [orelse].
      destruct l as [|c1 l]; cbn [app].
      * reflexivity.
      * inversion Hl as [|? ? Hc1 Hl']; subst.
        assert (Ep : not_char 62%N c1 = true).
        { unfold not_char, char_eqb. destruct (N.eqb_spec c1 62); [congruence|reflexivity]. }
        rewrite Ep. cbn [andb room less pred].
        rewrite <- app_assoc. cbn [app].
        apply rep_lazy_fails.
        -- apply Forall_not_char. exact Hl'.
        -- reflexivity.
        -- intros pv' k1 k2 Ek. subst l.
           rewrite <- app_assoc.
           apply (@card_rest_fails _ (l1 ++ [60%N; a; b; e; sp; c1] ++ k1) k2 r2 tail).
           ++ exact Ht.
           ++ apply Forall_app in Hl'. apply Hl'.
           ++ rewrite <- Hn. f_equal. rewrite <- !app_assoc. cbn [app].
              rewrite <- !app_assoc. reflexivity.
Qed.

Lemma card_separated_tail x items : card_separated (x :: items) -> card_separated items.
Proof. destruct items as [|y items]; [auto|]. intros [_ H]. exact H. Qed.

Lemma card_items items :
  lower zhihu_cn = zhihu_cn ->
  Forall card_item_ok items ->
  card_separated items ->
  forall prev pos,
    splice replace_with_card
      (scan card_pattern prev (concat (map card_item_source items)) pos 0)
    = Ok (concat (map card_item_target items)).
Proof.
  intros Hzh Hok. induction Hok as [|x items Hx _ IH]; intros Hsep prev pos.
  - cbn [map concat]. rewrite (scan_nil prev pos begins_with_card). reflexivity.
  - pose proof (@card_separated_tail _ _ Hsep) as Hsep'.
    cbn [map concat]. destruct x as [t|sp1 icon sp2 title url]; cbn [card_item_source card_item_target].
    + destruct Hx as [Hc Hn].
      destruct (@scan_copy_inert card_pattern t prev pos (concat (map card_item_source items)))
        as (prev' & pos' & E).
      { apply (card_text_no_match Hc Hn).
        destruct items as [|y items]; [left; reflexivity|].
        destruct Hsep as [Hs _]. destruct y as [t2|s1 ic s2 ti ur]; [discriminate Hs|].
        right. cbn [map concat card_item_source]. unfold card_source.
        eexists. reflexivity. }
      rewrite E, splice_copies, (IH Hsep'). reflexivity.
    + destruct Hx as (H1 & H2 & Hi & Hgt & Ht & Hu).
      destruct (@scan_hit card_pattern prev pos (card_source sp1 icon sp2 title url)
                  (concat (map card_item_source items)) [(3, url); (2, title); (1, icon)])
        as (prev' & pos' & E).
      * apply card_source_nonempty.
      * apply card_match; assumption.
      * rewrite E. cbn [splice]. unfold replace_with_card, m_group. cbn [m_groups group Nat.eqb fmt].
        rewrite (resolve_icon_canonical _ Hzh). rewrite (IH Hsep'). reflexivity.
Qed.

(** C7, amended.  When the ideographs of the first alias have no case (they
  have none in Unicode): in a document made of annotated links (a comment
  whose non-empty text without [>] stands between two white-space
  characters, a newline, and a link whose title holds no [](] and whose
  URL holds no [)]) and of other text (every [<!--] before a white-space
  character is closed by a [>] in the text, and no white-space character is
  followed by [-->], a newline and [[]), every annotated link is replaced
  by the card of its trimmed title, its trimmed URL and its resolved icon,
  and the other text stays; the lookup of the code resolves the icon to
  the canonical URL of the alias it matches without regard to case, and
  to the text itself otherwise; and the example of the specification
  gives the card with the GitHub icon. *)
Theorem annotated_links_become_cards :
  lower zhihu_cn = zhihu_cn ->
  (forall items, Forall card_item_ok items -> card_separated items ->
     replace_url_to_card (concat (map card_item_source items))
     = Ok (concat (map card_item_target items)))
  /\ (forall icon, resolve_icon icon = Ok (canonical_icon icon))
  /\ replace_url_to_card
       (lit "<!-- github -->" ++ NL :: lit "[GitHub](https://github.com)")
     = Ok (card (lit "GitHub") (lit "https://github.com") github_icon).
Proof.
  intros Hzh. split; [|split].
  - intros items Hok Hsep. apply (card_items Hzh Hok Hsep).
  - intros icon. apply resolve_icon_canonical. exact Hzh.
  - pose proof (@card_items [CLink 32%N (lit "github") 32%N (lit "GitHub")
                               (lit "https://github.com")] Hzh) as H.
    unfold replace_url_to_card, re_sub_try.
    cbn [map concat card_item_source card_item_target] in H.
    rewrite !app_nil_r in H.
    change (card_source 32%N (lit "github") 32%N (lit "GitHub") (lit "https://github.com"))
      with (lit "<!-- github -->" ++ NL :: lit "[GitHub](https://github.com)") in H.
    rewrite H.
    + unfold canonical_icon. change (strip (lit "github")) with (lit "github").
      change (lower (lit "github")) with (lit "github").
      rewrite Hzh. reflexivity.
    + constructor; [|constructor]. simpl.
      repeat split; try reflexivity; try discriminate;
        repeat (constructor; [discriminate|]); constructor.
    + exact I.
Qed.
End Card.

(** ** The image-path stripper *)

Lemma mtch_opt_taken R n d r prev s g x
    (k : option char -> str -> caps -> option R) :
  mtch r (last_char prev d) s ((n, d) :: g) k = Some x ->
  mtch (Seq (Opt (Grp n (Lit d))) r) prev (d ++ s) g k = Some x.
Proof.
  intros H. cbn [mtch]. rewrite strip_prefix_app. cbv beta.
  rewrite firstn_captured. unfold orelse.
  match goal with
  | |- match ?a with _ => _ end = _ => replace a with (Some x) by (symmetry; exact H)
  end. reflexivity.
Qed.

Lemma mtch_opt_skipped R n d r prev s g
    (k : option char -> str -> caps -> option R) :
  strip_prefix d s = None ->
  mtch (Seq (Opt (Grp n (Lit d))) r) prev s g k = mtch r prev s g k.
Proof. intros H. cbn [mtch]. rewrite H. reflexivity. Qed.

Lemma strip_prefix_not_longer (d : str) : forall (p t : str),
  Forall (fun c => c <> 41%N) d ->
  strip_prefix d p = None ->
  strip_prefix d (p ++ 41%N :: t) = None.
Proof.
  induction d as [|a d IH]; intros p t Hd H; [discriminate|].
  inversion Hd as [|? ? Ha Hd']; subst.
  destruct p as [|c p]; cbn [app strip_prefix] in *.
  - unfold char_eqb. destruct (N.eqb_spec a 41); [congruence|reflexivity].
  - destruct (char_eqb a c); [|reflexivity]. apply IH; assumption.
Qed.

Section Img.
Context {U : Unicode}.

Lemma match_length_ok (m tail : str) (g : caps) :
  (if false && Nat.eqb (length (m ++ tail) - length tail) 0
   then None else Some (length (m ++ tail) - length tail, g))
  = Some (length m, g).
Proof. cbn [andb]. rewrite length_app. do 2 f_equal. lia. Qed.

Lemma begins_with_img (d : str) : begins_with (img_insert_pattern d) 91%N.
Proof. apply (begins_with_lit 91%N []). Qed.

Lemma begins_with_html (d : str) : begins_with (html_img_tag_pattern d) 60%N.
Proof. apply (begins_with_lit 60%N (lit "img")). Qed.

Lemma out_copies repl (t : str) ps : out repl (map Copy t ++ ps) = t ++ out repl ps.
Proof.
  unfold out. induction t as [|c t IH]; simpl; [reflexivity|]. rewrite IH. reflexivity.
Qed.

Lemma link_source_nonempty label path : link_source label path <> [].
Proof. discriminate. Qed.

Lemma re_sub_no_match r a repl (t : str) :
  begins_with r a -> Forall (fun c => c <> a) t -> re_sub r repl t = t.
Proof.
  intros Hb Ht. unfold re_sub.
  destruct (@scan_copy r a t None 0 [] Hb Ht) as (prev' & pos' & E).
  rewrite app_nil_r in E. rewrite E, (scan_nil prev' pos' Hb), app_nil_r.
  change (concat (map (render repl) (map Copy t))) with (out repl (map Copy t)).
  rewrite <- (app_nil_r (map Copy t)), out_copies. apply app_nil_r.
Qed.


(** No link begins at a [[] whose line holds no [](]. *)
Lemma img_fail (d l rest : str) prev adv :
  Forall (fun c => c <> NL) l ->
  (rest = [] \/ exists r, rest = NL :: r) ->
  (forall l1 l2, l = l1 ++ l2 -> strip_prefix (lit "](") (l2 ++ rest) = None) ->
  match_at (img_insert_pattern d) prev (91%N :: l ++ rest) adv = None.
Proof.
  intros Hl Hrest Hk. unfold match_at, img_insert_pattern.
  change (91%N :: l ++ rest) with (lit "[" ++ l ++ rest).
  rewrite mtch_lit. cbn [mtch].
  apply rep_lazy_fails.
  - apply Forall_dot_line. exact Hl.
  - destruct Hrest as [->|[r ->]]; [exact I|reflexivity].
  - intros pv l1 l2 E. rewrite (Hk l1 l2 E). reflexivity.
Qed.

Lemma strip_link_newline (t : str) : strip_prefix (lit "](") (NL :: t) = None.
Proof. reflexivity. Qed.

(** From a text without [](]: the rest of a line, seen with what follows
    it. *)
Lemma lacks_line (x l1 l2 r tail : str) :
  lacks (lit "](") (x ++ l1 ++ l2 ++ NL :: r) = true ->
  strip_prefix (lit "](") (l2 ++ (NL :: r) ++ tail) = None.
Proof.
  intros H. rewrite app_assoc in H. apply lacks_suffix in H.
  destruct l2 as [|c l2]; [reflexivity|].
  cbn [app] in H. apply lacks_cons in H. destruct H as [H _].
  change (lit "](") with [93%N; 40%N] in *.
  destruct l2 as [|e l2]; cbn [app] in *.
  - apply strip_two_other. reflexivity.
  - apply (strip_two_more _ _ _ _ (l2 ++ NL :: r) tail) in H.
    rewrite <- app_assoc in H. exact H.
Qed.

Lemma lacks_line_end (x l1 l2 : str) :
  lacks (lit "](") (x ++ l1 ++ l2) = true ->
  strip_prefix (lit "](") (l2 ++ []) = None.
Proof.
  intros H. rewrite app_assoc in H. apply lacks_suffix in H. rewrite app_nil_r.
  destruct l2 as [|c l2]; [reflexivity|].
  apply lacks_cons in H. apply H.
Qed.

Lemma img_closed_no_match (d a : str) :
  closed_text a -> lacks (lit "](") a = true ->
  forall l1 c l2 pv adv (tail : str), a = l1 ++ c :: l2 ->
    match_at (img_insert_pattern d) pv (c :: l2 ++ tail) adv = None.
Proof.
  intros Hc Hl l1 c l2 pv adv tail E.
  destruct (N.eq_dec c 91) as [->|Hn].
  2:{ apply (begins_with_none pv _ adv (begins_with_img d)). exact Hn. }
  pose proof (Hc l1 l2 E) as Hin.
  destruct (split_line l2) as (l & rest & -> & Hline & Hrest).
  destruct Hrest as [->|[r ->]].
  { rewrite app_nil_r in Hin. rewrite Forall_forall in Hline.
    exfalso. apply (Hline NL Hin). reflexivity. }
  rewrite <- app_assoc.
  apply (@img_fail d l (NL :: r ++ tail) pv adv Hline
           (or_intror (ex_intro _ (r ++ tail) eq_refl))).
  intros k1 k2 Ek. subst l. subst a.
  apply (@lacks_line (l1 ++ [91%N]) k1 k2 r tail).
  rewrite <- !app_assoc in *. cbn [app] in *. exact Hl.
Qed.

Lemma img_end_no_match (d t : str) :
  lacks (lit "](") t = true ->
  forall l1 c l2 pv adv, t = l1 ++ c :: l2 ->
    match_at (img_insert_pattern d) pv (c :: l2 ++ []) adv = None.
Proof.
  intros Hl l1 c l2 pv adv E.
  destruct (N.eq_dec c 91) as [->|Hn].
  2:{ apply (begins_with_none pv _ adv (begins_with_img d)). exact Hn. }
  rewrite app_nil_r.
  destruct (split_line l2) as (l & rest & -> & Hline & Hrest).
  apply (@img_fail d l rest pv adv Hline Hrest).
  intros k1 k2 Ek. subst l. subst t.
  destruct Hrest as [->|[r ->]].
  - apply (@lacks_line_end (l1 ++ [91%N]) k1 k2).
    rewrite !app_nil_r in Hl. rewrite <- !app_assoc in *. cbn [app] in *. exact Hl.
  - pose proof (@lacks_line (l1 ++ [91%N]) k1 k2 r []) as H.
    rewrite app_nil_r in H. apply H.
    rewrite <- !app_assoc in *. cbn [app] in *. exact Hl.
Qed.

Lemma text_open_tail (t : str) :
  exists a b, t = a ++ b /\ closed_text a /\ open_tail b.
Proof.
  induction t as [|c t IH].
  - exists [], []. split; [reflexivity|]. split; [|left; reflexivity].
    intros x y E. destruct x; discriminate E.
  - destruct IH as (a & b & -> & Ha & Hb).
    destruct (N.eq_dec c 91) as [->|Hc].
    + destruct (in_dec N.eq_dec NL (a ++ b)) as [Hin|Hnot].
      * exists (91%N :: a), b. split; [reflexivity|]. split; [|exact Hb].
        intros x y E. destruct x as [|e x]; cbn [app] in E.
        -- inversion E; subst. apply in_app_or in Hin. destruct Hin as [Hin|Hin]; [exact Hin|].
           exfalso. destruct Hb as [->|(b' & -> & Hb')]; [contradiction|].
           destruct Hin as [Hin|Hin]; [discriminate Hin|].
           rewrite Forall_forall in Hb'. apply (Hb' NL Hin). reflexivity.
        -- inversion E; subst. apply (Ha x y eq_refl).
      * exists [], (91%N :: a ++ b). split; [reflexivity|]. split.
        -- intros x y E. destruct x; discriminate E.
        -- right. exists (a ++ b). split; [reflexivity|].
           apply Forall_forall. intros e He ->. contradiction.
    + exists (c :: a), b. split; [reflexivity|]. split; [|exact Hb].
      intros x y E. destruct x as [|e x]; cbn [app] in E.
      * inversion E; subst. congruence.
      * inversion E; subst. apply (Ha x y eq_refl).
Qed.

Lemma open_tail_link (pre label path : str) :
  open_tail pre ->
  pre ++ link_source label path = link_source (with_open_tail pre label) path.
Proof.
  intros [->|(b & -> & _)]; [reflexivity|].
  unfold link_source, with_open_tail. cbn [app]. rewrite <- !app_assoc. reflexivity.
Qed.

Lemma open_tail_label (pre label : str) :
  open_tail pre -> lacks (lit "](") pre = true -> label_ok label ->
  label_ok (with_open_tail pre label).
Proof.
  intros [->|(b & -> & Hb)] Hpre [Hl1 Hl2]; [split; assumption|].
  unfold with_open_tail. split.
  - apply Forall_app. split; [exact Hb|]. constructor; [discriminate|exact Hl1].
  - apply lacks_cons in Hpre. destruct Hpre as [_ Hpre].
    assert (Hc : ~ In 91%N (lit "](")).
    { cbn. intros [H|[H|[]]]; discriminate H. }
    apply (@lacks_block (lit "](") b 91%N [] label Hc); [|exact Hl2].
    apply lacks_snoc; [discriminate|exact Hc|exact Hpre].
Qed.

Lemma img_match_prefixed (d label rest tail : str) prev :
  label_ok label -> path_ok rest ->
  match_at (img_insert_pattern d) prev (link_source label (d ++ rest) ++ tail) false
  = Some (length (link_source label (d ++ rest)), [(3, rest); (2, d); (1, label)]).
Proof.
  intros [Hl1 Hl2] [Hne Hr].
  unfold match_at, img_insert_pattern.
  pose proof (@match_length_ok (link_source label (d ++ rest)) tail) as Hlen.
  remember (length (link_source label (d ++ rest))) as n eqn:En.
  set (K := fun (_ : option char) (s' : str) (g : caps) => _).
  unfold link_source. norm_app.
  rewrite mtch_lit.
  apply mtch_lazy_group.
  - apply Forall_dot_line. exact Hl1.
  - intros pv l1 c l2 g' E. cbn [mtch].
    rewrite (@label_split_fails label l1 c l2 _ Hl2 E). reflexivity.
  - intros pv. rewrite mtch_lit.
    apply mtch_opt_taken.
    apply mtch_greedy_group.
    + apply Forall_not_char. exact Hr.
    + destruct rest; [congruence|simpl; lia].
    + reflexivity.
    + intros pv'. rewrite mtch_lit_end. unfold K. apply Hlen.
Qed.

Lemma literal_no_paren (d : str) : literal_dir d -> Forall (fun c => c <> 41%N) d.
Proof.
  intros H. eapply Forall_impl; [|exact H]. intros c Hc ->. discriminate Hc.
Qed.

Lemma img_match_other (d label path tail : str) prev :
  literal_dir d ->
  label_ok label -> path_ok path -> strip_prefix d path = None ->
  match_at (img_insert_pattern d) prev (link_source label path ++ tail) false
  = Some (length (link_source label path), [(3, path); (1, label)]).
Proof.
  intros Hd [Hl1 Hl2] [Hne Hr] Hp.
  unfold match_at, img_insert_pattern.
  pose proof (@match_length_ok (link_source label path) tail) as Hlen.
  remember (length (link_source label path)) as n eqn:En.
  set (K := fun (_ : option char) (s' : str) (g : caps) => _).
  unfold link_source. norm_app.
  rewrite mtch_lit.
  apply mtch_lazy_group.
  - apply Forall_dot_line. exact Hl1.
  - intros pv l1 c l2 g' E. cbn [mtch].
    rewrite (@label_split_fails label l1 c l2 _ Hl2 E). reflexivity.
  - intros pv. rewrite mtch_lit.
    rewrite mtch_opt_skipped.
    2:{ change (lit ")" ++ tail) with (41%N :: tail).
        apply strip_prefix_not_longer; [apply literal_no_paren|]; assumption. }
    apply mtch_greedy_group.
    + apply Forall_not_char. exact Hr.
    + destruct path; [congruence|simpl; lia].
    + reflexivity.
    + intros pv'. rewrite mtch_lit_end. unfold K. apply Hlen.
Qed.

Lemma separated_tail x items : separated (x :: items) -> separated items.
Proof. destruct items as [|y items]; [auto|]. intros [_ H]. exact H. Qed.

(** The first substitution on prose made of links; [pre] is the open end
    of the text before. *)
Lemma img_items_pass1 (d : str) items :
  literal_dir d ->
  Forall (img_item_ok d) items ->
  separated items ->
  forall pre prev pos,
    open_tail pre -> lacks (lit "](") pre = true ->
    pre = [] \/ match items with x :: _ => is_text x = false | [] => True end ->
    out replace_img_path
      (scan (img_insert_pattern d) prev
         (pre ++ concat (map (img_item_source d) items)) pos 0)
    = pre ++ concat (map img_item_target items).
Proof.
  intros Hd Hok. induction Hok as [|x items Hx _ IH]; intros Hsep pre prev pos Hpre Hlp Hnext.
  - cbn [map concat].
    destruct (@scan_copy_inert (img_insert_pattern d) pre prev pos [])
      as (prev' & pos' & E).
    { intros l1 c l2 pv adv Eg. apply (@img_end_no_match d pre Hlp l1 c l2 pv adv Eg). }
    rewrite E, out_copies, (scan_nil prev' pos' (begins_with_img d)). reflexivity.
  - pose proof (@separated_tail _ _ Hsep) as Hsep'.
    cbn [map concat]. destruct x as [t|label rest|label path];
      cbn [img_item_source img_item_target].
    + destruct Hnext as [->|Hnext]; [|discriminate Hnext]. cbn [app].
      cbn [img_item_ok] in Hx.
      destruct (text_open_tail t) as (a & b & -> & Ha & Hb).
      rewrite <- !app_assoc.
      destruct (@scan_copy_inert (img_insert_pattern d) a prev pos
                  (b ++ concat (map (img_item_source d) items)))
        as (prev' & pos' & E).
      { intros l1 c l2 pv adv Eg.
        apply (@img_closed_no_match d a Ha (@lacks_prefix _ _ _ Hx) l1 c l2 pv adv _ Eg). }
      rewrite E, out_copies. f_equal.
      apply IH; [exact Hsep'|exact Hb|exact (@lacks_suffix _ _ _ Hx)|].
      destruct items as [|y items]; [right; exact I|].
      destruct Hsep as [Hs _]. cbn [is_text andb] in Hs. right. exact Hs.
    + destruct Hx as [Hl Hr].
      rewrite app_assoc, (@open_tail_link pre label (d ++ rest) Hpre).
      pose proof (@open_tail_label pre label Hpre Hlp Hl) as Hl'.
      destruct (@scan_hit (img_insert_pattern d) prev pos
                  (link_source (with_open_tail pre label) (d ++ rest))
                  (concat (map (img_item_source d) items))
                  [(3, rest); (2, d); (1, with_open_tail pre label)])
        as (prev' & pos' & E).
      * apply link_source_nonempty.
      * apply img_match_prefixed; assumption.
      * rewrite E. unfold out in *. cbn [map concat render].
        pose proof (IH Hsep' [] prev' pos' (or_introl eq_refl) eq_refl (or_introl eq_refl)) as IH'.
        cbn [app] in IH'. rewrite IH'.
        unfold replace_img_path, m_group. cbn [m_groups group Nat.eqb fmt].
        rewrite (app_assoc pre), (@open_tail_link pre label rest Hpre).
        unfold link_source. reflexivity.
    + destruct Hx as (Hl & Hr & Hp).
      rewrite app_assoc, (@open_tail_link pre label path Hpre).
      pose proof (@open_tail_label pre label Hpre Hlp Hl) as Hl'.
      destruct (@scan_hit (img_insert_pattern d) prev pos
                  (link_source (with_open_tail pre label) path)
                  (concat (map (img_item_source d) items))
                  [(3, path); (1, with_open_tail pre label)])
        as (prev' & pos' & E).
      * apply link_source_nonempty.
      * apply img_match_other; assumption.
      * rewrite E. unfold out in *. cbn [map concat render].
        pose proof (IH Hsep' [] prev' pos' (or_introl eq_refl) eq_refl (or_introl eq_refl)) as IH'.
        cbn [app] in IH'. rewrite IH'.
        unfold replace_img_path, m_group. cbn [m_groups group Nat.eqb fmt].
        rewrite (app_assoc pre), (@open_tail_link pre label path Hpre).
        unfold link_source. reflexivity.
Qed.

Lemma img_targets_lack (p d : str) items : forall X : str,
  ~ In 40%N p ->
  lacks p (X ++ concat (map (img_item_source d) items)) = true ->
  lacks p (X ++ concat (map img_item_target items)) = true.
Proof.
  induction items as [|x items IH]; intros X Hp H; [exact H|].
  cbn [map concat] in *.
  set (T := concat (map img_item_target items)) in *.
  set (S := concat (map (img_item_source d) items)) in *.
  destruct x as [t|label rest|label path]; cbn [img_item_source img_item_target] in *.
  - rewrite app_assoc in *. apply IH; assumption.
  - assert (H1 : lacks p ((X ++ link_source label (d ++ rest)) ++ T) = true).
    { apply (IH _ Hp). rewrite <- app_assoc. exact H. }
    assert (E1 : (X ++ link_source label (d ++ rest)) ++ T
                 = (X ++ lit "[" ++ label ++ lit "]")
                     ++ 40%N :: (d ++ rest ++ lit ")" ++ T)).
    { unfold link_source. repeat rewrite <- app_assoc. reflexivity. }
    assert (E2 : X ++ link_source label rest ++ T
                 = (X ++ lit "[" ++ label ++ lit "]")
                     ++ 40%N :: (rest ++ lit ")" ++ T)).
    { unfold link_source. repeat rewrite <- app_assoc. reflexivity. }
    rewrite E2. rewrite E1 in H1.
    apply (@lacks_block p _ 40%N (d ++ rest ++ lit ")" ++ T) _ Hp H1).
    apply lacks_suffix in H1. apply lacks_cons in H1. destruct H1 as [_ H1].
    apply (@lacks_suffix p d). exact H1.
  - rewrite app_assoc in *. apply IH; assumption.
Qed.

(** A pattern that begins with a literal text finds nothing where the text
    does not occur. *)
Lemma re_sub_lacks (l : str) r repl (s : str) :
  l <> [] -> lacks l s = true -> re_sub (Seq (Lit l) r) repl s = s.
Proof.
  intros Hl H. unfold re_sub.
  destruct (@scan_copy_inert (Seq (Lit l) r) s None 0 []) as (prev' & pos' & E).
  { intros l1 c l2 pv adv Es. subst s. apply lacks_suffix in H. apply lacks_cons in H.
    destruct H as [H _]. unfold match_at. cbn [mtch]. rewrite app_nil_r, H. reflexivity. }
  rewrite app_nil_r in E. rewrite E.
  assert (En : scan (Seq (Lit l) r) prev' [] pos' 0 = []).
  { cbn [scan]. unfold match_at. cbn [mtch]. destruct l; [congruence|reflexivity]. }
  rewrite En, app_nil_r.
  change (concat (map (render repl) (map Copy s))) with (out repl (map Copy s)).
  rewrite <- (app_nil_r (map Copy s)), out_copies. apply app_nil_r.
Qed.

Lemma img_items (d : str) items :
  literal_dir d ->
  Forall (img_item_ok d) items ->
  separated items ->
  lacks (lit "<img") (concat (map (img_item_source d) items)) = true ->
  img_process_non_code d (concat (map (img_item_source d) items))
  = concat (map img_item_target items).
Proof.
  intros Hd Hok Hsep Hno. unfold img_process_non_code.
  change (re_sub (img_insert_pattern d) replace_img_path
            (concat (map (img_item_source d) items)))
    with (out replace_img_path
            (scan (img_insert_pattern d) None
               ([] ++ concat (map (img_item_source d) items)) 0 0)).
  rewrite (@img_items_pass1 d items Hd Hok Hsep [] None 0
             (or_introl eq_refl) eq_refl (or_introl eq_refl)).
  cbn [app]. unfold html_img_tag_pattern. apply re_sub_lacks; [discriminate|].
  apply (@img_targets_lack (lit "<img") d items []); [|exact Hno].
  cbn. intros [H|[H|[H|[H|[]]]]]; discriminate H.
Qed.

End Img.

(** ** Creating a draft *)

Lemma str_eqb_refl a : str_eqb a a = true.
Proof. induction a as [|x a IH]; simpl; [reflexivity|]. unfold char_eqb. rewrite N.eqb_refl. exact IH. Qed.

Lemma path_eqb_length p : forall q, path_eqb p q = true -> length p = length q.
Proof.
  induction p as [|a p IH]; intros [|b q] H; simpl in *; try discriminate; [reflexivity|].
  apply andb_true_iff in H. destruct H as [_ H]. f_equal. apply IH. exact H.
Qed.

Lemma str_eqb_true a : forall b, str_eqb a b = true -> a = b.
Proof.
  induction a as [|x a IH]; intros [|y b] H; simpl in H; try discriminate; [reflexivity|].
  apply andb_true_iff in H. destruct H as [H1 H2]. apply N.eqb_eq in H1. f_equal; auto.
Qed.

Lemma path_eqb_eq p : forall q, path_eqb p q = true -> p = q.
Proof.
  induction p as [|a p IH]; intros [|b q] H; simpl in H; try discriminate; [reflexivity|].
  apply andb_true_iff in H. destruct H as [H1 H2]. apply str_eqb_true in H1. f_equal; auto.
Qed.

Lemma preserved_refl f : preserved f f.
Proof. intros p _. reflexivity. Qed.

Lemma preserved_trans f1 f2 f3 : preserved f1 f2 -> preserved f2 f3 -> preserved f1 f3.
Proof.
  intros H12 H23 p Hp. rewrite <- (H12 p Hp). apply H23.
  destruct Hp as [Hp|Hp]; [left|right; exact Hp].
  rewrite (H12 p (or_introl Hp)). exact Hp.
Qed.

(** [mkdir(exist_ok=True)] of a directory directly under the working
    directory: it is created when the name is free, left alone when it is a
    directory, and [FileExistsError] is raised when it is a file. *)
Lemma mkdir_top (name : str) (w : world) :
  let '(w', r) := mkdir false true [name] w in
  preserved (w_fs w) (w_fs w') /\ w_out w' = w_out w
  /\ (r = Ok tt \/ exists args, r = Raise (mk_exn FileExistsError args)).
Proof.
  unfold mkdir. cbn [rev app mkdir_rev]. unfold try_except, os_mkdir, bind, get_fs, put_fs, raise.
  cbn [lookup parent removelast w_fs].
  destruct (w_fs w [name]) as [[|text]|] eqn:E; cbn.
  - unfold is_dir, lookup. rewrite E. cbn. split; [apply preserved_refl|split; [reflexivity|left; reflexivity]].
  - unfold is_dir, lookup. rewrite E. cbn. split; [apply preserved_refl|split; [reflexivity|right; eauto]].
  - split; [|split; [reflexivity|left; reflexivity]].
    intros p Hp. unfold fs_set. destruct (path_eqb p [name]) eqn:Ep; [|reflexivity].
    destruct Hp as [Hp|Hp].
    + apply path_eqb_eq in Ep. subst p. contradiction.
    + apply path_eqb_length in Ep. simpl in Ep. contradiction.
Qed.

Section Create.
Context {U : Unicode}.
Variable os_system : str -> fs -> fs.

Lemma check_dirs (w : world) :
  exists_ (w_fs w) source_posts = true ->
  let '(w', r) := check_get_make_dirs w in
  preserved (w_fs w) (w_fs w') /\ w_out w' = w_out w
  /\ (r = Ok (source_posts, [lit "_draft"], [lit "_hidden"], [lit "_archived"])
      \/ exists args, r = Raise (mk_exn FileExistsError args)).
Proof.
  intros Hroot. unfold check_get_make_dirs. cbn [app].
  unfold bind at 1. unfold get_fs at 1. rewrite Hroot. cbn [negb].
  unfold bind at 1.
  pose proof (mkdir_top (lit "_draft") w) as H1.
  destruct (mkdir false true [lit "_draft"] w) as [w1 r1].
  destruct H1 as (P1 & O1 & [->|[args ->]]); [|repeat split; eauto].
  unfold bind at 1.
  pose proof (mkdir_top (lit "_hidden") w1) as H2.
  destruct (mkdir false true [lit "_hidden"] w1) as [w2 r2].
  destruct H2 as (P2 & O2 & [->|[args ->]]).
  2:{ split; [eapply preserved_trans; eauto|]. split; [congruence|eauto]. }
  unfold bind at 1.
  pose proof (mkdir_top (lit "_archived") w2) as H3.
  destruct (mkdir false true [lit "_archived"] w2) as [w3 r3].
  destruct H3 as (P3 & O3 & [->|[args ->]]).
  2:{ split; [eapply preserved_trans; [eapply preserved_trans|]; eauto|]. split; [congruence|eauto]. }
  cbn. split; [eapply preserved_trans; [eapply preserved_trans|]; eauto|]. split; [congruence|eauto].
Qed.

Lemma draft_dir_preserved (filename : str) (f f' : fs) p :
  preserved f f' ->
  exists_ f (draft_dir_of filename) = true ->
  under (draft_dir_of filename) p = true ->
  f' p = f p.
Proof.
  intros Hp He Hu. apply Hp. unfold draft_dir_of, child in *.
  destruct filename as [|c filename].
  - destruct p as [|a [|b p]].
    + discriminate Hu.
    + left. cbn [under] in Hu. rewrite andb_true_r in Hu. apply str_eqb_true in Hu. subst a.
      unfold exists_, lookup in He. intros E. rewrite E in He. discriminate.
    + right. simpl. lia.
  - right. destruct p as [|a [|b p]]; cbn [under app length] in *; try discriminate; try lia.
    all: rewrite andb_false_r in Hu; discriminate.
Qed.

Lemma exists_preserved (f f' : fs) p :
  preserved f f' -> exists_ f p = true -> exists_ f' p = true.
Proof.
  intros Hp He. unfold exists_, lookup in *. destruct p as [|a p]; [reflexivity|].
  rewrite Hp; [exact He|]. left. intros E. rewrite E in He. discriminate.
Qed.

(** C9: in a blog root where the draft directory of the normalized
  filename exists, creating a draft fails with the already-exists error
  ([FileExistsError]); no file or directory that existed is altered, in
  particular nothing in the draft directory. *)
Theorem second_create_fails (title filename : str) (w : world) :
  exists_ (w_fs w) source_posts = true ->
  returned (title2filename title) w = Ok filename ->
  exists_ (w_fs w) (draft_dir_of filename) = true ->
  let '(w', r) := new_draft os_system title w in
  (exists args, r = Raise (mk_exn FileExistsError args))
  /\ (forall p, under (draft_dir_of filename) p = true -> w_fs w' p = w_fs w p)
  /\ (forall p, w_fs w p <> None -> w_fs w' p = w_fs w p).
Proof.
  intros Hroot Hname Hdraft. unfold new_draft. unfold bind at 1.
  pose proof (check_dirs w Hroot) as Hc.
  destruct (check_get_make_dirs w) as [w1 r1].
  destruct Hc as (P1 & O1 & [->|[args ->]]).
  2:{ split; [eauto|]. split.
      - intros p Hp. eapply draft_dir_preserved; eauto.
      - intros p Hp. apply P1. left. exact Hp. }
  apply title2filename_returned in Hname. destruct Hname as [-> Hlen].
  assert (Ht : returned (title2filename title) w1 = Ok (converted title)).
  { apply title2filename_returned. split; [reflexivity|exact Hlen]. }
  unfold returned in Ht.
  assert (Hfs : w_fs (fst (title2filename title w1)) = w_fs w1).
  { unfold title2filename.
    destruct (255 <? length (converted title)); [reflexivity|].
    destruct (64 <? length (converted title)); reflexivity. }
  unfold bind at 1. destruct (title2filename title w1) as [w2 r2].
  cbn [snd fst] in Ht, Hfs. subst r2.
  unfold bind at 1. unfold get_fs at 1.
  change (child [lit "_draft"] (converted title)) with (draft_dir_of (converted title)).
  rewrite Hfs. rewrite (exists_preserved _ P1 Hdraft).
  unfold raise. split; [eauto|]. rewrite Hfs. split.
  - intros p Hp. eapply draft_dir_preserved; eauto.
  - intros p Hp. apply P1. left. exact Hp.
Qed.
End Create.

(** ** The first-level title remover *)

(** C5: of two first-level titles in a row only the first is removed: its
    match takes the newline that the second one needs before it. *)
Theorem second_title_in_a_row_stays :
  remove_first_level_titles (U := unicode_excerpt) two_titles
  = lit "intro# B" ++ NL :: lit "text" ++ [NL].
Proof. vm_compute. reflexivity. Qed.

(** ** The front-matter *)

(** C8: with an empty [cover] field the substitution runs over the newline
    and replaces the next line too: here the closing delimiter of the
    front-matter is lost. *)
Theorem empty_cover_takes_next_line :
  let w := mk_world blog_with_draft [] in
  let '(w', r) :=
    change_front_matter (U := unicode_excerpt)
      [lit "_draft"; lit "tom--jerry"] (lit "tom--jerry") (lit "Tom & Jerry") w in
  r = Ok tt /\ w_fs w' draft_file = Some (File post_after_change).
Proof. vm_compute. split; reflexivity. Qed.

(** ** The image-path stripper on documents *)

Section Docs.
Context {U : Unicode}.

Lemma code_no_match flag prev (s : str) adv :
  match s with c :: _ => c <> 96%N /\ c <> 126%N | [] => True end ->
  match_at (code_block_pattern flag) prev s adv = None.
Proof.
  intros H. unfold match_at, code_block_pattern, tilde_fence, backtick_fence, inline_code.
  destruct s as [|c s]; [destruct flag; reflexivity|].
  destruct H as [H1 H2].
  assert (E1 : char_eqb TILDE c = false).
  { unfold char_eqb, TILDE. destruct (N.eqb_spec 126 c); [congruence|reflexivity]. }
  assert (E2 : char_eqb BACKTICK c = false).
  { unfold char_eqb, BACKTICK. destruct (N.eqb_spec 96 c); [congruence|reflexivity]. }
  destruct flag; cbn [mtch strip_prefix]; rewrite ?E1, ?E2; reflexivity.
Qed.

Lemma scan_code_none flag (s : str) : forall prev pos,
  Forall (fun c => c <> 96%N /\ c <> 126%N) s ->
  hits (scan (code_block_pattern flag) prev s pos 0) = [].
Proof.
  induction s as [|c s IH]; intros prev pos H.
  - cbn [scan]. rewrite code_no_match by exact I. reflexivity.
  - inversion H as [|? ? Hc H']; subst. cbn [scan].
    rewrite code_no_match by exact Hc. cbn [app hits]. apply IH. exact H'.
Qed.

Lemma finditer_code_none flag (s : str) :
  Forall (fun c => c <> 96%N /\ c <> 126%N) s ->
  finditer (code_block_pattern flag) s = [].
Proof. apply scan_code_none. Qed.

(** A document without backtick and tilde is prose as a whole. *)
Lemma avoid_plain (s : str) f flag :
  Forall (fun c => c <> 96%N /\ c <> 126%N) s ->
  s <> [] ->
  avoid_process_code_blocks s f flag = f s.
Proof.
  intros H Hne. unfold avoid_process_code_blocks. rewrite (finditer_code_none flag H).
  cbn [fold_left]. destruct s as [|c s]; [congruence|].
  cbn. apply app_nil_r.
Qed.

(** C6, amended.  For an image directory without regular-expression
    metacharacters (the default [img/] is one): the stripper maps its
    rewriting over the prose spans of the document.  On prose made of links
    (label on one line without [](], non-empty path without [)]) and of
    other text without [](], the substitution of the Markdown pattern
    takes the directory from every link whose path begins with it and
    leaves every other link and the other text as they are; where [<img]
    does not occur that is all the rewriting does, on a prose span and on a
    whole document of that shape without backtick and tilde; and the two
    examples of the specification hold. *)
Theorem image_prefix_stripped (img_dir : str) :
  literal_dir img_dir ->
  (forall s, remove_img_path_in_md s img_dir
             = concat (map (span_out (img_process_non_code img_dir)) (spans true s)))
  /\ (forall items, Forall (img_item_ok img_dir) items -> separated items ->
        re_sub (img_insert_pattern img_dir) replace_img_path
          (concat (map (img_item_source img_dir) items))
        = concat (map img_item_target items))
  /\ (forall items, Forall (img_item_ok img_dir) items -> separated items ->
        lacks (lit "<img") (concat (map (img_item_source img_dir) items)) = true ->
        img_process_non_code img_dir (concat (map (img_item_source img_dir) items))
        = concat (map img_item_target items))
  /\ (forall items, Forall (img_item_ok img_dir) items -> separated items ->
        lacks (lit "<img") (concat (map (img_item_source img_dir) items)) = true ->
        Forall (fun c => c <> 96%N /\ c <> 126%N)
          (concat (map (img_item_source img_dir) items)) ->
        remove_img_path_in_md (concat (map (img_item_source img_dir) items)) img_dir
        = concat (map img_item_target items))
  /\ remove_img_path_in_md (lit "[cat](img/cat.png)") default_img_dir
     = lit "[cat](cat.png)"
  /\ remove_img_path_in_md (lit "[cat](other/cat.png)") default_img_dir
     = lit "[cat](other/cat.png)".
Proof.
  intros Hd. split; [|split; [|split; [|split; [|split]]]].
  - intros s. apply avoid_as_spans.
  - intros items Hok Hsep.
    apply (@img_items_pass1 img_dir items Hd Hok Hsep [] None 0
             (or_introl eq_refl) eq_refl (or_introl eq_refl)).
  - intros items Hok Hsep Hno. apply img_items; assumption.
  - intros items Hok Hsep Hno Hplain. unfold remove_img_path_in_md.
    destruct (concat (map (img_item_source img_dir) items)) as [|c s] eqn:E.
    + pose proof (img_items Hd Hok Hsep) as H. rewrite E in H. rewrite <- H; reflexivity.
    + rewrite <- E in *. rewrite avoid_plain; [apply img_items; assumption|exact Hplain|].
      rewrite E. discriminate.
  - vm_compute. reflexivity.
  - vm_compute. reflexivity.
Qed.
End Docs.

(** C6: the claim fails for a link whose label runs over two lines: the
    pattern does not cross the newline and the prefix stays. *)
Lemma two_line_label_keeps_prefix :
  remove_img_path_in_md (U := unicode_excerpt)
    (lit "[a" ++ NL :: lit "b](img/c.png)") default_img_dir
  = lit "[a" ++ NL :: lit "b](img/c.png)".
Proof. vm_compute. reflexivity. Qed.

Lemma image_prefix_stripped_witness :
  remove_img_path_in_md (U := unicode_excerpt)
    (lit "see [1] and [cat](img/cat.png), a < b, [dog](pets/dog.png).") default_img_dir
  = lit "see [1] and [cat](cat.png), a < b, [dog](pets/dog.png).".
Proof.
  assert (Hd : literal_dir default_img_dir).
  { repeat (constructor; [reflexivity|]). constructor. }
  apply (proj1 (proj2 (proj2 (proj2 (image_prefix_stripped (U := unicode_excerpt) Hd))))
           [IText (lit "see [1] and "); ILink (lit "cat") (lit "cat.png");
            IText (lit ", a < b, "); IOther (lit "dog") (lit "pets/dog.png");
            IText (lit ".")]).
  - repeat constructor; try discriminate; try reflexivity.
  - cbn. repeat split; reflexivity.
  - reflexivity.
  - repeat constructor; discriminate.
Defined.

(** C7: the claim fails for a comment without white space around its text:
    the document is left as it is. *)
Lemma tight_comment_is_not_converted :
  replace_url_to_card (U := unicode_excerpt)
    (lit "<!--github-->" ++ NL :: lit "[GitHub](https://github.com)")
  = Ok (lit "<!--github-->" ++ NL :: lit "[GitHub](https://github.com)").
Proof. vm_compute. reflexivity. Qed.

Lemma annotated_links_become_cards_witness :
  replace_url_to_card (U := unicode_excerpt)
    (lit "if a < b, see <b>this</b>:" ++ NL :: lit "<!-- github -->" ++ NL
       :: lit "[GitHub](https://github.com)" ++ NL :: lit "<!-- done -->")
  = Ok (lit "if a < b, see <b>this</b>:" ++ NL
          :: card (lit "GitHub") (lit "https://github.com") github_icon
          ++ NL :: lit "<!-- done -->").
Proof.
  assert (Hzh : lower (U := unicode_excerpt) zhihu_cn = zhihu_cn) by (vm_compute; reflexivity).
  apply (proj1 (annotated_links_become_cards (U := unicode_excerpt) Hzh)
           [CText (lit "if a < b, see <b>this</b>:" ++ [NL]);
            CLink 32%N (lit "github") 32%N (lit "GitHub") (lit "https://github.com");
            CText (NL :: lit "<!-- done -->")]).
  - repeat constructor; try discriminate; reflexivity.
  - cbn. repeat split; reflexivity.
Defined.

Lemma second_create_fails_witness :
  let w := mk_world blog_with_draft [] in
  let '(w', r) := new_draft (U := unicode_excerpt) (fun _ f => f) (lit "Tom & Jerry") w in
  (exists args, r = Raise (mk_exn FileExistsError args))
  /\ (forall p, under (draft_dir_of (lit "tom--jerry")) p = true -> w_fs w' p = w_fs w p)
  /\ (forall p, w_fs w p <> None -> w_fs w' p = w_fs w p).
Proof.
  apply (@second_create_fails unicode_excerpt (fun _ f => f) (lit "Tom & Jerry")
           (lit "tom--jerry") (mk_world blog_with_draft [])).
  - vm_compute. reflexivity.
  - vm_compute. reflexivity.
  - vm_compute. reflexivity.
Defined.

(** * Further properties *)

(** ** The scanner, with positions *)

Lemma scan_copy_at r (gap : str) : forall prev pos (s : str),
  (forall l1 c l2 pv adv, gap = l1 ++ c :: l2 ->
     match_at r pv (c :: l2 ++ s) adv = None) ->
  exists prev',
    scan r prev (gap ++ s) pos 0 = map Copy gap ++ scan r prev' s (pos + length gap) 0.
Proof.
  induction gap as [|c gap IH]; intros prev pos s H.
  - exists prev. rewrite Nat.add_0_r. reflexivity.
  - destruct (IH (Some c) (S pos) s) as (prev' & E).
    { intros l1 d l2 pv adv Eg. apply (H (c :: l1) d l2 pv adv). rewrite Eg. reflexivity. }
    exists prev'. simpl app. cbn [scan].
    rewrite (H [] c gap prev false eq_refl). simpl. rewrite E.
    do 3 f_equal. lia.
Qed.

Lemma scan_hit_at r prev pos (m rest : str) g :
  m <> [] ->
  match_at r prev (m ++ rest) false = Some (length m, g) ->
  exists prev',
    scan r prev (m ++ rest) pos 0
    = Hit (mk_match pos (pos + length m) m g) :: scan r prev' rest (pos + length m) 0.
Proof.
  intros Hm E. destruct m as [|c m]; [congruence|].
  simpl length in *. simpl app in *. cbn [scan]. rewrite E.
  destruct (@scan_skip r (m ++ rest) (Some c) (S pos) (length m)) as (prev' & Es).
  { rewrite length_app. lia. }
  exists prev'. simpl app. rewrite Es.
  unfold hit. rewrite skipn_app, skipn_all, Nat.sub_diag. simpl skipn. simpl app.
  replace (S pos + length m) with (pos + S (length m)) by lia.
  do 3 f_equal. change (c :: m ++ rest) with ((c :: m) ++ rest).
  change (S (length m)) with (length (c :: m)).
  rewrite firstn_app, Nat.sub_diag, firstn_all. simpl. rewrite app_nil_r. reflexivity.
Qed.

Lemma hits_copies (t : str) ps : hits (map Copy t ++ ps) = hits ps.
Proof. induction t as [|c t IH]; simpl; auto. Qed.

(** ** The rewriter on documents with one code block *)

Lemma plain_split (gap : str) l1 c l2 : plain gap -> gap = l1 ++ c :: l2 -> c <> 96%N /\ c <> 126%N.
Proof.
  intros H E. subst gap. apply Forall_app in H. destruct H as [_ H]. inversion H; auto.
Qed.

Lemma gap_before (a b : str) :
  (if 0 <? length a then [Prose (slice (a ++ b) 0 (length a))] else [])
  = match a with [] => [] | _ => [Prose a] end.
Proof.
  destruct a as [|c a]; [reflexivity|].
  replace (0 <? length (c :: a)) with true by (symmetry; apply Nat.ltb_lt; simpl; lia).
  unfold slice. rewrite Nat.sub_0_r. cbn [skipn].
  rewrite firstn_app, Nat.sub_diag, firstn_all. simpl firstn. rewrite app_nil_r. reflexivity.
Qed.

Lemma gap_after (a b : str) :
  (if length a <? length (a ++ b) then [Prose (skipn (length a) (a ++ b))] else [])
  = match b with [] => [] | _ => [Prose b] end.
Proof.
  rewrite skipn_app, skipn_all, Nat.sub_diag, length_app. cbn [skipn app].
  destruct b as [|c b].
  - rewrite Nat.add_0_r, Nat.ltb_irrefl. reflexivity.
  - replace (length a <? length a + length (c :: b)) with true
      by (symmetry; apply Nat.ltb_lt; simpl; lia).
    reflexivity.
Qed.

(** One block [blk] that the pattern matches whole, between two plain
    stretches: the block is copied and the transform runs on each
    non-empty stretch. *)
Lemma avoid_one_block flag g (pre blk post : str) f :
  plain pre -> plain post -> blk <> [] ->
  (forall prev, match_at (code_block_pattern flag) prev (blk ++ post) false
                = Some (length blk, g)) ->
  avoid_process_code_blocks (pre ++ blk ++ post) f flag
  = on_gap f pre ++ blk ++ on_gap f post.
Proof.
  intros Hpre Hpost Hne Hm. rewrite avoid_as_spans. unfold spans, finditer.
  destruct (@scan_copy_at (code_block_pattern flag) pre None 0 (blk ++ post)) as (p1 & E1).
  { intros l1 c l2 pv adv E. apply code_no_match. cbv iota.
    exact (@plain_split pre l1 c l2 Hpre E). }
  destruct (@scan_hit_at (code_block_pattern flag) p1 (0 + length pre) blk post g Hne (Hm p1))
    as (p2 & E2).
  rewrite E1, E2, hits_copies. cbn [hits].
  rewrite (scan_code_none flag p2 (0 + length pre + length blk) Hpost).
  cbn [spans_from m_start m_end m_text]. simpl (0 + length pre).
  rewrite gap_before.
  replace (length pre + length blk) with (length (pre ++ blk)) by apply length_app.
  rewrite (app_assoc pre blk post), gap_after.
  rewrite map_app, concat_app.
  destruct pre as [|c pre]; destruct post as [|d post];
    cbn [map concat span_out on_gap app]; rewrite ?app_nil_r; reflexivity.
Qed.

Lemma fence_match R (q : char) (body tail : str) prev g x
    (k : option char -> str -> caps -> option R) :
  Forall (fun c => c <> q) body ->
  (forall pv, k pv tail g = Some x) ->
  mtch (Seq (Lit [q; q; q]) (Seq (Rep false 0 None any_char) (Lit [q; q; q])))
    prev ([q; q; q] ++ body ++ [q; q; q] ++ tail) g k = Some x.
Proof.
  intros Hb Hk. rewrite mtch_lit. cbn [mtch].
  apply rep_lazy_found.
  - apply Forall_any.
  - intros pv l1 c l2 E. cbn [strip_prefix]. unfold char_eqb.
    destruct (N.eqb_spec q c) as [Ec|Ec]; [|reflexivity].
    exfalso. subst body. apply Forall_app in Hb. destruct Hb as [_ Hb].
    inversion Hb; subst. congruence.
  - intros pv. rewrite strip_prefix_app. apply Hk.
Qed.

Lemma group_whole (m tail : str) :
  firstn (length (m ++ tail) - length tail) (m ++ tail) = m.
Proof. apply firstn_captured. Qed.

Lemma tilde_block_match flag (body tail : str) prev :
  Forall (fun c => c <> TILDE) body ->
  match_at (code_block_pattern flag) prev (tilde_block body ++ tail) false
  = Some (length (tilde_block body), [(1, tilde_block body)]).
Proof.
  intros Hb. unfold match_at.
  pose proof (@match_length_ok (tilde_block body) tail) as Hlen.
  pose proof (group_whole (tilde_block body) tail) as Hg.
  remember (length (tilde_block body)) as n eqn:En.
  set (K := fun (_ : option char) (s' : str) (g : caps) => _).
  assert (Ht : mtch tilde_fence prev (tilde_block body ++ tail) []
                 (fun prev' s' g' =>
                    K prev' s' ((1, firstn (length (tilde_block body ++ tail) - length s')
                                      (tilde_block body ++ tail)) :: g'))
               = Some (n, [(1, tilde_block body)])).
  { unfold tilde_fence, tilde_block at 1. rewrite <- !app_assoc.
    apply fence_match; [exact Hb|].
    intros pv. rewrite Hg. unfold K. apply Hlen. }
  destruct flag; unfold code_block_pattern; cbn [mtch]; rewrite Ht; reflexivity.
Qed.

Lemma backtick_block_match flag (body tail : str) prev :
  Forall (fun c => c <> BACKTICK) body ->
  match_at (code_block_pattern flag) prev (backtick_block body ++ tail) false
  = Some (length (backtick_block body), [(1, backtick_block body)]).
Proof.
  intros Hb. unfold match_at.
  pose proof (@match_length_ok (backtick_block body) tail) as Hlen.
  pose proof (group_whole (backtick_block body) tail) as Hg.
  remember (length (backtick_block body)) as n eqn:En.
  set (K := fun (_ : option char) (s' : str) (g : caps) => _).
  assert (Ht : mtch backtick_fence prev (backtick_block body ++ tail) []
                 (fun prev' s' g' =>
                    K prev' s' ((1, firstn (length (backtick_block body ++ tail) - length s')
                                      (backtick_block body ++ tail)) :: g'))
               = Some (n, [(1, backtick_block body)])).
  { unfold backtick_fence, backtick_block at 1. rewrite <- !app_assoc.
    apply fence_match; [exact Hb|].
    intros pv. rewrite Hg. unfold K. apply Hlen. }
  assert (Hn : forall R (k : option char -> str -> caps -> option R),
             mtch tilde_fence prev (backtick_block body ++ tail) [] k = None).
  { intros R k. reflexivity. }
  destruct flag; unfold code_block_pattern; cbn [mtch]; rewrite Hn, Ht; reflexivity.
Qed.

Lemma inline_block_match (body tail : str) prev :
  Forall (fun c => c <> BACKTICK) body ->
  match tail with c :: _ => c <> BACKTICK | [] => True end ->
  match_at (code_block_pattern true) prev (inline_block body ++ tail) false
  = Some (length (inline_block body), [(1, inline_block body)]).
Proof.
  intros Hb Htail. unfold match_at.
  pose proof (@match_length_ok (inline_block body) tail) as Hlen.
  pose proof (group_whole (inline_block body) tail) as Hg.
  remember (length (inline_block body)) as n eqn:En.
  set (K := fun (_ : option char) (s' : str) (g : caps) => _).
  assert (Ht : mtch inline_code prev (inline_block body ++ tail) []
                 (fun prev' s' g' =>
                    K prev' s' ((1, firstn (length (inline_block body ++ tail) - length s')
                                      (inline_block body ++ tail)) :: g'))
               = Some (n, [(1, inline_block body)])).
  { unfold inline_code, inline_block at 1. rewrite <- !app_assoc.
    rewrite mtch_lit. cbn [mtch].
    apply rep_greedy_found.
    - apply Forall_not_char. exact Hb.
    - lia.
    - unfold not_char, char_eqb. cbn [app]. rewrite N.eqb_refl. reflexivity.
    - intros pv. rewrite strip_prefix_app. rewrite Hg. unfold K. apply Hlen. }
  assert (Hn1 : forall R (k : option char -> str -> caps -> option R),
             mtch tilde_fence prev (inline_block body ++ tail) [] k = None).
  { intros R k. reflexivity. }
  assert (Hn2 : forall R (k : option char -> str -> caps -> option R),
             mtch backtick_fence prev (inline_block body ++ tail) [] k = None).
  { intros R k. unfold backtick_fence, inline_block. cbn [mtch app strip_prefix].
    unfold char_eqb at 1. rewrite N.eqb_refl.
    destruct body as [|c body].
    - cbn [app strip_prefix]. unfold char_eqb at 1. rewrite N.eqb_refl.
      destruct tail as [|d tail]; [reflexivity|]. cbn [strip_prefix]. unfold char_eqb.
      destruct (N.eqb_spec BACKTICK d); [congruence|reflexivity].
    - cbn [app strip_prefix]. inversion Hb; subst. unfold char_eqb.
      destruct (N.eqb_spec BACKTICK c); [congruence|reflexivity]. }
  unfold code_block_pattern; cbn [mtch]; rewrite Hn1, Hn2, Ht; reflexivity.
Qed.

Lemma block_nonempty_b body : backtick_block body <> [].
Proof. discriminate. Qed.
Lemma block_nonempty_t body : tilde_block body <> [].
Proof. discriminate. Qed.
Lemma block_nonempty_i body : inline_block body <> [].
Proof. discriminate. Qed.

Lemma plain_head (post : str) :
  plain post -> match post with c :: _ => c <> BACKTICK | [] => True end.
Proof. intros H. destruct post; [exact I|]. inversion H; subst. tauto. Qed.

Lemma avoid_plain_gap (s : str) (f : str -> str) (flag : bool) :
  plain s -> avoid_process_code_blocks s f flag = on_gap f s.
Proof.
  intros H. destruct s as [|c s]; [destruct flag; reflexivity|].
  cbn [on_gap]. apply avoid_plain; [exact H|discriminate].
Qed.

(** X1: a document without backtick and tilde is one gap: the transform
    is applied once, to the whole document; on the empty document it is not
    called at all and the result is empty. *)
Theorem plain_document_is_one_gap (s : str) (f : str -> str) (flag : bool) :
  plain s -> avoid_process_code_blocks s f flag = on_gap f s.
Proof. intros H. apply avoid_plain_gap. exact H. Qed.

(** X2: a fenced block (backticks or tildes, whose body holds no fence
    character) between two stretches without backtick and tilde is copied
    as it is, whatever the transform, and the transform runs on each
    non-empty stretch; so does an inline span when inline code is
    protected. *)
Theorem code_block_is_protected (pre body post : str) (f : str -> str) :
  plain pre -> plain post ->
  (forall flag, Forall (fun c => c <> BACKTICK) body ->
     avoid_process_code_blocks (pre ++ backtick_block body ++ post) f flag
     = on_gap f pre ++ backtick_block body ++ on_gap f post)
  /\ (forall flag, Forall (fun c => c <> TILDE) body ->
     avoid_process_code_blocks (pre ++ tilde_block body ++ post) f flag
     = on_gap f pre ++ tilde_block body ++ on_gap f post)
  /\ (Forall (fun c => c <> BACKTICK) body ->
     avoid_process_code_blocks (pre ++ inline_block body ++ post) f true
     = on_gap f pre ++ inline_block body ++ on_gap f post).
Proof.
  intros Hpre Hpost. split; [|split].
  - intros flag Hb. apply (@avoid_one_block flag [(1, backtick_block body)]); auto.
    + apply block_nonempty_b.
    + intros prev. apply backtick_block_match. exact Hb.
  - intros flag Hb. apply (@avoid_one_block flag [(1, tilde_block body)]); auto.
    + apply block_nonempty_t.
    + intros prev. apply tilde_block_match. exact Hb.
  - intros Hb. apply (@avoid_one_block true [(1, inline_block body)]); auto.
    + apply block_nonempty_i.
    + intros prev. apply inline_block_match; [exact Hb|]. apply plain_head. exact Hpost.
Qed.

Lemma code_block_is_protected_witness :
  avoid_process_code_blocks
    (lit "a " ++ backtick_block (lit "x ~ y") ++ lit " b") (fun _ => lit "?") false
  = lit "?" ++ backtick_block (lit "x ~ y") ++ lit "?".
Proof.
  apply (proj1 (@code_block_is_protected (lit "a ") (lit "x ~ y") (lit " b")
                  (fun _ => lit "?")
                  ltac:(repeat constructor; discriminate)
                  ltac:(repeat constructor; discriminate)) false).
  repeat constructor; discriminate.
Defined.

Lemma plain_document_is_one_gap_witness :
  avoid_process_code_blocks (lit "no code here") (fun _ => lit "?") true = lit "?".
Proof.
  apply (@plain_document_is_one_gap (lit "no code here") (fun _ => lit "?") true).
  repeat constructor; discriminate.
Defined.

(** ** The first-level title remover *)

Section Titles.
Context {U : Unicode}.

Lemma no_title_start_split (s : str) :
  no_title_start s <-> (forall l1 l2, s = l1 ++ l2 -> ~ starts_title l2).
Proof.
  induction s as [|a s IH]; split.
  - intros _ l1 l2 E. symmetry in E. apply app_eq_nil in E. destruct E as [_ ->]. intros [].
  - intros _. exact I.
  - intros [H1 H2] l1 l2 E. destruct l1 as [|b l1].
    + simpl in E. subst l2. exact H1.
    + inversion E; subst. apply (proj1 IH H2 l1 l2 eq_refl).
  - intros H. split.
    + apply (H [] (a :: s) eq_refl).
    + apply IH. intros l1 l2 E. apply (H (a :: l1) l2). rewrite E. reflexivity.
Qed.

Lemma starts_title_app (l t : str) : starts_title l -> starts_title (l ++ t).
Proof. destruct l as [|a [|b [|c l]]]; simpl; auto; intros []. Qed.

Lemma no_title_start_suffix (l1 l2 : str) :
  no_title_start (l1 ++ l2) -> no_title_start l2.
Proof.
  rewrite !no_title_start_split. intros H a b E. apply (H (l1 ++ a) b).
  rewrite E, app_assoc. reflexivity.
Qed.

Lemma no_title_start_prefix (l1 l2 : str) :
  no_title_start (l1 ++ l2) -> no_title_start l1.
Proof.
  rewrite !no_title_start_split. intros H a b E Hs. apply (H a (b ++ l2)).
  - rewrite E, app_assoc. reflexivity.
  - apply starts_title_app. exact Hs.
Qed.

Lemma no_title_start_slice (s : str) a b :
  no_title_start s -> no_title_start (slice s a b).
Proof.
  intros H. unfold slice.
  rewrite <- (firstn_skipn a s) in H. apply no_title_start_suffix in H.
  rewrite <- (firstn_skipn (b - a) (skipn a s)) in H.
  apply no_title_start_prefix in H. exact H.
Qed.

Lemma no_title_start_skipn (s : str) a :
  no_title_start s -> no_title_start (skipn a s).
Proof.
  intros H. rewrite <- (firstn_skipn a s) in H. apply no_title_start_suffix in H. exact H.
Qed.

Lemma title_no_match prev (s : str) adv :
  ~ starts_title s ->
  match_at first_level_title_pattern prev s adv = None.
Proof.
  intros H. unfold match_at, first_level_title_pattern.
  cbn [mtch strip_prefix last_char].
  destruct s as [|a s]; [reflexivity|].
  unfold char_eqb at 1. destruct (N.eqb_spec NL a) as [Ea|Ea]; [|reflexivity].
  unfold char_eqb at 1. rewrite N.eqb_refl.
  change (lit "#") with [35%N]. cbn [strip_prefix].
  destruct s as [|b s]; [reflexivity|].
  unfold char_eqb at 1. destruct (N.eqb_spec 35 b) as [Eb|Eb]; [|reflexivity].
  rewrite rep_eq. cbv zeta. cbn [orelse].
  destruct s as [|c s]; [reflexivity|].
  destruct (isspace c) eqn:Ec; [|reflexivity].
  exfalso. apply H. repeat split; congruence.
Qed.

(** The substitution leaves a text as it is when no newline of the text is
    followed by [#]. *)
Lemma title_process_unchanged (t : str) :
  no_title_start t -> title_process_non_code t = t.
Proof.
  intros H. unfold title_process_non_code, re_sub.
  destruct (@scan_copy_at first_level_title_pattern t None 0 []) as (p & E).
  { intros l1 c l2 pv adv Et. apply title_no_match. rewrite app_nil_r.
    apply (proj1 (no_title_start_split t) H l1 (c :: l2) Et). }
  rewrite app_nil_r in E. rewrite E.
  assert (En : scan first_level_title_pattern p [] (0 + length t) 0 = []).
  { cbn [scan]. rewrite title_no_match by (intros []). reflexivity. }
  rewrite En, app_nil_r.
  change (concat (map (render (fun _ => [])) (map Copy t)))
    with (out (fun _ : re_match => @nil char) (map Copy t)).
  rewrite <- (app_nil_r (map Copy t)), out_copies. apply app_nil_r.
Qed.

Lemma spans_from_unchanged (f : str -> str) content ms : forall from,
  (forall a b, f (slice content a b) = slice content a b) ->
  (forall a, f (skipn a content) = skipn a content) ->
  map (span_out f) (spans_from content from ms) = map span_text (spans_from content from ms).
Proof.
  induction ms as [|m ms IH]; intros from H1 H2; cbn [spans_from].
  - destruct (from <? length content); cbn [map span_out span_text]; [rewrite H2|]; reflexivity.
  - rewrite !map_app. cbn [map span_out span_text]. rewrite IH by assumption.
    destruct (from <? m_start m); cbn [map span_out span_text]; [rewrite H1|]; reflexivity.
Qed.

Lemma titles_unchanged (s : str) :
  no_title_start s -> remove_first_level_titles s = s.
Proof.
  intros H. unfold remove_first_level_titles. rewrite avoid_as_spans. unfold spans.
  rewrite spans_from_unchanged.
  - apply (spans_text s _ 0). apply finditer_spans_ok.
  - intros a b. apply title_process_unchanged. apply no_title_start_slice. exact H.
  - intros a. apply title_process_unchanged. apply no_title_start_skipn. exact H.
Qed.

(** X3: a document in which no place begins like a first-level title (a
    newline, [#] and a white-space character) is returned unchanged: a
    title on the first line stays, and so do the titles of lower levels. *)
Theorem no_title_start_unchanged (s : str) :
  no_title_start s -> remove_first_level_titles s = s.
Proof. intros H. apply titles_unchanged. exact H. Qed.

Lemma title_line_match (ws body post : str) prev :
  title_line_ok ws body ->
  match_at first_level_title_pattern prev (title_line ws body ++ post) false
  = Some (length (title_line ws body), []).
Proof.
  intros (Hne & Hws & Hhead & Hbody).
  unfold match_at, first_level_title_pattern.
  pose proof (@match_length_ok (title_line ws body) post) as Hlen.
  remember (length (title_line ws body)) as n eqn:En.
  set (K := fun (_ : option char) (s' : str) (g : caps) => _).
  unfold title_line. cbn [app]. rewrite <- !app_assoc. cbn [app].
  change (NL :: 35%N :: ws ++ body ++ NL :: post)
    with ([NL] ++ 35%N :: ws ++ body ++ NL :: post).
  rewrite mtch_lit. cbn [last_char]. cbn [mtch].
  unfold char_eqb at 1. rewrite N.eqb_refl.
  change (lit "#") with [35%N]. cbn [strip_prefix].
  unfold char_eqb at 1. rewrite N.eqb_refl.
  apply rep_greedy_found.
  - exact Hws.
  - destruct ws; [congruence|simpl; lia].
  - destruct body as [|c body]; [contradiction|]. exact Hhead.
  - intros pv. apply rep_greedy_found.
    + eapply Forall_impl; [|exact Hbody]. intros c Hc. unfold dot, char_eqb.
      destruct (N.eqb_spec c NL); [congruence|reflexivity].
    + destruct body; [contradiction|simpl; lia].
    + reflexivity.
    + intros pv'. cbn [strip_prefix]. unfold char_eqb. rewrite N.eqb_refl.
      unfold K. apply Hlen.
Qed.

(** The substitution on a text with one title line. *)
Lemma title_process_one (pre ws body post : str) :
  no_title_start (pre ++ [NL]) -> no_title_start post -> title_line_ok ws body ->
  title_process_non_code (pre ++ title_line ws body ++ post) = pre ++ post.
Proof.
  intros Hpre Hpost Hok. unfold title_process_non_code, re_sub.
  destruct (@scan_copy_at first_level_title_pattern pre None 0 (title_line ws body ++ post))
    as (p1 & E1).
  { intros l1 c l2 pv adv Et. apply title_no_match. intros Hs.
    apply (proj1 (no_title_start_split (pre ++ [NL])) Hpre l1 (c :: l2 ++ [NL])).
    - rewrite Et, <- app_assoc. reflexivity.
    - unfold title_line in Hs. destruct l2 as [|b [|b' l2]]; cbn [app] in *.
      + destruct Hs as (_ & Hb & _). unfold NL in Hb. discriminate.
      + exact Hs.
      + exact Hs. }
  destruct (@scan_hit_at first_level_title_pattern p1 (0 + length pre) (title_line ws body)
              post [])
    as (p2 & E2).
  { discriminate. }
  { apply title_line_match. exact Hok. }
  destruct (@scan_copy_at first_level_title_pattern post p2
              (0 + length pre + length (title_line ws body)) []) as (p3 & E3).
  { intros l1 c l2 pv adv Et. apply title_no_match. rewrite app_nil_r.
    apply (proj1 (no_title_start_split post) Hpost l1 (c :: l2) Et). }
  rewrite app_nil_r in E3.
  assert (En : forall pos, scan first_level_title_pattern p3 [] pos 0 = []).
  { intros pos. cbn [scan]. rewrite title_no_match by (intros []). reflexivity. }
  rewrite E1, E2, E3, En, app_nil_r.
  rewrite map_app, concat_app. cbn [map concat render app].
  change (concat (map (render (fun _ => [])) (map Copy pre)))
    with (out (fun _ : re_match => @nil char) (map Copy pre)).
  change (concat (map (render (fun _ => [])) (map Copy post)))
    with (out (fun _ : re_match => @nil char) (map Copy post)).
  rewrite <- (app_nil_r (map Copy pre)), <- (app_nil_r (map Copy post)), !out_copies.
  unfold out. cbn. rewrite !app_nil_r. reflexivity.
Qed.

(** X4: in a document without backtick and tilde, a title line between
    two texts in which no place begins like a first-level title (the text
    before taken with the newline of the title line) is removed with the
    newline before it and the newline after it: the text before and the
    text after are joined. *)
Theorem title_line_removed (pre ws body post : str) :
  plain (pre ++ title_line ws body ++ post) ->
  no_title_start (pre ++ [NL]) -> no_title_start post -> title_line_ok ws body ->
  remove_first_level_titles (pre ++ title_line ws body ++ post) = pre ++ post.
Proof.
  intros Hplain Hpre Hpost Hok. unfold remove_first_level_titles.
  rewrite avoid_plain.
  - apply title_process_one; assumption.
  - exact Hplain.
  - destruct pre; discriminate.
Qed.
End Titles.

Ltac no_titles :=
  cbn; repeat split; intros H; try contradiction;
  destruct H as (H1 & H2 & H3);
  first [discriminate H1 | discriminate H2 | discriminate H3].

Lemma no_title_start_unchanged_witness :
  remove_first_level_titles (U := unicode_excerpt)
    (lit "# Title" ++ NL :: lit "## Part `# x`" ++ [NL])
  = lit "# Title" ++ NL :: lit "## Part `# x`" ++ [NL].
Proof.
  apply (@no_title_start_unchanged unicode_excerpt).
  no_titles.
Defined.

Lemma title_line_removed_witness :
  remove_first_level_titles (U := unicode_excerpt)
    (lit "intro" ++ title_line (lit " ") (lit "Title") ++ lit "text")
  = lit "intro" ++ lit "text".
Proof.
  apply (@title_line_removed unicode_excerpt (lit "intro") (lit " ") (lit "Title") (lit "text")).
  - repeat constructor; discriminate.
  - no_titles.
  - no_titles.
  - split; [discriminate|]. split; [repeat constructor|].
    split; [reflexivity|repeat constructor; discriminate].
Defined.

(** ** The image-path stripper on HTML tags *)

Section HtmlTags.
Context {U : Unicode}.

Lemma img_tag_match (d ws : str) q1 (rest : str) q2 (tail : str) prev :
  img_tag_ok ws q1 rest q2 ->
  match_at (html_img_tag_pattern d) prev (img_tag ws q1 (d ++ rest) q2 ++ tail) false
  = Some (length (img_tag ws q1 (d ++ rest) q2), [(1, rest)]).
Proof.
  intros (Hne & Hws & Hq1 & Hq2 & Hrne & Hrest).
  unfold match_at, html_img_tag_pattern.
  pose proof (@match_length_ok (img_tag ws q1 (d ++ rest) q2) tail) as Hlen.
  remember (length (img_tag ws q1 (d ++ rest) q2)) as n eqn:En.
  set (K := fun (_ : option char) (s' : str) (g : caps) => _).
  unfold img_tag. norm_app.
  rewrite mtch_lit. cbn [mtch].
  apply rep_greedy_found.
  - exact Hws.
  - destruct ws; [congruence|simpl; lia].
  - reflexivity.
  - intros pv. rewrite strip_prefix_app. rewrite Hq1. rewrite strip_prefix_app.
    apply rep_greedy_found.
    + eapply Forall_impl; [|exact Hrest]. intros c Hc. rewrite Hc. reflexivity.
    + destruct rest; [congruence|simpl; lia].
    + cbn [app]. rewrite Hq2. reflexivity.
    + intros pv'. cbn [app]. rewrite Hq2. rewrite firstn_captured.
      unfold K. apply Hlen.
Qed.

Lemma img_tag_nonempty ws q1 p q2 : img_tag ws q1 p q2 <> [].
Proof. discriminate. Qed.

(** The second substitution on a text with one tag. *)
Lemma html_pass_one (d pre ws : str) q1 (rest : str) q2 (post : str) :
  Forall (fun c => c <> 60%N) pre -> Forall (fun c => c <> 60%N) post ->
  img_tag_ok ws q1 rest q2 ->
  re_sub (html_img_tag_pattern d) replace_html_img_src
    (pre ++ img_tag ws q1 (d ++ rest) q2 ++ post)
  = pre ++ img_tag_out rest ++ post.
Proof.
  intros Hpre Hpost Hok. unfold re_sub.
  destruct (@scan_copy (html_img_tag_pattern d) 60%N pre None 0
              (img_tag ws q1 (d ++ rest) q2 ++ post) (begins_with_html d) Hpre)
    as (p1 & n1 & E1).
  destruct (@scan_hit (html_img_tag_pattern d) p1 n1 (img_tag ws q1 (d ++ rest) q2) post
              [(1, rest)] (@img_tag_nonempty ws q1 (d ++ rest) q2) (@img_tag_match d ws q1 rest q2 post p1 Hok))
    as (p2 & n2 & E2).
  destruct (@scan_copy (html_img_tag_pattern d) 60%N post p2 n2 [] (begins_with_html d) Hpost)
    as (p3 & n3 & E3).
  rewrite app_nil_r in E3.
  rewrite E1, E2, E3, (scan_nil p3 n3 (begins_with_html d)), app_nil_r.
  change (concat (map (render replace_html_img_src) ?x)) with (out replace_html_img_src x).
  fold (out replace_html_img_src
          (map Copy pre ++ Hit (mk_match n1 (n1 + length (img_tag ws q1 (d ++ rest) q2))
                                  (img_tag ws q1 (d ++ rest) q2) [(1, rest)]) :: map Copy post)).
  rewrite out_copies. unfold out at 1. cbn [map concat render].
  fold (out replace_html_img_src (map Copy post)).
  rewrite <- (app_nil_r (map Copy post)), out_copies.
  unfold out. cbn [map concat]. rewrite !app_nil_r. reflexivity.
Qed.

Lemma space_not_bracket (ws : str) :
  Forall (fun c => isspace c = true) ws -> Forall (fun c => c <> 91%N) ws.
Proof.
  intros H. eapply Forall_impl; [|exact H]. intros c Hc E. subst c. discriminate Hc.
Qed.

Lemma quote_not_bracket q : is_quote q = true -> q <> 91%N.
Proof. intros H E. subst q. discriminate H. Qed.

(** X5: for an image directory without regular-expression metacharacters,
    in a document without backtick, tilde and [[], an image tag whose
    [src] begins with the image directory, between two texts without [<],
    is rewritten to [img_tag_out rest]: the prefix is dropped, the white
    space before [src] becomes one space and both quotes become double
    quotes; what follows the closing quote is kept. *)
Theorem html_image_prefix_stripped (d pre ws : str) q1 (rest : str) q2 (post : str) :
  literal_dir d ->
  plain (pre ++ img_tag ws q1 (d ++ rest) q2 ++ post) ->
  Forall (fun c => c <> 91%N) (pre ++ img_tag ws q1 (d ++ rest) q2 ++ post) ->
  Forall (fun c => c <> 60%N) pre -> Forall (fun c => c <> 60%N) post ->
  img_tag_ok ws q1 rest q2 ->
  remove_img_path_in_md (pre ++ img_tag ws q1 (d ++ rest) q2 ++ post) d
  = pre ++ img_tag_out rest ++ post.
Proof.
  intros _ Hplain Hbr Hpre Hpost Hok. unfold remove_img_path_in_md.
  rewrite avoid_plain; [|exact Hplain|destruct pre; discriminate].
  unfold img_process_non_code.
  rewrite (re_sub_no_match replace_img_path (begins_with_img d) Hbr).
  apply html_pass_one; assumption.
Qed.
End HtmlTags.

Lemma html_image_prefix_stripped_witness :
  remove_img_path_in_md (U := unicode_excerpt)
    (lit "a " ++ img_tag (lit "  ") 39%N (lit "img/cat.png") 39%N ++ lit " alt='c'>")
    default_img_dir
  = lit "a " ++ img_tag_out (lit "cat.png") ++ lit " alt='c'>".
Proof.
  apply (@html_image_prefix_stripped unicode_excerpt default_img_dir (lit "a ") (lit "  ")
           39%N (lit "cat.png") 39%N (lit " alt='c'>")).
  - repeat constructor.
  - repeat constructor; discriminate.
  - repeat constructor; discriminate.
  - repeat constructor; discriminate.
  - repeat constructor; discriminate.
  - split; [discriminate|]. split; [repeat constructor|].
    split; [reflexivity|]. split; [reflexivity|].
    split; [discriminate|repeat constructor].
Defined.

(** ** The three transforms in a row *)

Section Pipeline.
Context {U : Unicode}.

Lemma img_unchanged (s d : str) :
  plain s -> Forall (fun c => c <> 91%N /\ c <> 60%N) s ->
  remove_img_path_in_md s d = s.
Proof.
  intros Hp Hs. unfold remove_img_path_in_md. rewrite avoid_plain_gap by exact Hp.
  destruct s as [|c s]; [reflexivity|]. cbn [on_gap]. unfold img_process_non_code.
  rewrite (re_sub_no_match replace_img_path (begins_with_img d)).
  - apply (re_sub_no_match replace_html_img_src (begins_with_html d)).
    eapply Forall_impl; [|exact Hs]. intros x [_ Hx]. exact Hx.
  - eapply Forall_impl; [|exact Hs]. intros x [Hx _]. exact Hx.
Qed.

Lemma card_unchanged (s : str) :
  Forall (fun c => c <> 60%N) s -> replace_url_to_card s = Ok s.
Proof.
  intros Hs. unfold replace_url_to_card, re_sub_try.
  destruct (@scan_copy card_pattern 60%N s None 0 [] begins_with_card Hs) as (p & n & E).
  rewrite app_nil_r in E. rewrite E, (scan_nil p n begins_with_card), splice_copies.
  cbn. rewrite app_nil_r. reflexivity.
Qed.

(** X6: a text without backtick, tilde, [[] and [<], in which no place
    begins like a first-level title (a newline, [#] and a white-space
    character), goes through the three transforms of the finalization
    unchanged. *)
Theorem plain_prose_is_published_verbatim (s : str) :
  plain s -> Forall (fun c => c <> 91%N /\ c <> 60%N) s -> no_title_start s ->
  finalize_content s = Ok s.
Proof.
  intros Hp Hs Ht. unfold finalize_content.
  rewrite (img_unchanged default_img_dir Hp Hs).
  rewrite titles_unchanged by exact Ht.
  apply card_unchanged. eapply Forall_impl; [|exact Hs]. intros x [_ Hx]. exact Hx.
Qed.
End Pipeline.

Lemma plain_prose_is_published_verbatim_witness :
  finalize_content (U := unicode_excerpt) (text_lines ["# Title"; "Some text."; "## Part"]%string)
  = Ok (text_lines ["# Title"; "Some text."; "## Part"]%string).
Proof.
  apply (@plain_prose_is_published_verbatim unicode_excerpt).
  - cbv. repeat constructor; intro; discriminate.
  - cbv. repeat constructor; intro; discriminate.
  - no_titles.
Defined.

(** ** The front-matter, continued *)

Lemma readlines_from_concat (s : str) : forall line_rev,
  concat (readlines_from line_rev s) = rev line_rev ++ s.
Proof.
  induction s as [|c s IH]; intros line_rev; cbn [readlines_from].
  - destruct line_rev; [reflexivity|]. cbn [concat]. rewrite !app_nil_r. reflexivity.
  - destruct (char_eqb c NL).
    + cbn [concat rev]. rewrite IH. cbn [rev app]. rewrite <- app_assoc. reflexivity.
    + rewrite IH. cbn [rev]. rewrite <- app_assoc. reflexivity.
Qed.

(** The lines of a file, put together again, are its text as it is read. *)
Lemma readlines_concat (s : str) : concat (readlines s) = universal_newlines s.
Proof. apply (readlines_from_concat (universal_newlines s) []). Qed.

Lemma index_of_nth x l : forall i,
  index_of x l = Some i -> nth_error l i = Some x.
Proof.
  induction l as [|y l IH]; intros i H; cbn [index_of] in H; [discriminate|].
  destruct (str_eqb y x) eqn:E.
  - inversion H; subst. apply str_eqb_true in E. subst. reflexivity.
  - destruct (index_of x l) as [j|]; [|discriminate]. inversion H; subst.
    cbn. apply IH. reflexivity.
Qed.

Lemma index_of_none x l : ~ In x l -> index_of x l = None.
Proof.
  induction l as [|y l IH]; intros H; cbn [index_of]; [reflexivity|].
  destruct (str_eqb y x) eqn:E.
  - apply str_eqb_true in E. subst. exfalso. apply H. left. reflexivity.
  - rewrite IH; [reflexivity|]. intros Hin. apply H. right. exact Hin.
Qed.

Lemma path_eqb_refl p : path_eqb p p = true.
Proof. induction p as [|a p IH]; cbn; [reflexivity|]. rewrite str_eqb_refl, IH. reflexivity. Qed.

Lemma lookup_child (f : fs) (d : path) (name : str) :
  name <> [] -> lookup f (child d name) = f (child d name).
Proof.
  intros H. unfold child. destruct name; [congruence|].
  unfold lookup. destruct d; reflexivity.
Qed.

Section FrontMatter.
Context {U : Unicode}.

Lemma md_name_nonempty (filename : str) : filename ++ lit ".md" <> [].
Proof. destruct filename; discriminate. Qed.

(** [change_front_matter] as one case analysis on the file. *)
Lemma change_front_matter_cases (target_dir : path) (filename title : str) (w : world) :
  let file := md_file target_dir filename in
  change_front_matter target_dir filename title w
  = match w_fs w file with
    | None => (w, Raise (mk_exn FileNotFoundError [show_path file]))
    | Some Dir => (w, Raise (mk_exn IsADirectoryError [show_path file]))
    | Some (File text) =>
        let lines := readlines text in
        match front_matter_end lines with
        | None => (w, Raise (mk_exn ValueError [lit "Invalid Front-matter format."]))
        | Some idx =>
            let front_matter := concat (firstn (idx + 1) lines) in
            match re_search date_pattern front_matter with
            | None =>
                (w, Raise (mk_exn ValueError [lit "Date field not found in Front-matter."]))
            | Some date_match =>
                match strptime_Y_m_d (fmt (m_group 1 date_match)) with
                | Raise e => (w, Raise e)
                | Ok date_obj =>
                    match re_sub_template title_pattern (lit "title: " ++ title)
                            front_matter with
                    | Raise e => (w, Raise e)
                    | Ok fm1 =>
                        match re_sub_template cover_pattern
                                (lit "cover: " ++ strftime_Y_m date_obj ++ lit "/"
                                   ++ filename ++ lit "/cover.jpg") fm1 with
                        | Raise e => (w, Raise e)
                        | Ok fm2 =>
                            (mk_world
                               (fs_set file
                                  (Some (File (fm2 ++ concat (skipn (idx + 1) lines))))
                                  (w_fs w))
                               (w_out w), Ok tt)
                        end
                    end
                end
            end
        end
    end.
Proof.
  cbv zeta. unfold change_front_matter, md_file.
  unfold bind at 1. unfold get_fs at 1.
  rewrite (lookup_child (w_fs w) target_dir (md_name_nonempty filename)).
  destruct (w_fs w (child target_dir (filename ++ lit ".md"))) as [[|text]|]; try reflexivity.
  destruct (front_matter_end (readlines text)) as [idx|]; [|reflexivity].
  destruct (re_search date_pattern _) as [m|]; [|reflexivity].
  unfold bind, lift, put_fs.
  destruct (strptime_Y_m_d _); [|reflexivity].
  destruct (re_sub_template title_pattern _ _); [|reflexivity].
  destruct (re_sub_template cover_pattern _ _); reflexivity.
Qed.

(** X7: when [change_front_matter] raises, nothing has been written and
    nothing printed: the world is as before.  It raises [FileNotFoundError]
    when the file is missing, and [ValueError] when no line after the first
    is the delimiter [---]. *)
Theorem change_front_matter_fails_cleanly
    (target_dir : path) (filename title : str) (w : world) :
  (forall e, returned (change_front_matter target_dir filename title) w = Raise e ->
     fst (change_front_matter target_dir filename title w) = w)
  /\ (w_fs w (md_file target_dir filename) = None ->
      exists args, returned (change_front_matter target_dir filename title) w
                   = Raise (mk_exn FileNotFoundError args))
  /\ (forall text, w_fs w (md_file target_dir filename) = Some (File text) ->
      ~ In (lit "---" ++ [NL]) (tl (readlines text)) ->
      returned (change_front_matter target_dir filename title) w
      = Raise (mk_exn ValueError [lit "Invalid Front-matter format."])).
Proof.
  unfold returned. rewrite change_front_matter_cases. cbv zeta.
  split; [|split].
  - intros e. destruct (w_fs w _) as [[|text]|]; [intros _; reflexivity| |intros _; reflexivity].
    destruct (front_matter_end (readlines text)) as [idx|]; [|intros _; reflexivity].
    destruct (re_search date_pattern _) as [m|]; [|intros _; reflexivity].
    destruct (strptime_Y_m_d _); [|intros _; reflexivity].
    destruct (re_sub_template title_pattern _ _); [|intros _; reflexivity].
    destruct (re_sub_template cover_pattern _ _); [|intros _; reflexivity].
    cbn [snd]. intros H. discriminate H.
  - intros E. rewrite E. cbn [snd]. eauto.
  - intros text E Hin. rewrite E. unfold front_matter_end.
    rewrite (index_of_none _ _ Hin). reflexivity.
Qed.

(** X8: when [change_front_matter] returns, the file, read with its line
    ends as newlines, is a front-matter that ends with the first delimiter
    line [---] after the first line, and a body; the body is in the file as
    it was read, after the new front-matter; no other file is touched and
    nothing is printed. *)
Theorem change_front_matter_keeps_body
    (target_dir : path) (filename title text : str) (w w' : world) :
  w_fs w (md_file target_dir filename) = Some (File text) ->
  change_front_matter target_dir filename title w = (w', Ok tt) ->
  exists idx front_matter',
    front_matter_end (readlines text) = Some idx
    /\ nth_error (readlines text) idx = Some (lit "---" ++ [NL])
    /\ universal_newlines text
       = concat (firstn (idx + 1) (readlines text))
         ++ concat (skipn (idx + 1) (readlines text))
    /\ w_fs w' (md_file target_dir filename)
       = Some (File (front_matter' ++ concat (skipn (idx + 1) (readlines text))))
    /\ (forall p, p <> md_file target_dir filename -> w_fs w' p = w_fs w p)
    /\ w_out w' = w_out w.
Proof.
  rewrite change_front_matter_cases. cbv zeta. intros E. rewrite E.
  destruct (front_matter_end (readlines text)) as [idx|] eqn:Ei; [|discriminate].
  destruct (re_search date_pattern _) as [m|]; [|discriminate].
  destruct (strptime_Y_m_d _); [|discriminate].
  destruct (re_sub_template title_pattern _ _); [|discriminate].
  destruct (re_sub_template cover_pattern _ _) as [fm'|]; [|discriminate].
  intros H. inversion H; subst. clear H. exists idx, fm'. cbn [w_fs w_out].
  split; [reflexivity|]. split.
  - unfold front_matter_end in Ei.
    destruct (index_of (lit "---" ++ [NL]) (tl (readlines text))) as [j|] eqn:Ej; [|discriminate].
    inversion Ei; subst. apply index_of_nth in Ej.
    destruct (readlines text); [destruct j; discriminate|]. exact Ej.
  - split; [|split; [|split; [|reflexivity]]].
    + rewrite <- concat_app, firstn_skipn. symmetry. apply readlines_concat.
    + unfold fs_set. rewrite path_eqb_refl. reflexivity.
    + intros p Hp. unfold fs_set. destruct (path_eqb p _) eqn:Ep; [|reflexivity].
      apply path_eqb_eq in Ep. contradiction.
Qed.
End FrontMatter.

Lemma change_front_matter_fails_cleanly_witness :
  returned (change_front_matter (U := unicode_excerpt) [lit "d"] (lit "f") (lit "T"))
    world_without_front_matter
  = Raise (mk_exn ValueError [lit "Invalid Front-matter format."]).
Proof.
  apply (proj2 (proj2 (@change_front_matter_fails_cleanly unicode_excerpt
                         [lit "d"] (lit "f") (lit "T") world_without_front_matter))
           (text_lines ["just"; "text"]%string)).
  - reflexivity.
  - cbn. intros [H|[]]. discriminate H.
Defined.

Lemma change_front_matter_keeps_body_witness :
  let w := mk_world blog_with_draft [] in
  let w' := fst (change_front_matter (U := unicode_excerpt)
                   [lit "_draft"; lit "tom--jerry"] (lit "tom--jerry") (lit "Tom & Jerry") w) in
  exists idx front_matter',
    front_matter_end (readlines post_with_empty_cover) = Some idx
    /\ nth_error (readlines post_with_empty_cover) idx = Some (lit "---" ++ [NL])
    /\ universal_newlines post_with_empty_cover
       = concat (firstn (idx + 1) (readlines post_with_empty_cover))
         ++ concat (skipn (idx + 1) (readlines post_with_empty_cover))
    /\ w_fs w' (md_file [lit "_draft"; lit "tom--jerry"] (lit "tom--jerry"))
       = Some (File (front_matter'
                       ++ concat (skipn (idx + 1) (readlines post_with_empty_cover))))
    /\ (forall p, p <> md_file [lit "_draft"; lit "tom--jerry"] (lit "tom--jerry") ->
          w_fs w' p = w_fs w p)
    /\ w_out w' = w_out w.
Proof.
  cbv zeta.
  apply (@change_front_matter_keeps_body unicode_excerpt
           [lit "_draft"; lit "tom--jerry"] (lit "tom--jerry") (lit "Tom & Jerry")
           post_with_empty_cover (mk_world blog_with_draft [])).
  - reflexivity.
  - vm_compute. reflexivity.
Defined.

(** ** The date of the front-matter *)

Lemma digit_value (c : char) :
  ascii_isdigit c = true -> (c - 48 < 10 /\ 48 + (c - 48) = c)%N.
Proof.
  unfold ascii_isdigit, in_range. intros H. apply andb_true_iff in H.
  destruct H as [H1 H2]. apply N.leb_le in H1, H2. lia.
Qed.

Lemma digit_char_last (q r : N) : (r < 10 -> digit_char (q * 10 + r) = 48 + r)%N.
Proof.
  intros Hr. unfold digit_char. f_equal. symmetry.
  apply (N.mod_unique _ 10%N q r Hr). lia.
Qed.

Lemma div_shift (q r k : N) : (r < k -> (q * k + r) / k = q)%N.
Proof.
  intros Hr. symmetry. apply (N.div_unique _ k q r Hr). lia.
Qed.

Lemma pad4_digits (a b c d : N) :
  (a < 10 -> b < 10 -> c < 10 -> d < 10 ->
   pad4 (a * 1000 + b * 100 + c * 10 + d) = [48 + a; 48 + b; 48 + c; 48 + d])%N.
Proof.
  intros Ha Hb Hc Hd. unfold pad4.
  set (n := (a * 1000 + b * 100 + c * 10 + d)%N).
  assert (E3 : (n / 1000 = a)%N).
  { replace n with (a * 1000 + (b * 100 + c * 10 + d))%N by (unfold n; lia).
    apply div_shift. lia. }
  assert (E2 : (n / 100 = a * 10 + b)%N).
  { replace n with ((a * 10 + b) * 100 + (c * 10 + d))%N by (unfold n; lia).
    apply div_shift. lia. }
  assert (E1 : (n / 10 = (a * 10 + b) * 10 + c)%N).
  { replace n with (((a * 10 + b) * 10 + c) * 10 + d)%N by (unfold n; lia).
    apply div_shift. lia. }
  assert (E0 : (n = ((a * 10 + b) * 10 + c) * 10 + d)%N) by (unfold n; lia).
  rewrite E3, E2, E1. rewrite E0 at 1.
  rewrite !digit_char_last by assumption.
  replace a with (0 * 10 + a)%N at 1 by lia.
  rewrite digit_char_last by assumption. reflexivity.
Qed.

Lemma pad2_digits (a b : N) :
  (a < 10 -> b < 10 -> pad2 (a * 10 + b) = [48 + a; 48 + b])%N.
Proof.
  intros Ha Hb. unfold pad2.
  rewrite (@div_shift a b 10) by lia.
  rewrite (@digit_char_last a b) by lia.
  replace a with (0 * 10 + a)%N at 1 by lia.
  rewrite (@digit_char_last 0 a) by lia. reflexivity.
Qed.

Section Dates.
Context {U : Unicode}.

(** A date with a year of four ASCII digits, the first of which is not
    [0], is formatted back to its own year and month. *)
Lemma year_month_digits (y1 y2 y3 y4 m1 m2 d1 d2 : char) (d : date) :
  forallb ascii_isdigit [y1; y2; y3; y4] = true ->
  y1 <> 48%N ->
  strptime_Y_m_d [y1; y2; y3; y4; 45%N; m1; m2; 45%N; d1; d2] = Ok d ->
  strftime_Y_m d = [y1; y2; y3; y4; 47%N; m1; m2].
Proof.
  intros Hy Hnz H. cbn [forallb] in Hy.
  repeat (apply andb_true_iff in Hy; destruct Hy as [?Hy Hy]).
  assert (Ey : forall c, ascii_isdigit c = true -> decimal c = Some (c - 48)%N).
  { intros c Hc. unfold decimal, is_ascii. rewrite Hc.
    unfold ascii_isdigit, in_range in Hc. apply andb_true_iff in Hc. destruct Hc as [_ Hc].
    apply N.leb_le in Hc. replace (c <? 128)%N with true; [reflexivity|].
    symmetry. apply N.ltb_lt. lia. }
  unfold strptime_Y_m_d in H. rewrite !Ey in H by assumption.
  destruct (decimal d2) as [e|]; [|discriminate].
  match type of H with (if ?c then _ else _) = _ => destruct c eqn:E end; [|discriminate].
  inversion H; subst d. clear H. unfold strftime_Y_m, year_digits. cbn [year month].
  apply andb_true_iff in E. destruct E as [E _].
  apply andb_true_iff in E. destruct E as [E _].
  apply andb_true_iff in E. destruct E as [E _].
  apply andb_true_iff in E. destruct E as [_ Hmonth].
  destruct (@digit_value y1 Hy0) as [L1 V1], (@digit_value y2 Hy1) as [L2 V2],
    (@digit_value y3 Hy2) as [L3 V3], (@digit_value y4 Hy3) as [L4 V4].
  set (Y := ((y1 - 48) * 1000 + (y2 - 48) * 100 + (y3 - 48) * 10 + (y4 - 48))%N).
  assert (HY : (1000 <= Y)%N) by (unfold Y; lia).
  rewrite (proj2 (N.ltb_ge Y 10)) by lia.
  rewrite (proj2 (N.ltb_ge Y 100)) by lia.
  rewrite (proj2 (N.ltb_ge Y 1000)) by lia.
  unfold Y. rewrite pad4_digits by assumption.
  assert (Hm : (m1 - 48 < 10 /\ m2 - 48 < 10 /\ 48 + (m1 - 48) = m1 /\ 48 + (m2 - 48) = m2)%N).
  { revert Hmonth. unfold char_eqb, in_range.
    destruct (N.eqb_spec m1 49), (N.eqb_spec m1 48),
      (N.leb_spec 48 m2), (N.leb_spec m2 50), (N.leb_spec 49 m2), (N.leb_spec m2 57);
      cbn [andb orb]; intros Hmonth; try discriminate Hmonth; lia. }
  destruct Hm as (L5 & L6 & V5 & V6).
  rewrite pad2_digits by assumption.
  rewrite V1, V2, V3, V4, V5, V6. reflexivity.
Qed.
End Dates.

(** ** What the finalization leaves alone *)

Lemma bind_ok A B (m : M A) (k : A -> M B) w w' b :
  bind m k w = (w', Ok b) -> exists w1 a, m w = (w1, Ok a) /\ k a w1 = (w', Ok b).
Proof.
  unfold bind. destruct (m w) as [w1 [a|e]]; intros H; [eauto|discriminate H].
Qed.

Lemma touches_ret A R (a : A) : touches_only R (ret a).
Proof. intros w p _. reflexivity. Qed.

Lemma touches_raise A R kind args : touches_only R (@raise A kind args).
Proof. intros w p _. reflexivity. Qed.

Lemma touches_reraise A R e : touches_only R (@reraise A e).
Proof. intros w p _. reflexivity. Qed.

Lemma touches_lift A R (r : result A) : touches_only R (lift r).
Proof. intros w p _. reflexivity. Qed.

Lemma touches_print R line : touches_only R (print line).
Proof. intros w p _. reflexivity. Qed.

Lemma touches_get_fs R : touches_only R get_fs.
Proof. intros w p _. reflexivity. Qed.

Lemma touches_bind A B R (m : M A) (k : A -> M B) :
  touches_only R m -> (forall a, touches_only R (k a)) -> touches_only R (bind m k).
Proof.
  intros Hm Hk w p Hp. unfold bind. specialize (Hm w p Hp).
  destruct (m w) as [w1 [a|e]]; cbn [fst] in *.
  - rewrite (Hk a w1 p Hp). exact Hm.
  - exact Hm.
Qed.

Lemma touches_try A R (m : M A) (handler : exn -> M A) :
  touches_only R m -> (forall e, touches_only R (handler e)) ->
  touches_only R (try_except m handler).
Proof.
  intros Hm Hk w p Hp. unfold try_except. specialize (Hm w p Hp).
  destruct (m w) as [w1 [a|e]]; cbn [fst] in *.
  - exact Hm.
  - rewrite (Hk e w1 p Hp). exact Hm.
Qed.

Lemma touches_if A R (b : bool) (m1 m2 : M A) :
  touches_only R m1 -> touches_only R m2 -> touches_only R (if b then m1 else m2).
Proof. destruct b; auto. Qed.

Lemma touches_for_each A R (body : A -> M unit) (xs : list A) :
  (forall x, touches_only R (body x)) -> touches_only R (for_each xs body).
Proof.
  intros Hb. induction xs as [|x xs IH]; cbn [for_each fold_right].
  - apply touches_ret.
  - apply touches_bind; [apply Hb|intros _; exact IH].
Qed.

(** Writing one entry. *)
Lemma touches_set R (p : path) (n : option node) (f : fs) :
  R p = true -> forall w q, R q = false -> w_fs w = f ->
  w_fs (fst (put_fs (fs_set p n f) w)) q = w_fs w q.
Proof.
  intros Hp w q Hq ->. cbn. unfold fs_set.
  destruct (path_eqb q p) eqn:E; [|reflexivity].
  apply path_eqb_eq in E. subst q. congruence.
Qed.

Lemma touches_os_mkdir R (p : path) : R p = true -> touches_only R (os_mkdir p).
Proof.
  intros Hp w q Hq. unfold os_mkdir, bind, get_fs.
  destruct (lookup (w_fs w) p) as [n|]; [reflexivity|].
  destruct (lookup (w_fs w) (parent p)) as [[|t]|]; try reflexivity.
  apply (@touches_set R p (Some Dir) (w_fs w) Hp w q Hq eq_refl).
Qed.

Lemma os_mkdir_root R : touches_only R (os_mkdir []).
Proof. intros w q Hq. reflexivity. Qed.

Lemma touches_mkdir_handler R exist_ok (p : path) (e : exn) :
  touches_only R (f <- get_fs ;; if exist_ok && is_dir f p then ret tt else reraise e).
Proof.
  apply touches_bind; [apply touches_get_fs|]. intros f.
  apply touches_if; [apply touches_ret|apply touches_reraise].
Qed.

Lemma touches_mkdir_flat R exist_ok (p : path) :
  p = [] \/ R p = true -> touches_only R (mkdir_flat exist_ok p).
Proof.
  intros Hp. unfold mkdir_flat. apply touches_try.
  - destruct Hp as [->|Hp]; [apply os_mkdir_root|apply touches_os_mkdir; exact Hp].
  - intros e. apply touches_if; [apply touches_reraise|apply touches_mkdir_handler].
Qed.

(** [mkdir(parents=True)] creates the path and the missing directories
    above it, and nothing else. *)
Lemma touches_mkdir_rev (a : str) (leaf_first : path) : forall parents exist_ok,
  rev leaf_first = [] \/ (exists rest, rev leaf_first = a :: rest) ->
  touches_only (under [a]) (mkdir_rev parents exist_ok leaf_first).
Proof.
  induction leaf_first as [|x up IH]; intros parents exist_ok Hp.
  - cbn [mkdir_rev rev]. apply touches_try; [apply os_mkdir_root|].
    intros e. apply touches_if; [apply touches_reraise|apply touches_mkdir_handler].
  - assert (Hx : under [a] (rev (x :: up)) = true).
    { destruct Hp as [Hp|[rest Hp]]; rewrite Hp.
      - cbn [rev] in Hp. destruct (rev up); discriminate Hp.
      - cbn [under]. rewrite str_eqb_refl. destruct rest; reflexivity. }
    cbn [mkdir_rev]. apply touches_try; [apply touches_os_mkdir; exact Hx|].
    intros e. apply touches_if; [|apply touches_mkdir_handler].
    apply touches_if; [|apply touches_reraise].
    apply touches_bind.
    + apply IH. destruct Hp as [Hp|[rest Hp]].
      * cbn [rev] in Hp. destruct (rev up); discriminate Hp.
      * cbn [rev] in Hp. destruct (rev up) as [|b r]; [left; reflexivity|].
        right. cbn [app] in Hp. injection Hp as -> _. eauto.
    + intros _. apply touches_mkdir_flat. right. exact Hx.
Qed.

Lemma touches_mkdir (a : str) (rest : path) parents exist_ok :
  touches_only (under [a]) (mkdir parents exist_ok (a :: rest)).
Proof.
  unfold mkdir. apply touches_mkdir_rev. right. rewrite rev_involutive. eauto.
Qed.

Lemma under_head (a : str) (rest q : path) :
  under (a :: rest) q = true -> under [a] q = true.
Proof.
  destruct q as [|b q]; cbn [under]; [auto|].
  intros H. apply andb_true_iff in H. destruct H as [H _]. rewrite H.
  destruct q; reflexivity.
Qed.

Lemma touches_rmtree (a : str) (rest : path) :
  touches_only (under [a]) (rmtree (a :: rest)).
Proof.
  intros w q Hq. unfold rmtree, bind, get_fs.
  destruct (lookup (w_fs w) (a :: rest)) as [[|t]|]; try reflexivity.
  cbn [put_fs fst w_fs]. destruct (under (a :: rest) q) eqn:E; [|reflexivity].
  apply under_head in E. congruence.
Qed.

Lemma under_self_head (a : str) (rest : path) : under [a] (a :: rest) = true.
Proof. cbn [under]. rewrite str_eqb_refl. destruct rest; reflexivity. Qed.

Lemma touches_unlink (a : str) (rest : path) :
  touches_only (under [a]) (unlink (a :: rest)).
Proof.
  intros w q Hq. unfold unlink, bind, get_fs.
  destruct (lookup (w_fs w) (a :: rest)) as [[|t]|]; try reflexivity.
  apply (@touches_set (under [a]) (a :: rest) None (w_fs w)
           (under_self_head a rest) w q Hq eq_refl).
Qed.

Lemma touches_read_file R (p : path) : touches_only R (read_file p).
Proof.
  intros w q Hq. unfold read_file, bind, get_fs.
  destruct (lookup (w_fs w) p) as [[|t]|]; reflexivity.
Qed.

Lemma touches_read_text R (p : path) : touches_only R (read_text p).
Proof.
  unfold read_text. apply touches_bind; [apply touches_read_file|].
  intros text. apply touches_ret.
Qed.

Lemma touches_write_text (a : str) (rest : path) (text : str) :
  touches_only (under [a]) (write_text (a :: rest) text).
Proof.
  intros w q Hq. unfold write_text, bind, get_fs.
  assert (Hset : w_fs (fst (put_fs (fs_set (a :: rest) (Some (File text)) (w_fs w)) w)) q
                 = w_fs w q).
  { apply (@touches_set (under [a]) (a :: rest) (Some (File text)) (w_fs w)
             (under_self_head a rest) w q Hq eq_refl). }
  destruct (lookup (w_fs w) (a :: rest)) as [[|t]|];
    destruct (lookup (w_fs w) (parent (a :: rest))) as [[|t']|];
    try reflexivity; exact Hset.
Qed.

Lemma touches_shutil_copy (a : str) (rest src : path) :
  touches_only (under [a]) (shutil_copy src (a :: rest)).
Proof.
  unfold shutil_copy. apply touches_bind; [apply touches_get_fs|]. intros f.
  apply touches_bind; [apply touches_read_file|]. intros text.
  destruct (is_dir f (a :: rest)).
  - apply (@touches_write_text a (rest ++ [basename src]) text).
  - apply touches_write_text.
Qed.

(** The two destinations of an article lie in [source]. *)
Lemma child_source_posts (name : str) :
  exists rest, child source_posts name = lit "source" :: rest.
Proof. unfold child, source_posts. destruct name; cbn [app]; eauto. Qed.

Section FinalizeFrame.
Context {U : Unicode}.
Variable listdir : fs -> path -> list str.

Lemma touches_iterdir R (p : path) : touches_only R (iterdir listdir p).
Proof.
  intros w q Hq. unfold iterdir, bind, get_fs.
  destruct (lookup (w_fs w) p) as [[|t]|]; reflexivity.
Qed.

Lemma finalize_draft_frame (article_dir : path) :
  touches_only in_source (finalize_draft listdir source_posts article_dir).
Proof.
  unfold finalize_draft, in_source.
  destruct (child_source_posts (basename article_dir ++ lit ".md")) as [md Emd].
  destruct (child_source_posts (basename article_dir)) as [img Eimg].
  rewrite Emd, Eimg.
  apply touches_bind; [apply touches_get_fs|]. intros f.
  apply touches_if; [apply touches_ret|].
  apply touches_if; [apply touches_ret|].
  apply touches_bind; [apply touches_print|]. intros _.
  apply touches_bind; [apply touches_if; [apply touches_unlink|apply touches_ret]|]. intros _.
  apply touches_bind; [apply touches_get_fs|]. intros f1.
  apply touches_bind; [apply touches_if; [apply touches_rmtree|apply touches_ret]|]. intros _.
  apply touches_bind; [apply touches_mkdir|]. intros _.
  apply touches_bind; [apply touches_get_fs|]. intros f2.
  apply touches_bind.
  { apply touches_if; [|apply touches_ret].
    apply touches_bind; [apply touches_iterdir|]. intros imgs.
    apply touches_for_each. intros x.
    unfold child. destruct (basename x); [apply touches_shutil_copy|].
    apply (@touches_shutil_copy (lit "source") (img ++ [c :: s]) x). }
  intros _.
  apply touches_bind; [apply touches_read_text|]. intros content.
  apply touches_bind; [apply touches_lift|]. intros content'.
  apply touches_bind; [apply touches_write_text|]. intros _.
  apply touches_print.
Qed.

(** X10: whatever happens while the drafts are finalized (also when it
    stops on an error half way), no entry outside [source] that existed is
    altered or deleted, and the only entries that can appear outside
    [source] are directly in the working directory: the drafts are never
    touched. *)
Theorem finalize_leaves_drafts_alone (w : world) (p : path) :
  in_source p = false ->
  w_fs w p <> None \/ length p <> 1 ->
  w_fs (fst (finalize_all_drafts listdir w)) p = w_fs w p.
Proof.
  intros Hs Hp. unfold finalize_all_drafts.
  destruct (exists_ (w_fs w) source_posts) eqn:Hroot.
  - pose proof (check_dirs w Hroot) as Hc. unfold bind at 1.
    destruct (check_get_make_dirs w) as [w1 r1].
    destruct Hc as (P1 & _ & [->|[args ->]]); [|exact (P1 p Hp)].
    rewrite <- (P1 p Hp).
    apply (@touches_bind _ _ in_source (iterdir listdir [lit "_draft"])
             (fun articles => for_each articles (finalize_draft listdir source_posts)));
      [apply touches_iterdir| |exact Hs].
    intros articles. apply touches_for_each. intros x. apply finalize_draft_frame.
  - unfold check_get_make_dirs. cbn [app]. unfold bind at 1. unfold bind at 1.
    unfold get_fs at 1. rewrite Hroot. reflexivity.
Qed.
End FinalizeFrame.

Lemma finalize_leaves_drafts_alone_witness :
  w_fs (fst (finalize_all_drafts (U := unicode_excerpt) listdir_sample
               (mk_world blog_with_draft []))) draft_file
  = Some (File post_with_empty_cover).
Proof.
  apply (@finalize_leaves_drafts_alone unicode_excerpt listdir_sample
           (mk_world blog_with_draft []) draft_file).
  - reflexivity.
  - left. intros H. discriminate H.
Defined.

(** ** What a finalized draft becomes *)

Lemma stage_frame A R (m : M A) w w' r p :
  touches_only R m -> m w = (w', r) -> R p = false -> w_fs w' p = w_fs w p.
Proof. intros Hm E Hp. specialize (Hm w p Hp). rewrite E in Hm. exact Hm. Qed.

Lemma stage_keeps A (m : M A) w w' r p :
  keeps_dirs m -> m w = (w', r) -> is_dir (w_fs w) p = true -> is_dir (w_fs w') p = true.
Proof. intros Hm E Hp. specialize (Hm w p Hp). rewrite E in Hm. exact Hm. Qed.

Lemma is_dir_set (p : path) (f : fs) : p <> [] -> is_dir (fs_set p (Some Dir) f) p = true.
Proof.
  intros Hp. unfold is_dir, lookup, fs_set. destruct p; [congruence|].
  rewrite path_eqb_refl. reflexivity.
Qed.

Lemma os_mkdir_ok (p : path) w w' :
  os_mkdir p w = (w', Ok tt) -> is_dir (w_fs w') p = true.
Proof.
  unfold os_mkdir, bind, get_fs.
  destruct (lookup (w_fs w) p) as [n|] eqn:E; [discriminate|].
  destruct (lookup (w_fs w) (parent p)) as [[|t]|]; try discriminate.
  intros H. inversion H; subst. cbn [w_fs]. apply is_dir_set.
  intros ->. discriminate E.
Qed.

Lemma mkdir_handler_ok exist_ok (p : path) (e : exn) w w' :
  (f <- get_fs ;; if exist_ok && is_dir f p then ret tt else reraise e) w = (w', Ok tt) ->
  is_dir (w_fs w') p = true.
Proof.
  unfold bind, get_fs. destruct (exist_ok && is_dir (w_fs w) p) eqn:E.
  - intros H. inversion H; subst. apply andb_true_iff in E. apply E.
  - discriminate.
Qed.

Lemma mkdir_flat_ok exist_ok (p : path) w w' :
  mkdir_flat exist_ok p w = (w', Ok tt) -> is_dir (w_fs w') p = true.
Proof.
  unfold mkdir_flat, try_except.
  destruct (os_mkdir p w) as [w1 [[]|e]] eqn:E.
  - intros H. inversion H; subst. apply (os_mkdir_ok _ _ E).
  - destruct (kind_eqb (e_kind e) FileNotFoundError); [discriminate|].
    apply mkdir_handler_ok.
Qed.

Lemma mkdir_ok parents exist_ok (p : path) w w' :
  mkdir parents exist_ok p w = (w', Ok tt) -> is_dir (w_fs w') p = true.
Proof.
  unfold mkdir. rewrite <- (rev_involutive p) at 2.
  destruct (rev p) as [|x up]; cbn [mkdir_rev]; unfold try_except.
  - destruct (os_mkdir (rev []) w) as [w1 [[]|e]] eqn:E.
    + intros H. inversion H; subst. apply (os_mkdir_ok _ _ E).
    + destruct (kind_eqb (e_kind e) FileNotFoundError); [discriminate|].
      apply mkdir_handler_ok.
  - destruct (os_mkdir (rev (x :: up)) w) as [w1 [[]|e]] eqn:E.
    + intros H. inversion H; subst. apply (os_mkdir_ok _ _ E).
    + destruct (kind_eqb (e_kind e) FileNotFoundError); [|apply mkdir_handler_ok].
      destruct parents; [|discriminate].
      intros H. apply bind_ok in H. destruct H as (w2 & [] & _ & H).
      apply (mkdir_flat_ok _ _ _ H).
Qed.

Lemma keeps_ret A (a : A) : keeps_dirs (ret a).
Proof. intros w p H. exact H. Qed.

Lemma keeps_bind A B (m : M A) (k : A -> M B) :
  keeps_dirs m -> (forall a, keeps_dirs (k a)) -> keeps_dirs (bind m k).
Proof.
  intros Hm Hk w p Hp. unfold bind. specialize (Hm w p Hp).
  destruct (m w) as [w1 [a|e]]; cbn [fst] in *.
  - apply (Hk a w1 p Hm).
  - exact Hm.
Qed.

Lemma keeps_for_each A (body : A -> M unit) (xs : list A) :
  (forall x, keeps_dirs (body x)) -> keeps_dirs (for_each xs body).
Proof.
  intros Hb. induction xs as [|x xs IH]; cbn [for_each fold_right].
  - apply keeps_ret.
  - apply keeps_bind; [apply Hb|intros _; exact IH].
Qed.

Lemma keeps_get_fs : keeps_dirs get_fs.
Proof. intros w p H. exact H. Qed.

Lemma keeps_read_file (p : path) : keeps_dirs (read_file p).
Proof.
  intros w q H. unfold read_file, bind, get_fs.
  destruct (lookup (w_fs w) p) as [[|t]|]; exact H.
Qed.

(** Writing a file never replaces a directory. *)
Lemma keeps_write_text (p : path) (text : str) : keeps_dirs (write_text p text).
Proof.
  intros w q H. unfold write_text, bind, get_fs.
  assert (Hset : lookup (w_fs w) p <> Some Dir ->
                 is_dir (fs_set p (Some (File text)) (w_fs w)) q = true).
  { intros Hp. unfold is_dir, lookup, fs_set in *. destruct q as [|a q]; [reflexivity|].
    destruct (path_eqb (a :: q) p) eqn:E; [|exact H].
    apply path_eqb_eq in E. subst p. exfalso. apply Hp.
    destruct (w_fs w (a :: q)) as [[|t]|]; [reflexivity|discriminate H|discriminate H]. }
  destruct (lookup (w_fs w) p) as [[|t]|] eqn:E; [exact H| |];
    destruct (lookup (w_fs w) (parent p)) as [[|t']|]; try exact H;
    cbn [put_fs fst w_fs]; apply Hset; discriminate.
Qed.

Lemma keeps_shutil_copy (src dst : path) : keeps_dirs (shutil_copy src dst).
Proof.
  unfold shutil_copy. apply keeps_bind; [apply keeps_get_fs|]. intros f.
  apply keeps_bind; [apply keeps_read_file|]. intros text. apply keeps_write_text.
Qed.

Lemma write_text_ok (p : path) (text : str) w w' :
  write_text p text w = (w', Ok tt) ->
  w_fs w' = fs_set p (Some (File text)) (w_fs w) /\ w_out w' = w_out w.
Proof.
  unfold write_text, bind, get_fs, put_fs.
  destruct (lookup (w_fs w) p) as [[|t]|]; [discriminate| |];
    destruct (lookup (w_fs w) (parent p)) as [[|t']|]; try discriminate;
    intros H; inversion H; subst; split; reflexivity.
Qed.

Lemma read_file_ok (p : path) w w' text :
  p <> [] -> read_file p w = (w', Ok text) -> w' = w /\ w_fs w p = Some (File text).
Proof.
  intros Hp. unfold read_file, bind, get_fs, lookup. destruct p; [congruence|].
  destruct (w_fs w (s :: p)) as [[|t]|]; try discriminate.
  intros H. inversion H; subst. split; reflexivity.
Qed.

Lemma read_text_ok (p : path) w w' content :
  p <> [] -> read_text p w = (w', Ok content) ->
  exists text,
    w' = w /\ w_fs w p = Some (File text) /\ content = universal_newlines text.
Proof.
  intros Hp H. unfold read_text in H. apply bind_ok in H.
  destruct H as (w1 & text & E & H). apply (@read_file_ok _ _ _ _ Hp) in E.
  destruct E as [-> E]. inversion H; subst. eauto.
Qed.

Lemma child_nonempty (d : path) (name : str) : name <> [] -> child d name = d ++ [name].
Proof. unfold child. destruct name; [congruence|reflexivity]. Qed.

Lemma str_neq_md (name : str) : name ++ lit ".md" <> name.
Proof.
  intros H. apply (f_equal (@length char)) in H. rewrite length_app in H.
  cbn in H. lia.
Qed.

Lemma path_eqb_neq (p q : path) : p <> q -> path_eqb p q = false.
Proof.
  intros H. destruct (path_eqb p q) eqn:E; [|reflexivity].
  apply path_eqb_eq in E. contradiction.
Qed.

Section Finalized.
Context {U : Unicode}.
Variable listdir : fs -> path -> list str.

Lemma keeps_iterdir (p : path) : keeps_dirs (iterdir listdir p).
Proof.
  intros w q H. unfold iterdir, bind, get_fs.
  destruct (lookup (w_fs w) p) as [[|t]|]; exact H.
Qed.

(** X11: when the draft directory [_draft/name] holds [name.md] and its
    finalization succeeds, the post [source/_posts/name.md] is a file whose
    text is the draft's text, read with its line ends as newlines, after
    the three transforms; the directory [source/_posts/name] for the images
    exists, and the draft file is as it was. *)
Theorem finalized_post_is_transformed_draft (name text : str) (w w' : world) :
  is_dir (w_fs w) [lit "_draft"; name] = true ->
  w_fs w [lit "_draft"; name; name ++ lit ".md"] = Some (File text) ->
  finalize_draft listdir source_posts [lit "_draft"; name] w = (w', Ok tt) ->
  exists content,
    finalize_content (universal_newlines text) = Ok content
    /\ w_fs w' (child source_posts (name ++ lit ".md")) = Some (File content)
    /\ is_dir (w_fs w') (child source_posts name) = true
    /\ w_fs w' [lit "_draft"; name; name ++ lit ".md"] = Some (File text).
Proof.
  intros Hd Hmd H.
  assert (Hframe : w_fs w' [lit "_draft"; name; name ++ lit ".md"]
                   = w_fs w [lit "_draft"; name; name ++ lit ".md"]).
  { apply (@stage_frame _ in_source _ w w' (Ok tt) _
             (finalize_draft_frame listdir [lit "_draft"; name]) H). reflexivity. }
  unfold finalize_draft in H. cbn [basename last] in H.
  rewrite (child_nonempty [lit "_draft"; name] (md_name_nonempty name)) in H.
  rewrite (child_nonempty source_posts (md_name_nonempty name)) in H.
  rewrite (child_nonempty source_posts (md_name_nonempty name)).
  cbn [app] in H.
  unfold bind at 1 in H. unfold get_fs at 1 in H. rewrite Hd in H. cbn [negb] in H.
  unfold exists_ at 1 in H. cbn [lookup] in H.
  match type of H with
  | context [match w_fs w ?p with Some _ => true | None => false end] =>
      replace (w_fs w p) with (Some (File text)) in H by (symmetry; exact Hmd)
  end. cbn [negb] in H.
  apply bind_ok in H. destruct H as (w1 & [] & E1 & H).
  apply bind_ok in H. destruct H as (w2 & [] & E2 & H).
  apply bind_ok in H. destruct H as (w2' & f2 & Eg2 & H).
  apply bind_ok in H. destruct H as (w3 & [] & E3 & H).
  apply bind_ok in H. destruct H as (w4 & [] & E4 & H).
  apply bind_ok in H. destruct H as (w4' & f4 & Eg4 & H).
  apply bind_ok in H. destruct H as (w5 & [] & E5 & H).
  apply bind_ok in H. destruct H as (w6 & content0 & E6 & H).
  apply bind_ok in H. destruct H as (w7 & content & E7 & H).
  apply bind_ok in H. destruct H as (w8 & [] & E8 & H).
  (* the image directory *)
  apply mkdir_ok in E4.
  assert (D5 : is_dir (w_fs w5) (child source_posts name) = true).
  { inversion Eg4; subst w4' f4.
    assert (K : keeps_dirs
                  (if exists_ (w_fs w4) (child [lit "_draft"; name] (lit "img"))
                   then imgs <- iterdir listdir (child [lit "_draft"; name] (lit "img")) ;;
                        for_each imgs
                          (fun img => shutil_copy img
                                        (child (child source_posts name) (basename img)))
                   else ret tt)).
    { destruct (exists_ (w_fs w4) _); [|apply keeps_ret].
      apply keeps_bind; [apply keeps_iterdir|]. intros imgs.
      apply keeps_for_each. intros x. apply keeps_shutil_copy. }
    exact (@stage_keeps _ _ w4 w5 (Ok tt) _ K E5 E4). }
  (* the text that is read *)
  apply read_text_ok in E6; [|discriminate]. destruct E6 as (text0 & -> & E6 & ->).
  unfold lift in E7. inversion E7; subst w7. clear E7.
  assert (Eread : w_fs w5 [lit "_draft"; name; name ++ lit ".md"] = Some (File text)).
  { rewrite <- Hmd, <- Hframe.
    apply write_text_ok in E8. destruct E8 as [E8 _].
    unfold print in H. inversion H; subst w'. cbn [w_fs]. rewrite E8.
    unfold fs_set. rewrite path_eqb_neq; [reflexivity|]. discriminate. }
  pose proof (eq_trans (eq_sym E6) Eread) as E6'. inversion E6'; subst text0.
  clear E6 E6'.
  exists content. split; [congruence|].
  pose proof (@stage_keeps _ _ w5 w8 (Ok tt) _ (keeps_write_text _ _) E8 D5) as D8.
  apply write_text_ok in E8. destruct E8 as [E8 _].
  unfold print in H. inversion H; subst w'. cbn [w_fs].
  split; [|split].
  - rewrite E8. unfold fs_set. rewrite path_eqb_refl. reflexivity.
  - exact D8.
  - rewrite E8. unfold fs_set. rewrite path_eqb_neq; [exact Eread|]. discriminate.
Qed.
End Finalized.

Lemma finalized_post_is_transformed_draft_witness :
  let w := mk_world blog_with_draft [] in
  let w' := fst (finalize_draft (U := unicode_excerpt) listdir_sample source_posts
                   [lit "_draft"; lit "tom--jerry"] w) in
  exists content,
    finalize_content (U := unicode_excerpt) (universal_newlines post_with_empty_cover)
    = Ok content
    /\ w_fs w' (child source_posts (lit "tom--jerry" ++ lit ".md")) = Some (File content)
    /\ is_dir (w_fs w') (child source_posts (lit "tom--jerry")) = true
    /\ w_fs w' [lit "_draft"; lit "tom--jerry"; lit "tom--jerry" ++ lit ".md"]
       = Some (File post_with_empty_cover).
Proof.
  cbv zeta.
  apply (@finalized_post_is_transformed_draft unicode_excerpt listdir_sample
           (lit "tom--jerry") post_with_empty_cover (mk_world blog_with_draft [])).
  - reflexivity.
  - reflexivity.
  - vm_compute. reflexivity.
Defined.

(** ** The working directories *)

(** [mkdir(exist_ok=True)] directly under the working directory, case by
    case. *)
Lemma mkdir_top_cases (name : str) (w : world) :
  mkdir false true [name] w
  = match w_fs w [name] with
    | Some Dir => (w, Ok tt)
    | Some (File _) => (w, Raise (mk_exn FileExistsError [show_path [name]]))
    | None => (mk_world (fs_set [name] (Some Dir) (w_fs w)) (w_out w), Ok tt)
    end.
Proof.
  unfold mkdir. cbn [rev app mkdir_rev].
  unfold try_except, os_mkdir, bind, get_fs, put_fs, raise.
  cbn [lookup parent removelast w_fs].
  destruct (w_fs w [name]) as [[|text]|] eqn:E; cbn [kind_eqb e_kind andb].
  - unfold is_dir, lookup. rewrite E. reflexivity.
  - unfold is_dir, lookup. rewrite E. reflexivity.
  - reflexivity.
Qed.

Lemma is_dir_preserved (f f' : fs) p :
  preserved f f' -> is_dir f p = true -> is_dir f' p = true.
Proof.
  intros Hp H. unfold is_dir, lookup in *. destruct p as [|a p]; [reflexivity|].
  rewrite Hp; [exact H|]. left. intros E. rewrite E in H. discriminate.
Qed.

Lemma not_file_preserved (name : str) (other : path) (f : fs) :
  (forall text, f [name] <> Some (File text)) ->
  forall text, fs_set other (Some Dir) f [name] <> Some (File text).
Proof.
  intros H text. unfold fs_set. destruct (path_eqb [name] other); [discriminate|apply H].
Qed.

Lemma set_dir_preserved (name : str) (f : fs) :
  f [name] = None -> preserved f (fs_set [name] (Some Dir) f).
Proof.
  intros E p Hp. unfold fs_set. destruct (path_eqb p [name]) eqn:Ep; [|reflexivity].
  apply path_eqb_eq in Ep. subst p. destruct Hp as [Hp|Hp]; [contradiction|].
  cbn in Hp. congruence.
Qed.

(** One working directory: made, or found. *)
Lemma mkdir_top_made (name : str) (w : world) :
  (forall text, w_fs w [name] <> Some (File text)) ->
  exists w', mkdir false true [name] w = (w', Ok tt)
    /\ is_dir (w_fs w') [name] = true
    /\ preserved (w_fs w) (w_fs w') /\ w_out w' = w_out w
    /\ (forall other text, w_fs w [other] <> Some (File text) ->
                           w_fs w' [other] <> Some (File text)).
Proof.
  intros Hf. rewrite mkdir_top_cases.
  destruct (w_fs w [name]) as [[|text]|] eqn:E.
  - exists w. repeat split; auto using preserved_refl.
    unfold is_dir, lookup. rewrite E. reflexivity.
  - exfalso. apply (Hf text). reflexivity.
  - eexists. split; [reflexivity|]. cbn [w_fs w_out]. repeat split.
    + apply is_dir_set. discriminate.
    + apply set_dir_preserved. exact E.
    + intros other text H. unfold fs_set.
      destruct (path_eqb [other] [name]); [discriminate|exact H].
Qed.

Lemma mkdir_top_found (name : str) (w : world) :
  is_dir (w_fs w) [name] = true -> mkdir false true [name] w = (w, Ok tt).
Proof.
  intros H. rewrite mkdir_top_cases. unfold is_dir, lookup in H.
  destruct (w_fs w [name]) as [[|text]|]; [reflexivity|discriminate H|discriminate H].
Qed.

Section WorkingDirs.
Context {U : Unicode}.

Lemma check_unfold (w : world) :
  exists_ (w_fs w) source_posts = true ->
  check_get_make_dirs w
  = (mkdir false true [lit "_draft"] ;;;
     mkdir false true [lit "_hidden"] ;;;
     mkdir false true [lit "_archived"] ;;;
     ret (source_posts, [lit "_draft"], [lit "_hidden"], [lit "_archived"])) w.
Proof.
  intros Hroot. unfold check_get_make_dirs. cbn [app].
  unfold bind at 1. unfold get_fs at 1. rewrite Hroot. reflexivity.
Qed.

Lemma check_outside (w : world) :
  exists_ (w_fs w) source_posts = false ->
  check_get_make_dirs w = (w, Raise root_not_found).
Proof.
  intros Hroot. unfold check_get_make_dirs. cbn [app].
  unfold bind at 1. unfold get_fs at 1. rewrite Hroot. reflexivity.
Qed.

(** X12: in a blog root where none of [_draft], [_hidden] and [_archived]
    is a file, [check_get_make_dirs] returns the four directories; the
    three working directories exist afterwards, every entry that existed is
    kept, nothing is printed, and a second call changes nothing. *)
Theorem check_get_make_dirs_makes_the_directories (w : world) :
  exists_ (w_fs w) source_posts = true ->
  (forall name text, In name working_dirs -> w_fs w [name] <> Some (File text)) ->
  exists w',
    check_get_make_dirs w
    = (w', Ok (source_posts, [lit "_draft"], [lit "_hidden"], [lit "_archived"]))
    /\ (forall name, In name working_dirs -> is_dir (w_fs w') [name] = true)
    /\ preserved (w_fs w) (w_fs w')
    /\ w_out w' = w_out w
    /\ check_get_make_dirs w'
       = (w', Ok (source_posts, [lit "_draft"], [lit "_hidden"], [lit "_archived"])).
Proof.
  intros Hroot Hf. rewrite (check_unfold w Hroot).
  destruct (@mkdir_top_made (lit "_draft") w) as (w1 & E1 & D1 & P1 & O1 & F1).
  { intros text. apply Hf. cbn. auto. }
  destruct (@mkdir_top_made (lit "_hidden") w1) as (w2 & E2 & D2 & P2 & O2 & F2).
  { intros text. apply F1. apply Hf. cbn. auto. }
  destruct (@mkdir_top_made (lit "_archived") w2) as (w3 & E3 & D3 & P3 & O3 & F3).
  { intros text. apply F2, F1. apply Hf. cbn. auto. }
  exists w3. unfold bind at 1. rewrite E1. unfold bind at 1. rewrite E2.
  unfold bind at 1. rewrite E3. unfold ret.
  assert (D1' : is_dir (w_fs w3) [lit "_draft"] = true).
  { apply (@is_dir_preserved _ _ _ P3), (@is_dir_preserved _ _ _ P2), D1. }
  assert (D2' : is_dir (w_fs w3) [lit "_hidden"] = true).
  { apply (@is_dir_preserved _ _ _ P3), D2. }
  assert (P : preserved (w_fs w) (w_fs w3)).
  { eapply preserved_trans; [eapply preserved_trans|]; eauto. }
  split; [reflexivity|]. split; [|split; [exact P|split; [congruence|]]].
  - intros name [<-|[<-|[<-|[]]]]; assumption.
  - rewrite check_unfold by exact (exists_preserved _ P Hroot).
    unfold bind at 1. rewrite (@mkdir_top_found _ _ D1').
    unfold bind at 1. rewrite (@mkdir_top_found _ _ D2').
    unfold bind at 1. rewrite (@mkdir_top_found _ _ D3). reflexivity.
Qed.

(** What a successful [check_get_make_dirs] has done. *)
Lemma check_returned (w w' : world) dirs :
  check_get_make_dirs w = (w', Ok dirs) ->
  dirs = (source_posts, [lit "_draft"], [lit "_hidden"], [lit "_archived"])
  /\ exists_ (w_fs w) source_posts = true
  /\ is_dir (w_fs w') [lit "_draft"] = true
  /\ preserved (w_fs w) (w_fs w') /\ w_out w' = w_out w.
Proof.
  intros H. destruct (exists_ (w_fs w) source_posts) eqn:Hroot.
  2:{ rewrite (check_outside w Hroot) in H. discriminate H. }
  pose proof (check_dirs w Hroot) as Hc. rewrite H in Hc.
  destruct Hc as (P & O & [E|[args E]]); [|discriminate E].
  inversion E; subst dirs. repeat split; auto.
  rewrite (check_unfold w Hroot) in H.
  apply bind_ok in H. destruct H as (w1 & [] & E1 & H).
  apply mkdir_ok in E1.
  apply bind_ok in H. destruct H as (w2 & [] & E2 & H).
  apply bind_ok in H. destruct H as (w3 & [] & E3 & H).
  inversion H; subst w3.
  pose proof (mkdir_top (lit "_hidden") w1) as H2. rewrite E2 in H2.
  pose proof (mkdir_top (lit "_archived") w2) as H3. rewrite E3 in H3.
  apply (@is_dir_preserved _ _ _ (proj1 H3)), (@is_dir_preserved _ _ _ (proj1 H2)), E1.
Qed.
End WorkingDirs.

Lemma check_get_make_dirs_makes_the_directories_witness :
  exists w',
    check_get_make_dirs (mk_world blog_with_draft [])
    = (w', Ok (source_posts, [lit "_draft"], [lit "_hidden"], [lit "_archived"]))
    /\ (forall name, In name working_dirs -> is_dir (w_fs w') [name] = true)
    /\ preserved blog_with_draft (w_fs w')
    /\ w_out w' = []
    /\ check_get_make_dirs w'
       = (w', Ok (source_posts, [lit "_draft"], [lit "_hidden"], [lit "_archived"])).
Proof.
  apply (@check_get_make_dirs_makes_the_directories (mk_world blog_with_draft [])).
  - reflexivity.
  - intros name text [<-|[<-|[<-|[]]]]; intros H; discriminate H.
Defined.

(** ** Creating a draft *)

Lemma under_refl (p : path) : under p p = true.
Proof. induction p as [|a p IH]; cbn [under]; [reflexivity|]. rewrite str_eqb_refl. exact IH. Qed.

Lemma under_app (p q : path) : under p (p ++ q) = true.
Proof. induction p as [|a p IH]; cbn [under app]; [reflexivity|]. rewrite str_eqb_refl. exact IH. Qed.

Lemma str_eqb_neq (a b : str) : a <> b -> str_eqb a b = false.
Proof.
  intros H. destruct (str_eqb a b) eqn:E; [|reflexivity].
  apply str_eqb_true in E. contradiction.
Qed.

Lemma shutil_move_ok (src dst : path) w w' :
  shutil_move src dst w = (w', Ok tt) ->
  exists rest, w' = mk_world (rename_tree src (dst ++ rest) (w_fs w)) (w_out w).
Proof.
  unfold shutil_move, bind, get_fs, put_fs.
  destruct (is_dir (w_fs w) dst).
  - destruct (exists_ (w_fs w) (dst ++ [basename src])); [discriminate|].
    intros H. inversion H. eauto.
  - intros H. inversion H. exists []. rewrite app_nil_r. reflexivity.
Qed.

Lemma rmtree_ok (p : path) w w' :
  p <> [] -> rmtree p w = (w', Ok tt) ->
  w_fs w' p = None /\ forall q, under p q = false -> w_fs w' q = w_fs w q.
Proof.
  intros Hp. unfold rmtree, bind, get_fs, put_fs.
  destruct (lookup (w_fs w) p) as [[|t]|]; try discriminate.
  intros H. inversion H; subst. cbn [w_fs]. split.
  - rewrite under_refl. reflexivity.
  - intros q Hq. rewrite Hq. reflexivity.
Qed.

Section NewDraft.
Context {U : Unicode}.
Variable os_system : str -> fs -> fs.

Lemma title2filename_keeps_files (title : str) (w : world) :
  w_fs (fst (title2filename title w)) = w_fs w.
Proof.
  unfold title2filename.
  destruct (255 <? length (converted title)); [reflexivity|].
  destruct (64 <? length (converted title)); reflexivity.
Qed.

Lemma title2filename_ok (title : str) (w w' : world) (filename : str) :
  title2filename title w = (w', Ok filename) ->
  filename = converted title /\ length (converted title) <= 255 /\ w_fs w' = w_fs w.
Proof.
  intros H.
  assert (Hr : returned (title2filename title) w = Ok filename).
  { unfold returned. rewrite H. reflexivity. }
  apply title2filename_returned in Hr. destruct Hr as [-> Hlen].
  pose proof (title2filename_keeps_files title w) as Hf. rewrite H in Hf.
  auto.
Qed.

(** X13: outside a blog root (no [source/_posts]) nothing is done: creating
    a draft and finalizing the drafts both stop with [FileNotFoundError]
    before anything is printed, written or handed to the generator. *)
Theorem nothing_happens_outside_a_blog_root (listdir : fs -> path -> list str)
    (title : str) (w : world) :
  exists_ (w_fs w) source_posts = false ->
  new_draft os_system title w = (w, Raise root_not_found)
  /\ finalize_all_drafts listdir w = (w, Raise root_not_found).
Proof.
  intros Hroot. unfold new_draft, finalize_all_drafts.
  split; unfold bind at 1; rewrite (check_outside w Hroot); reflexivity.
Qed.

(** X14: a title whose normalized form is empty can never be drafted: in a
    blog root, [new_draft] stops with [FileExistsError] (the draft
    directory would be [_draft] itself); the generator is not run, and
    every entry that existed is kept. *)
Theorem empty_filename_is_never_drafted (title : str) (w : world) :
  exists_ (w_fs w) source_posts = true ->
  converted title = [] ->
  let '(w', r) := new_draft os_system title w in
  (exists args, r = Raise (mk_exn FileExistsError args))
  /\ preserved (w_fs w) (w_fs w').
Proof.
  intros Hroot Hname. unfold new_draft. unfold bind at 1.
  pose proof (check_dirs w Hroot) as Hc.
  destruct (check_get_make_dirs w) as [w1 r1] eqn:E1.
  destruct Hc as (P1 & O1 & [->|[args ->]]); [|split; eauto].
  apply check_returned in E1. destruct E1 as (_ & _ & D1 & _ & _).
  unfold bind at 1.
  destruct (title2filename title w1) as [w2 [filename|e]] eqn:E2.
  - apply title2filename_ok in E2. destruct E2 as (-> & _ & F2).
    rewrite Hname. cbn [child]. unfold bind at 1. unfold get_fs at 1.
    unfold exists_, lookup. rewrite F2.
    unfold is_dir, lookup in D1.
    destruct (w_fs w1 [lit "_draft"]) as [[|t]|]; try discriminate D1.
    unfold raise. split; [eauto|]. rewrite F2. exact P1.
  - exfalso.
    assert (Hr : returned (title2filename title) w1 = Ok (converted title)).
    { apply title2filename_returned. split; [reflexivity|]. rewrite Hname. cbn. lia. }
    unfold returned in Hr. rewrite E2 in Hr. discriminate Hr.
Qed.

(** X15: when [new_draft] succeeds, the normalized filename is not empty
    and the draft [_draft/filename] did not exist before; afterwards the post
    is a file in the draft directory, neither the post nor a directory of
    its name is left in [source/_posts], and the last line printed reports
    the move with the title in blue and, in green, a path that ends in
    [_draft/filename]; what stands before it, the working directory, is
    left open. *)
Theorem new_draft_moves_the_post (title : str) (w w' : world) :
  new_draft os_system title w = (w', Ok tt) ->
  let filename := converted title in
  filename <> []
  /\ exists_ (w_fs w) [lit "_draft"; filename] = false
  /\ (exists text,
        w_fs w' [lit "_draft"; filename; filename ++ lit ".md"] = Some (File text))
  /\ w_fs w' (source_posts ++ [filename ++ lit ".md"]) = None
  /\ w_fs w' (source_posts ++ [filename]) = None
  /\ exists out cwd,
       w_out w' = out ++ [lit "Draft '" ++ blue title ++ lit "' has been created and moved to "
                            ++ green (cwd ++ show_path [lit "_draft"; filename])
                            ++ lit "."].
Proof.
  intros H. cbv zeta. unfold new_draft in H.
  apply bind_ok in H. destruct H as (w1 & dirs & E1 & H).
  apply check_returned in E1. destruct E1 as (-> & Hroot & D1 & P1 & _).
  apply bind_ok in H. destruct H as (w2 & filename & E2 & H).
  apply title2filename_ok in E2. destruct E2 as (-> & _ & F2).
  apply bind_ok in H. destruct H as (w2' & f2 & Eg & H).
  inversion Eg; subst w2' f2. clear Eg.
  destruct (exists_ (w_fs w2) (child [lit "_draft"] (converted title))) eqn:Hnew;
    [discriminate H|].
  assert (Hne : converted title <> []).
  { intros E. rewrite E in Hnew. cbn [child] in Hnew. rewrite F2 in Hnew.
    unfold exists_ in Hnew. unfold is_dir in D1.
    destruct (lookup (w_fs w1) [lit "_draft"]) as [[|t]|]; discriminate. }
  rewrite (child_nonempty [lit "_draft"] Hne) in Hnew, H. cbn [app] in Hnew, H.
  rewrite (child_nonempty source_posts (md_name_nonempty (converted title))) in H.
  rewrite (child_nonempty [lit "_draft"; converted title]
             (md_name_nonempty (converted title))) in H.
  rewrite (child_nonempty source_posts Hne) in H. cbn [app] in H.
  apply bind_ok in H. destruct H as (w3 & [] & _ & H).
  apply bind_ok in H. destruct H as (w3' & f3 & Eg & H).
  inversion Eg; subst w3' f3. clear Eg.
  destruct (negb (exists_ (w_fs w3) _)); [discriminate H|].
  apply bind_ok in H. destruct H as (w4 & [] & _ & H).
  apply bind_ok in H. destruct H as (w5 & [] & E5 & H).
  apply shutil_move_ok in E5. destruct E5 as (rest & ->).
  apply bind_ok in H. destruct H as (w5' & f5 & Eg & H).
  inversion Eg; subst w5' f5. clear Eg. cbn [w_fs] in H.
  apply bind_ok in H. destruct H as (w6 & [] & E6 & H).
  apply bind_ok in H. destruct H as (w7 & [] & E7 & H).
  unfold print in H. inversion H; subst w'. clear H. cbn [w_fs w_out].
  rewrite change_front_matter_cases in E7. cbv zeta in E7. unfold md_file in E7.
  rewrite (child_nonempty [lit "_draft"; converted title]
             (md_name_nonempty (converted title))) in E7. cbn [app] in E7.
  (* the post and its directory are gone before the front-matter is changed *)
  assert (Hgone : w_fs w6 (source_posts ++ [converted title ++ lit ".md"]) = None
                  /\ w_fs w6 (source_posts ++ [converted title]) = None).
  { set (f5 := rename_tree _ _ _) in E6.
    assert (G1 : f5 (source_posts ++ [converted title ++ lit ".md"]) = None).
    { unfold f5, rename_tree. cbn [under app source_posts].
      replace (str_eqb (lit "_draft") (lit "source")) with false by reflexivity.
      cbn [andb]. rewrite !str_eqb_refl. reflexivity. }
    assert (N1 : under (source_posts ++ [converted title])
                   (source_posts ++ [converted title ++ lit ".md"]) = false).
    { cbn [under app source_posts]. rewrite !str_eqb_refl.
      rewrite (@str_eqb_neq (converted title) (converted title ++ lit ".md"));
        [reflexivity|]. intros E. symmetry in E. exact (@str_neq_md _ E). }
    destruct (exists_ f5 (source_posts ++ [converted title])) eqn:Ex.
    - apply rmtree_ok in E6; [|discriminate]. destruct E6 as [G2 G3].
      split; [|exact G2]. rewrite (G3 _ N1). exact G1.
    - inversion E6; subst w6. cbn [w_fs]. split; [exact G1|].
      unfold exists_, lookup in Ex. cbn [app source_posts] in Ex |- *.
      destruct (f5 _); [discriminate Ex|reflexivity]. }
  destruct Hgone as [G1 G2].
  split; [exact Hne|]. split.
  { unfold exists_, lookup in Hnew |- *. rewrite F2 in Hnew.
    rewrite (P1 [lit "_draft"; converted title]) in Hnew; [exact Hnew|].
    right. cbn. lia. }
  match type of E7 with
  | match ?x with _ => _ end = _ => destruct x as [[|text]|]; try discriminate E7
  end.
  destruct (front_matter_end (readlines text)) as [idx|]; [|discriminate E7].
  destruct (re_search date_pattern _) as [m|]; [|discriminate E7].
  destruct (strptime_Y_m_d _); [|discriminate E7].
  destruct (re_sub_template title_pattern _ _); [|discriminate E7].
  destruct (re_sub_template cover_pattern _ _) as [fm2|]; [|discriminate E7].
  inversion E7; subst w7. clear E7. cbn [w_fs w_out].
  split; [|split; [|split]].
  - eexists. unfold fs_set. rewrite path_eqb_refl. reflexivity.
  - unfold fs_set. rewrite path_eqb_neq; [exact G1|]. discriminate.
  - unfold fs_set. rewrite path_eqb_neq; [exact G2|]. discriminate.
  - eexists _, []. reflexivity.
Qed.
End NewDraft.

Lemma nothing_happens_outside_a_blog_root_witness :
  new_draft (U := unicode_excerpt) hexo_sample (lit "Tom & Jerry") empty_world
  = (empty_world, Raise root_not_found)
  /\ finalize_all_drafts (U := unicode_excerpt) listdir_sample empty_world
     = (empty_world, Raise root_not_found).
Proof.
  apply (@nothing_happens_outside_a_blog_root unicode_excerpt hexo_sample listdir_sample
           (lit "Tom & Jerry") empty_world).
  reflexivity.
Defined.

Lemma empty_filename_is_never_drafted_witness :
  let w := mk_world blog_without_drafts [] in
  let '(w', r) := new_draft (U := unicode_excerpt) hexo_sample (lit "?!") w in
  (exists args, r = Raise (mk_exn FileExistsError args))
  /\ preserved (w_fs w) (w_fs w').
Proof.
  apply (@empty_filename_is_never_drafted unicode_excerpt hexo_sample (lit "?!")
           (mk_world blog_without_drafts [])).
  - reflexivity.
  - vm_compute. reflexivity.
Defined.

Lemma new_draft_moves_the_post_witness :
  let w := mk_world blog_without_drafts [] in
  let w' := fst (new_draft (U := unicode_excerpt) hexo_sample (lit "Tom & Jerry") w) in
  let filename := converted (U := unicode_excerpt) (lit "Tom & Jerry") in
  filename <> []
  /\ exists_ (w_fs w) [lit "_draft"; filename] = false
  /\ (exists text,
        w_fs w' [lit "_draft"; filename; filename ++ lit ".md"] = Some (File text))
  /\ w_fs w' (source_posts ++ [filename ++ lit ".md"]) = None
  /\ w_fs w' (source_posts ++ [filename]) = None
  /\ exists out cwd,
       w_out w' = out ++ [lit "Draft '" ++ blue (lit "Tom & Jerry")
                            ++ lit "' has been created and moved to "
                            ++ green (cwd ++ show_path [lit "_draft"; filename])
                            ++ lit "."].
Proof.
  cbv zeta.
  apply (@new_draft_moves_the_post unicode_excerpt hexo_sample (lit "Tom & Jerry")
           (mk_world blog_without_drafts [])).
  vm_compute. reflexivity.
Defined.

(** ** ASCII titles *)

Section AsciiTitles.
Context {U : Unicode}.

Lemma lower_from_ascii_length (s : str) : forall before_rev,
  Forall (fun c => is_ascii c = true) s -> length (lower_from before_rev s) = length s.
Proof.
  induction s as [|c s IH]; intros before_rev H; [reflexivity|].
  inversion H as [|? ? Hc Hs]; subst. cbn [lower_from]. unfold lower_char at 1.
  rewrite Hc. cbn [app length]. rewrite (IH _ Hs). reflexivity.
Qed.

(** X16: the normalized form of an ASCII title is never longer than the
    title: an ASCII title of at most 255 characters is always accepted (the
    length error cannot occur), and its name is returned. *)
Theorem ascii_title_never_grows (title : str) (w : world) :
  Forall (fun c => is_ascii c = true) title ->
  length title <= 255 ->
  length (converted title) <= length title
  /\ returned (title2filename title) w = Ok (converted title).
Proof.
  intros Ha Hlen.
  assert (Hle : length (converted title) <= length title).
  { rewrite converted_eq. unfold lower. rewrite lower_from_ascii_length.
    - pose proof (filter_length_le (fun c => negb (is_special c)) (collapse false title)).
      pose proof (collapse_length title false). lia.
    - apply Forall_forall. intros c Hc. apply filter_In in Hc. destruct Hc as [Hc _].
      apply collapse_chars in Hc. destruct Hc as [->|[Hc _]]; [reflexivity|].
      rewrite Forall_forall in Ha. apply Ha. exact Hc. }
  split; [exact Hle|].
  apply title2filename_returned. split; [reflexivity|lia].
Qed.
End AsciiTitles.

Lemma ascii_title_never_grows_witness :
  length (converted (U := unicode_excerpt) (lit "Tom & Jerry")) <= length (lit "Tom & Jerry")
  /\ returned (title2filename (U := unicode_excerpt) (lit "Tom & Jerry")) empty_world
     = Ok (converted (U := unicode_excerpt) (lit "Tom & Jerry")).
Proof.
  apply (@ascii_title_never_grows unicode_excerpt (lit "Tom & Jerry") empty_world).
  - cbv. repeat constructor.
  - cbv. repeat constructor.
Defined.

(** ** The title as a replacement template *)

Lemma template_literal (t whole : str) :
  Forall (fun c => c <> BACKSLASH) t -> template TText t whole = Ok t.
Proof.
  induction t as [|c t IH]; intros H; [reflexivity|].
  inversion H as [|? ? Hc Ht]; subst. cbn [template].
  unfold char_eqb. rewrite (proj2 (N.eqb_neq c BACKSLASH) Hc).
  rewrite (IH Ht). reflexivity.
Qed.

Lemma template_open_escape (t whole : str) :
  Forall (fun c => c <> BACKSLASH) t ->
  template TText (t ++ [BACKSLASH]) whole = re_error.
Proof.
  induction t as [|c t IH]; intros H; [reflexivity|].
  inversion H as [|? ? Hc Ht]; subst. cbn [template app].
  unfold char_eqb. rewrite (proj2 (N.eqb_neq c BACKSLASH) Hc).
  rewrite (IH Ht). reflexivity.
Qed.

Lemma re_sub_ext r (f g : re_match -> str) (s : str) :
  (forall m, f m = g m) -> re_sub r f s = re_sub r g s.
Proof.
  intros H. unfold re_sub. f_equal. apply map_ext. intros [c|m]; cbn [render]; auto.
Qed.

Lemma re_sub_template_literal r (repl s : str) :
  Forall (fun c => c <> BACKSLASH) repl ->
  re_sub_template r repl s = Ok (re_sub r (fun _ => repl) s).
Proof.
  intros H. unfold re_sub_template. rewrite (template_literal [] H).
  f_equal. apply re_sub_ext. intros m. rewrite (template_literal (m_text m) H). reflexivity.
Qed.

Lemma lit_no_backslash (s : string) :
  forallb (fun c => negb (char_eqb c BACKSLASH)) (lit s) = true ->
  Forall (fun c => c <> BACKSLASH) (lit s).
Proof.
  intros H. apply Forall_forall. intros c Hc.
  rewrite forallb_forall in H. specialize (H c Hc).
  intros ->. discriminate H.
Qed.

Lemma digit_char_no_backslash (n : N) : digit_char n <> BACKSLASH.
Proof.
  unfold digit_char, BACKSLASH. pose proof (N.mod_upper_bound n 10). lia.
Qed.

Lemma strftime_no_backslash (d : date) :
  Forall (fun c => c <> BACKSLASH) (strftime_Y_m d).
Proof.
  unfold strftime_Y_m, year_digits, pad4, pad2.
  apply Forall_app. split; [|apply Forall_app; split].
  - destruct (year d <? 10)%N; [|destruct (year d <? 100)%N; [|destruct (year d <? 1000)%N]];
      repeat (apply Forall_cons; [apply digit_char_no_backslash|]); apply Forall_nil.
  - apply lit_no_backslash. reflexivity.
  - repeat (apply Forall_cons; [apply digit_char_no_backslash|]). apply Forall_nil.
Qed.

Section TitleTemplate.
Context {U : Unicode}.

(** What a successful [change_front_matter] writes when neither the title
    nor the filename holds a backslash. *)
Lemma front_matter_written_literally
    (target_dir : path) (filename title text : str) (w w' : world) :
  Forall (fun c => c <> BACKSLASH) title ->
  Forall (fun c => c <> BACKSLASH) filename ->
  w_fs w (md_file target_dir filename) = Some (File text) ->
  change_front_matter target_dir filename title w = (w', Ok tt) ->
  exists idx date_match date_obj,
    let front_matter := concat (firstn (idx + 1) (readlines text)) in
    let content := concat (skipn (idx + 1) (readlines text)) in
    front_matter_end (readlines text) = Some idx
    /\ re_search date_pattern front_matter = Some date_match
    /\ strptime_Y_m_d (fmt (m_group 1 date_match)) = Ok date_obj
    /\ w_fs w' (md_file target_dir filename)
       = Some (File
           (re_sub cover_pattern
              (fun _ => lit "cover: " ++ strftime_Y_m date_obj ++ lit "/" ++ filename
                          ++ lit "/cover.jpg")
              (re_sub title_pattern (fun _ => lit "title: " ++ title) front_matter)
            ++ content)).
Proof.
  intros Ht Hf E. rewrite change_front_matter_cases. cbv zeta. rewrite E.
  destruct (front_matter_end (readlines text)) as [idx|] eqn:Ei; [|discriminate].
  destruct (re_search date_pattern _) as [m|] eqn:Em; [|discriminate].
  destruct (strptime_Y_m_d _) as [d|] eqn:Ed; [|discriminate].
  rewrite re_sub_template_literal.
  2:{ apply Forall_app. split; [apply lit_no_backslash; reflexivity|exact Ht]. }
  rewrite re_sub_template_literal.
  2:{ apply Forall_app; split; [apply lit_no_backslash; reflexivity|].
      apply Forall_app; split; [apply strftime_no_backslash|].
      apply Forall_app; split; [apply lit_no_backslash; reflexivity|].
      apply Forall_app; split; [exact Hf|apply lit_no_backslash; reflexivity]. }
  intros H. inversion H; subst. clear H. exists idx, m, d. cbn [w_fs].
  split; [reflexivity|]. split; [exact Em|]. split; [exact Ed|].
  unfold fs_set. rewrite path_eqb_refl. reflexivity.
Qed.

(** X17: a title and a filename without a backslash are written as they
    are: after a successful [change_front_matter] the file holds the
    front-matter in which every [title:] line has become [title: <title>]
    and then every [cover:] line the cover path under the year and month of
    the [date] field, followed by the body (front-matter and body as
    they are read, with their line ends as newlines). *)
Theorem plain_title_is_written_literally
    (target_dir : path) (filename title text : str) (w w' : world) :
  Forall (fun c => c <> BACKSLASH) title ->
  Forall (fun c => c <> BACKSLASH) filename ->
  w_fs w (md_file target_dir filename) = Some (File text) ->
  change_front_matter target_dir filename title w = (w', Ok tt) ->
  exists idx date_match date_obj,
    let front_matter := concat (firstn (idx + 1) (readlines text)) in
    let content := concat (skipn (idx + 1) (readlines text)) in
    front_matter_end (readlines text) = Some idx
    /\ re_search date_pattern front_matter = Some date_match
    /\ strptime_Y_m_d (fmt (m_group 1 date_match)) = Ok date_obj
    /\ w_fs w' (md_file target_dir filename)
       = Some (File
           (re_sub cover_pattern
              (fun _ => lit "cover: " ++ strftime_Y_m date_obj ++ lit "/" ++ filename
                          ++ lit "/cover.jpg")
              (re_sub title_pattern (fun _ => lit "title: " ++ title) front_matter)
            ++ content)).
Proof. apply front_matter_written_literally. Qed.

(** X9: the cover path shows the year and the month of the date field.
    When the date found in the front-matter is written with a year of four
    ASCII digits that does not begin with [0], and neither the title nor
    the filename holds a backslash, a successful [change_front_matter]
    writes [cover: YYYY/MM/<filename>/cover.jpg] with the digits of the
    date field for every [cover:] line. *)
Theorem cover_path_shows_the_date
    (target_dir : path) (filename title text : str) (w w' : world)
    (idx : nat) (date_match : re_match) (y1 y2 y3 y4 m1 m2 d1 d2 : char) :
  Forall (fun c => c <> BACKSLASH) title ->
  Forall (fun c => c <> BACKSLASH) filename ->
  w_fs w (md_file target_dir filename) = Some (File text) ->
  front_matter_end (readlines text) = Some idx ->
  re_search date_pattern (concat (firstn (idx + 1) (readlines text))) = Some date_match ->
  fmt (m_group 1 date_match) = [y1; y2; y3; y4; 45%N; m1; m2; 45%N; d1; d2] ->
  forallb ascii_isdigit [y1; y2; y3; y4] = true ->
  y1 <> 48%N ->
  change_front_matter target_dir filename title w = (w', Ok tt) ->
  w_fs w' (md_file target_dir filename)
  = Some (File
      (re_sub cover_pattern
         (fun _ => lit "cover: " ++ [y1; y2; y3; y4; 47%N; m1; m2] ++ lit "/" ++ filename
                     ++ lit "/cover.jpg")
         (re_sub title_pattern (fun _ => lit "title: " ++ title)
            (concat (firstn (idx + 1) (readlines text))))
       ++ concat (skipn (idx + 1) (readlines text)))).
Proof.
  intros Ht Hf E Ei Em Eg Hy Hnz H.
  destruct (@front_matter_written_literally target_dir filename title text w w' Ht Hf E H)
    as (idx' & m' & d & Ei' & Em' & Ed & Efile).
  cbv zeta in Em', Efile.
  rewrite Ei in Ei'. inversion Ei'; subst idx'. clear Ei'.
  rewrite Em in Em'. inversion Em'; subst m'. clear Em'.
  rewrite Eg in Ed. apply (@year_month_digits U y1 y2 y3 y4 m1 m2 d1 d2 d Hy Hnz) in Ed.
  rewrite Ed in Efile. exact Efile.
Qed.

(** X18: the title is read as a replacement template.  A title that ends
    with a backslash (and has no other) is refused by the template parser:
    on a file with a front-matter and a date, [change_front_matter] raises
    [re.error] and the file is left as it was. *)
Theorem title_ending_in_backslash_is_refused
    (target_dir : path) (filename t text : str) (w : world) idx date_match date_obj :
  Forall (fun c => c <> BACKSLASH) t ->
  w_fs w (md_file target_dir filename) = Some (File text) ->
  front_matter_end (readlines text) = Some idx ->
  re_search date_pattern (concat (firstn (idx + 1) (readlines text))) = Some date_match ->
  strptime_Y_m_d (fmt (m_group 1 date_match)) = Ok date_obj ->
  change_front_matter target_dir filename (t ++ [BACKSLASH]) w
  = (w, Raise (mk_exn ReError [])).
Proof.
  intros Ht E Ei Em Ed. rewrite change_front_matter_cases. cbv zeta.
  rewrite E, Ei, Em, Ed. unfold re_sub_template.
  rewrite app_assoc. rewrite template_open_escape; [reflexivity|].
  apply Forall_app. split; [apply lit_no_backslash; reflexivity|exact Ht].
Qed.
End TitleTemplate.

Lemma plain_title_is_written_literally_witness :
  let w := mk_world blog_with_draft [] in
  let w' := fst (change_front_matter (U := unicode_excerpt)
                   [lit "_draft"; lit "tom--jerry"] (lit "tom--jerry") (lit "Tom & Jerry") w) in
  exists idx date_match date_obj,
    let front_matter := concat (firstn (idx + 1) (readlines post_with_empty_cover)) in
    let content := concat (skipn (idx + 1) (readlines post_with_empty_cover)) in
    front_matter_end (readlines post_with_empty_cover) = Some idx
    /\ re_search (date_pattern (U := unicode_excerpt)) front_matter = Some date_match
    /\ strptime_Y_m_d (U := unicode_excerpt) (fmt (m_group 1 date_match)) = Ok date_obj
    /\ w_fs w' (md_file [lit "_draft"; lit "tom--jerry"] (lit "tom--jerry"))
       = Some (File
           (re_sub (cover_pattern (U := unicode_excerpt))
              (fun _ => lit "cover: " ++ strftime_Y_m date_obj ++ lit "/" ++ lit "tom--jerry"
                          ++ lit "/cover.jpg")
              (re_sub (title_pattern (U := unicode_excerpt))
                 (fun _ => lit "title: " ++ lit "Tom & Jerry") front_matter)
            ++ content)).
Proof.
  cbv zeta.
  apply (@plain_title_is_written_literally unicode_excerpt
           [lit "_draft"; lit "tom--jerry"] (lit "tom--jerry") (lit "Tom & Jerry")
           post_with_empty_cover (mk_world blog_with_draft [])).
  - apply lit_no_backslash. reflexivity.
  - apply lit_no_backslash. reflexivity.
  - reflexivity.
  - vm_compute. reflexivity.
Defined.

Lemma cover_path_shows_the_date_witness :
  let w := mk_world blog_with_draft [] in
  let w' := fst (change_front_matter (U := unicode_excerpt)
                   [lit "_draft"; lit "tom--jerry"] (lit "tom--jerry") (lit "Tom & Jerry") w) in
  w_fs w' (md_file [lit "_draft"; lit "tom--jerry"] (lit "tom--jerry"))
  = Some (File
      (re_sub (cover_pattern (U := unicode_excerpt))
         (fun _ => lit "cover: " ++ lit "2024/01" ++ lit "/" ++ lit "tom--jerry"
                     ++ lit "/cover.jpg")
         (re_sub (title_pattern (U := unicode_excerpt))
            (fun _ => lit "title: " ++ lit "Tom & Jerry")
            (concat (firstn (5 + 1) (readlines post_with_empty_cover))))
       ++ concat (skipn (5 + 1) (readlines post_with_empty_cover)))).
Proof.
  cbv zeta.
  eapply (@cover_path_shows_the_date unicode_excerpt
            [lit "_draft"; lit "tom--jerry"] (lit "tom--jerry") (lit "Tom & Jerry")
            post_with_empty_cover (mk_world blog_with_draft []) _ 5 _
            50%N 48%N 50%N 52%N 48%N 49%N 48%N 50%N).
  - apply lit_no_backslash. reflexivity.
  - apply lit_no_backslash. reflexivity.
  - reflexivity.
  - reflexivity.
  - vm_compute. reflexivity.
  - vm_compute. reflexivity.
  - reflexivity.
  - discriminate.
  - vm_compute. reflexivity.
Defined.

Lemma title_ending_in_backslash_is_refused_witness :
  change_front_matter (U := unicode_excerpt) [lit "_draft"; lit "tom--jerry"]
    (lit "tom--jerry") (lit "Tom" ++ [BACKSLASH]) (mk_world blog_with_draft [])
  = (mk_world blog_with_draft [], Raise (mk_exn ReError [])).
Proof.
  eapply (@title_ending_in_backslash_is_refused unicode_excerpt
            [lit "_draft"; lit "tom--jerry"] (lit "tom--jerry") (lit "Tom")
            post_with_empty_cover (mk_world blog_with_draft []) 5 _ (mk_date 2024 1 2)).
  - apply lit_no_backslash. reflexivity.
  - reflexivity.
  - reflexivity.
  - vm_compute. reflexivity.
  - vm_compute. reflexivity.
Defined.

(** ** The loop over the images *)

Lemma for_each_cons A (x : A) (xs : list A) (body : A -> M unit) w w' :
  for_each (x :: xs) body w = (w', Ok tt) ->
  exists w1, body x w = (w1, Ok tt) /\ for_each xs body w1 = (w', Ok tt).
Proof.
  cbn [for_each fold_right]. intros H. apply bind_ok in H.
  destruct H as (w1 & [] & E1 & H). eauto.
Qed.

Lemma basename_nonempty (p : path) : basename p <> [] -> p <> [].
Proof. intros H ->. apply H. reflexivity. Qed.

(** One copy into a place that is not a directory. *)
Lemma shutil_copy_ok (src dst : path) w w' :
  src <> [] -> is_dir (w_fs w) dst = false ->
  shutil_copy src dst w = (w', Ok tt) ->
  exists text, w_fs w src = Some (File text)
    /\ w_fs w' = fs_set dst (Some (File text)) (w_fs w) /\ w_out w' = w_out w.
Proof.
  intros Hs Hd. unfold shutil_copy. unfold bind at 1. unfold get_fs at 1.
  rewrite Hd. intros H. apply bind_ok in H. destruct H as (w1 & text & E1 & H).
  apply (@read_file_ok _ _ _ _ Hs) in E1. destruct E1 as [-> E1].
  apply write_text_ok in H. destruct H as [H1 H2]. eauto.
Qed.

Lemma is_dir_set_file (p q : path) (text : str) (f : fs) :
  is_dir f q = false -> is_dir (fs_set p (Some (File text)) f) q = false.
Proof.
  unfold is_dir, lookup, fs_set. destruct q as [|a q]; [auto|].
  destruct (path_eqb (a :: q) p); auto.
Qed.

Lemma target_under (dest img : path) : under dest (image_target dest img) = true.
Proof. apply under_app. Qed.

Lemma target_injective (dest a b : path) :
  image_target dest a = image_target dest b -> basename a = basename b.
Proof.
  unfold image_target. intros H. apply app_inv_head in H. inversion H. reflexivity.
Qed.

(** X19: the loop that copies the images.  For sources with distinct
    non-empty names that lie outside the destination directory, none of
    which names a directory at the destination: when the loop succeeds,
    every source was a file and its text now stands under its own name in the
    destination; nothing else is changed and nothing is printed. *)
Theorem images_are_copied (img_dest_dir : path) (imgs : list path) : forall (w w' : world),
  NoDup (map basename imgs) ->
  (forall img, In img imgs ->
     basename img <> [] /\ under img_dest_dir img = false
     /\ is_dir (w_fs w) (image_target img_dest_dir img) = false) ->
  for_each imgs (fun img => shutil_copy img (child img_dest_dir (basename img))) w
  = (w', Ok tt) ->
  (forall img, In img imgs ->
     exists text, w_fs w img = Some (File text)
       /\ w_fs w' (image_target img_dest_dir img) = Some (File text))
  /\ (forall q, (forall img, In img imgs -> q <> image_target img_dest_dir img) ->
        w_fs w' q = w_fs w q)
  /\ w_out w' = w_out w.
Proof.
  induction imgs as [|img imgs IH]; intros w w' Hnd Hi H.
  - inversion H; subst. split; [intros img []|]. split; reflexivity.
  - apply for_each_cons in H. destruct H as (w1 & E1 & H).
    destruct (Hi img (or_introl eq_refl)) as (Hn & Hu & Hd).
    rewrite (child_nonempty img_dest_dir Hn) in E1.
    apply (@shutil_copy_ok _ _ _ _ (@basename_nonempty _ Hn) Hd) in E1.
    destruct E1 as (text & Esrc & Efs & Eout).
    inversion Hnd as [|? ? Hnotin Hnd']; subst.
    assert (Hkeep : forall q, q <> image_target img_dest_dir img -> w_fs w1 q = w_fs w q).
    { intros q Hq. rewrite Efs. unfold fs_set. rewrite (@path_eqb_neq _ _ Hq). reflexivity. }
    assert (Hsrc : forall x, under img_dest_dir x = false -> w_fs w1 x = w_fs w x).
    { intros x Hx. apply Hkeep. intros ->. rewrite target_under in Hx. discriminate Hx. }
    destruct (IH w1 w' Hnd') as (C1 & C2 & C3); [|exact H|].
    { intros x Hx. destruct (Hi x (or_intror Hx)) as (Hn' & Hu' & Hd').
      split; [exact Hn'|]. split; [exact Hu'|].
      rewrite Efs. apply is_dir_set_file. exact Hd'. }
    split; [|split].
    + intros x [<-|Hx].
      * exists text. split; [exact Esrc|].
        rewrite C2.
        -- rewrite Efs. unfold fs_set, image_target. rewrite path_eqb_refl. reflexivity.
        -- intros y Hy E. apply target_injective in E. apply Hnotin.
           rewrite E. apply in_map. exact Hy.
      * destruct (C1 x Hx) as (t & Ex & Et). exists t. split; [|exact Et].
        rewrite <- Ex. symmetry. apply Hsrc. apply (Hi x (or_intror Hx)).
    + intros q Hq. rewrite C2.
      * apply Hkeep. apply Hq. left. reflexivity.
      * intros y Hy. apply Hq. right. exact Hy.
    + congruence.
Qed.

Lemma images_are_copied_witness :
  let dest := source_posts ++ [lit "a"] in
  let imgs := [[lit "_draft"; lit "a"; lit "img"; lit "cover.jpg"];
               [lit "_draft"; lit "a"; lit "img"; lit "1.png"]] in
  let w := mk_world blog_with_images [] in
  let w' := fst (for_each imgs
                   (fun img => shutil_copy img (child dest (basename img))) w) in
  (forall img, In img imgs ->
     exists text, w_fs w img = Some (File text)
       /\ w_fs w' (image_target dest img) = Some (File text))
  /\ (forall q, (forall img, In img imgs -> q <> image_target dest img) ->
        w_fs w' q = w_fs w q)
  /\ w_out w' = w_out w.
Proof.
  cbv zeta.
  apply (@images_are_copied (source_posts ++ [lit "a"])
           [[lit "_draft"; lit "a"; lit "img"; lit "cover.jpg"];
            [lit "_draft"; lit "a"; lit "img"; lit "1.png"]]
           (mk_world blog_with_images [])).
  - repeat constructor; cbn [In map]; intros H; repeat destruct H as [H|H];
      try discriminate H; exact H.
  - intros img [<-|[<-|[]]]; (split; [discriminate|split; reflexivity]).
  - vm_compute. reflexivity.
Defined.
